(** * cryptl: the SHA family over a replaceable word backend

    A shallow embedding of [BitwiseINT.hpp], [SHA.hpp], [SHA_224.hpp] and
    [SHA_384.hpp].  Words are integers in [Z] with the wrap-around of the
    C++ unsigned type written out; operations the C++ standard leaves
    undefined, and assertions compiled in by [USE_ASSERT], are outcomes of
    their own.  The base engines [SHA_256] and [SHA_512], which [SHA_224]
    and [SHA_384] derive from, are written down from the specification and
    FIPS 180-4. *)

From Stdlib Require Import ZArith List Bool Lia.
Import ListNotations.
Local Open Scope Z_scope.

(** ** Outcomes of a C++ expression *)

(** A call either yields a value, stops in a failed [assert] (only when the
    build defines [USE_ASSERT]), or runs into behaviour the language leaves
    undefined (a shift by at least the operand's width, a read past the end
    of a vector).  A [while] loop is unrolled up to a bound on its number of
    iterations: [Unfinished] says that the loop was still running when the
    bound was used up, so a loop that never ends is [Unfinished] for every
    bound. *)
Inductive outcome (A : Type) : Type :=
| Value (a : A)
| AssertionFailure
| Undefined
| Unfinished.

Arguments Value {A} a.
Arguments AssertionFailure {A}.
Arguments Undefined {A}.
Arguments Unfinished {A}.

Definition bind {A B : Type} (m : outcome A) (k : A -> outcome B) : outcome B :=
  match m with
  | Value a => k a
  | AssertionFailure => AssertionFailure
  | Undefined => Undefined
  | Unfinished => Unfinished
  end.

Notation "x <- m ;; k" := (bind m (fun x => k))
  (at level 61, m at next level, right associativity).

(** ** Machine integers *)

(** [BitwiseINT.hpp] names three types for its parameter: [uint8_t],
    [uint32_t] and [uint64_t].  The last two, with which the SHA engines
    instantiate the backend, are at least as wide as [int], so that an
    operator is applied to them as they are: they are the [WordType]s.  An
    [uint8_t] is promoted to [int] before every operator; that
    instantiation is [BitwiseINT_uint8] below. *)
Inductive WordType : Set := uint32_t | uint64_t.

Definition CHAR_BIT : Z := 8.

Definition sizeof (T : WordType) : Z :=
  match T with
  | uint32_t => 4
  | uint64_t => 8
  end.

(** [sizeof(T) * CHAR_BIT] *)
Definition width (T : WordType) : Z := sizeof T * CHAR_BIT.

(** Conversion of a mathematical integer to the unsigned type [T]. *)
Definition wrap (T : WordType) (z : Z) : Z := z mod 2 ^ width T.

(** [std::size_t] and [std::uint64_t] have 64 bits, [unsigned int] has 32. *)
Definition to_size_t (z : Z) : Z := z mod 2 ^ 64.
Definition to_uint64 (z : Z) : Z := z mod 2 ^ 64.
Definition to_unsigned_int (z : Z) : Z := z mod 2 ^ 32.

(** [x] is a value of type [T]. *)
Definition is_word (T : WordType) (x : Z) : Prop := 0 <= x < 2 ^ width T.

(** ** BitwiseINT.hpp *)

Module BitwiseINT.
Section Backend.
Variable T : WordType.

(* bitwise logical operations *)
Definition AND (x y : Z) : Z := Z.land x y.
Definition _AND (x y : Z) : Z := AND x y.
Definition OR (x y : Z) : Z := Z.lor x y.
Definition _OR (x y : Z) : Z := OR x y.
Definition XOR (x y : Z) : Z := Z.lxor x y.
Definition _XOR (x y : Z) : Z := XOR x y.
Definition CMPLMNT (x : Z) : Z := wrap T (Z.lnot x).
Definition _CMPLMNT (x : Z) : Z := CMPLMNT x.

(* modulo addition *)
Definition ADDMOD (x y : Z) : Z := wrap T (x + y).
Definition _ADDMOD (x y : Z) : Z := ADDMOD x y.

(* modulo multiplication *)
Definition MULMOD (x y : Z) : Z := wrap T (x * y).
Definition _MULMOD (x y : Z) : Z := MULMOD x y.

(* bitwise shift: [n] is an [unsigned int].  [uint32_t] and [uint64_t]
   are not promoted, and a shift whose right operand is greater than or
   equal to the width of the left one has undefined behaviour
   (C++ [expr.shift]). *)
Definition SHL (x n : Z) : outcome Z :=
  if n <? width T then Value (wrap T (Z.shiftl x n)) else Undefined.
Definition _SHL (x n : Z) : outcome Z := SHL x n.
Definition SHR (x n : Z) : outcome Z :=
  if n <? width T then Value (Z.shiftr x n) else Undefined.
Definition _SHR (x n : Z) : outcome Z := SHR x n.

(** The guard both rotations start with when [USE_ASSERT] is defined:
    [assert(n <= sizeof(T) * CHAR_BIT)]. *)
Definition rotate_assert (USE_ASSERT : bool) (n : Z) : outcome unit :=
  if USE_ASSERT && negb (n <=? width T) then AssertionFailure else Value tt.

(** [sizeof(T) * CHAR_BIT - n] is computed in [std::size_t] and passed on
    as an [unsigned int]. *)
Definition complement_count (n : Z) : Z :=
  to_unsigned_int (to_size_t (width T - n)).

(* bitwise rotate *)
Definition ROTL (USE_ASSERT : bool) (x n : Z) : outcome Z :=
  _ <- rotate_assert USE_ASSERT n ;;
  hi <- SHL x n ;;
  lo <- SHR x (complement_count n) ;;
  Value (OR hi lo).
Definition _ROTL (USE_ASSERT : bool) (x n : Z) : outcome Z :=
  ROTL USE_ASSERT x n.

Definition ROTR (USE_ASSERT : bool) (x n : Z) : outcome Z :=
  _ <- rotate_assert USE_ASSERT n ;;
  lo <- SHR x n ;;
  hi <- SHL x (complement_count n) ;;
  Value (OR lo hi).
Definition _ROTR (USE_ASSERT : bool) (x n : Z) : outcome Z :=
  ROTR USE_ASSERT x n.

(* literal value: the argument is converted to [T] at the call *)
Definition constant (x : Z) : Z := wrap T x.
Definition _constant (x : Z) : Z := constant x.

(* zero array *)
Definition zero (N : nat) : list Z := repeat (constant 0) N.

(* conversion between unsigned integer types: [U xword(const T x, const U&)] *)
Definition xword (U : WordType) (x : Z) : Z := wrap U x.
Definition _xword (U : WordType) (x : Z) : Z := xword U x.

(* conversion from bool *)
Definition xword_bool (x : bool) : Z := if x then 1 else 0.
Definition _xword_bool (x : bool) : Z := xword_bool x.

(* negation *)
Definition negate (x : Z) : Z := wrap T (- x).
Definition _negate (x : Z) : Z := negate x.

(* logical NOT *)
Definition logicalNOT (b : bool) : bool := negb b.
Definition _logicalNOT (b : bool) : bool := logicalNOT b.

(* logical AND *)
Definition logicalAND (a b : bool) : bool := a && b.
Definition _logicalAND (a b : bool) : bool := logicalAND a b.

(* logical OR *)
Definition logicalOR (a b : bool) : bool := a || b.
Definition _logicalOR (a b : bool) : bool := logicalOR a b.

(* all mask bits take value of same bool: [b ? -1 : 0], converted to [T] *)
Definition bitmask (b : bool) : Z := if b then wrap T (-1) else 0.
Definition _bitmask (b : bool) : Z := bitmask b.

(* ternary *)
Definition ternary (b : bool) (x y : Z) : Z := if b then x else y.
Definition _ternary (b : bool) (x y : Z) : Z := ternary b x y.

(** [assert(n < sizeof(T) * CHAR_BIT)], the guard of [testbit] when
    [USE_ASSERT] is defined. *)
Definition testbit_assert (USE_ASSERT : bool) (n : Z) : outcome unit :=
  if USE_ASSERT && negb (n <? width T) then AssertionFailure else Value tt.

(* test bit: the word [AND(x, SHL(1, n))] is returned as a [bool] *)
Definition testbit (USE_ASSERT : bool) (x n : Z) : outcome bool :=
  _ <- testbit_assert USE_ASSERT n ;;
  m <- SHL 1 n ;;
  Value (negb (AND x m =? 0)).
Definition _testbit (USE_ASSERT : bool) (x n : Z) : outcome bool :=
  testbit USE_ASSERT x n.

(* look-up table: [a[idx]], undefined past the end of the array *)
Definition lookuptable (a : list Z) (idx : nat) : outcome Z :=
  match nth_error a idx with
  | Some v => Value v
  | None => Undefined
  end.
Definition _lookuptable (a : list Z) (idx : nat) : outcome Z := lookuptable a idx.

(* array subscript *)
Definition arraysubscript (a : list Z) (idx : nat) : outcome Z :=
  match nth_error a idx with
  | Some v => Value v
  | None => Undefined
  end.
Definition _arraysubscript (a : list Z) (idx : nat) : outcome Z :=
  arraysubscript a idx.

(* multiplication by x in GF(2^n); the bit index [sizeof(T) * CHAR_BIT - 1]
   is computed in [std::size_t] and passed on as an [unsigned int] *)
Definition xtime (USE_ASSERT : bool) (a modpoly : Z) : outcome Z :=
  top <- testbit USE_ASSERT a (to_unsigned_int (to_size_t (width T - 1))) ;;
  if top then s <- SHL a 1 ;; Value (XOR s modpoly)
  else SHL a 1.

(** [_xtime] calls itself, not [xtime]: [return _xtime(a, modpoly);].  Each
    call takes one unit of [fuel]. *)
Fixpoint _xtime (fuel : nat) (a modpoly : Z) : outcome Z :=
  match fuel with
  | O => Unfinished
  | S fuel' => _xtime fuel' a modpoly
  end.

(** [while (ytmp) { ... }] of [multiply], at most [fuel] times. *)
Fixpoint multiply_loop (fuel : nat) (USE_ASSERT : bool) (modpoly xtmp ytmp xorsum : Z)
  : outcome Z :=
  if negb (ytmp =? 0) then
    match fuel with
    | O => Unfinished
    | S fuel' =>
        low <- testbit USE_ASSERT ytmp 0 ;;
        let xorsum := if low then XOR xorsum xtmp else xorsum in
        ytmp <- SHR ytmp 1 ;;
        xtmp <- xtime USE_ASSERT xtmp modpoly ;;
        multiply_loop fuel' USE_ASSERT modpoly xtmp ytmp xorsum
    end
  else Value xorsum.

(* multiplication in GF(2^n) *)
Definition multiply (fuel : nat) (USE_ASSERT : bool) (x y modpoly : Z) : outcome Z :=
  multiply_loop fuel USE_ASSERT modpoly x y 0.
Definition _multiply (fuel : nat) (USE_ASSERT : bool) (x y modpoly : Z) : outcome Z :=
  multiply fuel USE_ASSERT x y modpoly.
End Backend.
End BitwiseINT.

(** ** BitwiseINT.hpp with [uint8_t] for [T] *)

(** Both operands of [&], [|], [^], [+] and [*], and the left operand of
    [<<] and [>>], are promoted from [uint8_t] to the 32-bit [int]; the
    [int] that results is converted to [uint8_t] by the [return]. *)
Module BitwiseINT_uint8.

(** [sizeof(T) * CHAR_BIT] and the width of the [int] operators work in. *)
Definition width : Z := 1 * CHAR_BIT.
Definition int_width : Z := 32.

(** Conversion of an [int] to [uint8_t]. *)
Definition to_uint8 (z : Z) : Z := z mod 2 ^ width.

(* bitwise logical operations *)
Definition AND (x y : Z) : Z := to_uint8 (Z.land x y).
Definition OR (x y : Z) : Z := to_uint8 (Z.lor x y).
Definition XOR (x y : Z) : Z := to_uint8 (Z.lxor x y).
Definition CMPLMNT (x : Z) : Z := to_uint8 (Z.lnot x).

(* modulo addition *)
Definition ADDMOD (x y : Z) : Z := to_uint8 (x + y).

(* modulo multiplication *)
Definition MULMOD (x y : Z) : Z := to_uint8 (x * y).

(* bitwise shift: the left operand is an [int], so that the shift is
   undefined from [n = 32] on.  For [<<] it is undefined in C++11 also when
   [x * 2^n] is not a value of [int] (C++ [expr.shift]); later standards
   define some of these shifts, which only arise for [n >= 24]. *)
Definition SHL (x n : Z) : outcome Z :=
  if n <? int_width then
    if Z.shiftl x n <? 2 ^ (int_width - 1) then Value (to_uint8 (Z.shiftl x n))
    else Undefined
  else Undefined.
Definition SHR (x n : Z) : outcome Z :=
  if n <? int_width then Value (to_uint8 (Z.shiftr x n)) else Undefined.

(** [assert(n <= sizeof(T) * CHAR_BIT)] *)
Definition rotate_assert (USE_ASSERT : bool) (n : Z) : outcome unit :=
  if USE_ASSERT && negb (n <=? width) then AssertionFailure else Value tt.

(** [sizeof(T) * CHAR_BIT - n], computed in [std::size_t] and passed on as
    an [unsigned int]. *)
Definition complement_count (n : Z) : Z :=
  to_unsigned_int (to_size_t (width - n)).

(* bitwise rotate *)
Definition ROTL (USE_ASSERT : bool) (x n : Z) : outcome Z :=
  _ <- rotate_assert USE_ASSERT n ;;
  hi <- SHL x n ;;
  lo <- SHR x (complement_count n) ;;
  Value (OR hi lo).

Definition ROTR (USE_ASSERT : bool) (x n : Z) : outcome Z :=
  _ <- rotate_assert USE_ASSERT n ;;
  lo <- SHR x n ;;
  hi <- SHL x (complement_count n) ;;
  Value (OR lo hi).

(** [assert(n < sizeof(T) * CHAR_BIT)] *)
Definition testbit_assert (USE_ASSERT : bool) (n : Z) : outcome unit :=
  if USE_ASSERT && negb (n <? width) then AssertionFailure else Value tt.

(* test bit: the [uint8_t] that [AND(x, SHL(1, n))] returns, as a [bool] *)
Definition testbit (USE_ASSERT : bool) (x n : Z) : outcome bool :=
  _ <- testbit_assert USE_ASSERT n ;;
  m <- SHL 1 n ;;
  Value (negb (AND x m =? 0)).
End BitwiseINT_uint8.

(** ** SHA.hpp: the common SHA functions *)

Module SHA_Functions.
Section Functions.
(** [SHA_Functions<T, T, BitwiseINT<T>>] *)
Variable T : WordType.
Variable USE_ASSERT : bool.

Definition Ch (x y z : Z) : Z :=
  BitwiseINT.XOR
    (BitwiseINT._AND x y)
    (BitwiseINT._AND (BitwiseINT._CMPLMNT T x) z).

Definition Parity (x y z : Z) : Z :=
  BitwiseINT.XOR
    (BitwiseINT._XOR x y)
    z.

Definition Maj (x y z : Z) : Z :=
  BitwiseINT.XOR
    (BitwiseINT._XOR
       (BitwiseINT._AND x y)
       (BitwiseINT._AND x z))
    (BitwiseINT._AND y z).

(** [round] is a [std::size_t]. *)
Definition f (x y z : Z) (round : Z) : Z :=
  if round <? 20 then Ch x y z
  else if round <? 40 then Parity x y z
  else if round <? 60 then Maj x y z
  else Parity x y z.

Definition SIGMA (x a b c : Z) : outcome Z :=
  ra <- BitwiseINT._ROTR T USE_ASSERT x a ;;
  rb <- BitwiseINT._ROTR T USE_ASSERT x b ;;
  rc <- BitwiseINT._ROTR T USE_ASSERT x c ;;
  Value (BitwiseINT.XOR (BitwiseINT._XOR ra rb) rc).

Definition sigma (x a b c : Z) : outcome Z :=
  ra <- BitwiseINT._ROTR T USE_ASSERT x a ;;
  rb <- BitwiseINT._ROTR T USE_ASSERT x b ;;
  sc <- BitwiseINT._SHR T x c ;;
  Value (BitwiseINT.XOR (BitwiseINT._XOR ra rb) sc).

Definition SIGMA_256_0 (x : Z) : outcome Z := SIGMA x 2 13 22.
Definition SIGMA_256_1 (x : Z) : outcome Z := SIGMA x 6 11 25.
Definition sigma_256_0 (x : Z) : outcome Z := sigma x 7 18 3.
Definition sigma_256_1 (x : Z) : outcome Z := sigma x 17 19 10.
Definition SIGMA_512_0 (x : Z) : outcome Z := SIGMA x 28 34 39.
Definition SIGMA_512_1 (x : Z) : outcome Z := SIGMA x 14 18 41.
Definition sigma_512_0 (x : Z) : outcome Z := sigma x 1 8 7.
Definition sigma_512_1 (x : Z) : outcome Z := sigma x 19 61 6.
End Functions.
End SHA_Functions.

(** ** Engine objects *)

(** The data members of one engine object.  [m_message] is [SHA_Base]'s;
    [m_H], [m_W] and [m_work] (the working variables a..h) are the base
    engine's; [m_Hleft] (named [m_Hleft224] in [SHA_224] and [m_Hleft384] in
    [SHA_384]) and [m_setDigest] are the truncating engine's. *)
Record Engine : Type := mkEngine {
  m_message : list Z;
  m_H : list Z;
  m_W : list Z;
  m_work : list Z;
  m_Hleft : list Z;
  m_setDigest : bool
}.

Definition set_message (x : list Z) (e : Engine) : Engine :=
  mkEngine x (m_H e) (m_W e) (m_work e) (m_Hleft e) (m_setDigest e).
Definition set_H (x : list Z) (e : Engine) : Engine :=
  mkEngine (m_message e) x (m_W e) (m_work e) (m_Hleft e) (m_setDigest e).
Definition set_W (x : list Z) (e : Engine) : Engine :=
  mkEngine (m_message e) (m_H e) x (m_work e) (m_Hleft e) (m_setDigest e).
Definition set_work (x : list Z) (e : Engine) : Engine :=
  mkEngine (m_message e) (m_H e) (m_W e) x (m_Hleft e) (m_setDigest e).
Definition set_Hleft (x : list Z) (e : Engine) : Engine :=
  mkEngine (m_message e) (m_H e) (m_W e) (m_work e) x (m_setDigest e).
Definition set_setDigest (x : bool) (e : Engine) : Engine :=
  mkEngine (m_message e) (m_H e) (m_W e) (m_work e) (m_Hleft e) x.

(** [a[i] = x] on a [std::array]: [i] is inside the array at every use. *)
Definition array_set (a : list Z) (i : nat) (x : Z) : list Z :=
  if (i <? length a)%nat then firstn i a ++ x :: skipn (S i) a else a.

(** [for (i = 0; i < n; ++i) dst[i] = g(src[i]);] *)
Definition array_fill (n : nat) (g : Z -> Z) (src dst : list Z) : list Z :=
  fold_left (fun d i => array_set d i (g (nth i src 0))) (seq 0 n) dst.

(** A member function: it runs on the object, which it may change, and has
    an outcome.  The object is handed on also when the call fails, as it
    stood at that point. *)
Definition M (A : Type) : Type := Engine -> outcome A * Engine.

Definition ret {A : Type} (a : A) : M A := fun e => (Value a, e).

Definition bindM {A B : Type} (m : M A) (k : A -> M B) : M B :=
  fun e =>
    match m e with
    | (Value a, e') => k a e'
    | (AssertionFailure, e') => (AssertionFailure, e')
    | (Undefined, e') => (Undefined, e')
    | (Unfinished, e') => (Unfinished, e')
    end.

Notation "x <~ m ;; k" := (bindM m (fun x => k))
  (at level 61, m at next level, right associativity).

Definition lift {A : Type} (o : outcome A) : M A := fun e => (o, e).
Definition modify (g : Engine -> Engine) : M unit := fun e => (Value tt, g e).

(** The member functions [SHA_Base::computeHash] calls on the derived class
    [CRTP]; [prepMsgSchedule] takes the message index by reference and
    returns it here. *)
Record Derived : Type := mkDerived {
  initHashValue : M unit;
  prepMsgSchedule : nat -> M nat;
  initWorkingVars : M unit;
  workingLoop : M unit;
  updateHash : M unit;
  afterHash : M unit
}.

(** ** SHA.hpp: [SHA_Base] *)

Inductive SHA_BlockSize : Set :=
| BLOCK_512   (* for: SHA-1, SHA-224, SHA-256 *)
| BLOCK_1024. (* for: SHA-384, SHA-512, SHA-512/224, SHA-512/256 *)

(** The byte a [char] is written as. *)
Definition to_byte (c : Z) : Z := c mod 256.

Module SHA_Base.
Section Class.
Variable CRTP : Derived.
Variable BLK : SHA_BlockSize.
(** the type of the words of [m_message] *)
Variable MSG : WordType.

Definition blockSizeBits : Z :=
  match BLK with
  | BLOCK_512 => 512
  | BLOCK_1024 => 1024
  end.

Definition wordSizeBits : Z :=
  match BLK with
  | BLOCK_512 => 32
  | BLOCK_1024 => 64
  end.

(** [os << c; lengthBits += CHAR_BIT;] on a stream holding the bytes
    written so far and a [std::size_t] counter. *)
Definition append (st : list Z * Z) (c : Z) : list Z * Z :=
  (fst st ++ [to_byte c], to_size_t (snd st + CHAR_BIT)).

(** [while (stopPadBits != lengthBits % blockSizeBits()) append(os, lengthBits, 0x00);] *)
Fixpoint zero_pad_loop (fuel : nat) (stopPadBits : Z) (st : list Z * Z)
  : outcome (list Z * Z) :=
  if negb (stopPadBits =? snd st mod blockSizeBits) then
    match fuel with
    | O => Unfinished
    | S fuel' => zero_pad_loop fuel' stopPadBits (append st 0x00)
    end
  else Value st.

(** [for (std::size_t i = 0; i < 8; ++i) append(os, lengthBits, 0x00);] *)
Definition high_length_field (st : list Z * Z) : list Z * Z :=
  fold_left (fun s (_ : nat) => append s 0x00) (seq 0 8) st.

(** [for (int i = 7; i >= 0; --i)
       append(os, lengthBits, (msgLengthBits >> i * CHAR_BIT) & 0xff);] *)
Definition low_length_field (msgLengthBits : Z) (st : list Z * Z) : list Z * Z :=
  fold_left
    (fun s i => append s (Z.land (Z.shiftr msgLengthBits (i * CHAR_BIT)) 0xff))
    [7; 6; 5; 4; 3; 2; 1; 0] st.

Definition padMessage (fuel : nat) (os : list Z) (lengthBits : Z)
  : outcome (list Z * Z) :=
  (* message size is limited to < 2^64 bits in this implementation *)
  let msgLengthBits := to_uint64 lengthBits in
  (* append bit "1" to end of message *)
  let st := append (os, lengthBits) 0x80 in
  (* keep padding zero bits to the length block at the end *)
  let stopPadBits := to_size_t (blockSizeBits - 2 * wordSizeBits) in
  st <- zero_pad_loop fuel stopPadBits st ;;
  (* append length of message *)
  let st :=
    match BLK with
    | BLOCK_1024 => high_length_field st
    | BLOCK_512 => st
    end in
  Value (low_length_field msgLengthBits st).

Definition padNeeded (lengthBits : Z) : bool :=
  (* non-empty message must be even number of message input blocks *)
  (0 =? lengthBits) || negb (0 =? lengthBits mod blockSizeBits).

(* append (possibly lazy) word to message: [m_message.emplace_back(a)]
   makes a [MSG] of the integer [a] *)
Definition msgInput (a : Z) : M unit :=
  modify (fun e => set_message (m_message e ++ [wrap MSG a]) e).

(* append vector of words to message *)
Fixpoint msgInput_vector (a : list Z) : M unit :=
  match a with
  | [] => ret tt
  | b :: a' => _ <~ msgInput b ;; msgInput_vector a'
  end.

Definition clearMessage : M unit :=
  modify (set_message []).

(** [m_message[index++]]: reading past the end of the vector is undefined. *)
Definition msgWord (index : nat) : M (Z * nat) :=
  fun e =>
    match nth_error (m_message e) index with
    | Some w => (Value (w, S index), e)
    | None => (Undefined, e)
    end.

Definition inputOK (e : Engine) : bool :=
  (* non-empty message must be even number of message input blocks *)
  let msgSizeBits :=
    to_size_t (Z.of_nat (length (m_message e)) * wordSizeBits) in
  negb (Nat.eqb (length (m_message e)) 0)
  && (0 =? msgSizeBits mod blockSizeBits).

(** [assert(inputOK())], compiled in by [USE_ASSERT]. *)
Definition assert_inputOK (USE_ASSERT : bool) : M unit :=
  fun e =>
    if USE_ASSERT && negb (inputOK e) then (AssertionFailure, e)
    else (Value tt, e).

(** [while (msgIndex < m_message.size()) { ... }], at most [fuel] times. *)
Fixpoint block_loop (fuel : nat) (msgIndex : nat) : M unit :=
  fun e =>
    if (msgIndex <? length (m_message e))%nat then
      match fuel with
      | O => (Unfinished, e)
      | S fuel' =>
          (msgIndex' <~ prepMsgSchedule CRTP msgIndex ;;
           _ <~ initWorkingVars CRTP ;;
           _ <~ workingLoop CRTP ;;
           _ <~ updateHash CRTP ;;
           block_loop fuel' msgIndex') e
      end
    else (Value tt, e).

Definition computeHash (fuel : nat) (USE_ASSERT : bool) : M unit :=
  _ <~ assert_inputOK USE_ASSERT ;;
  _ <~ initHashValue CRTP ;;
  _ <~ block_loop fuel 0 ;;
  afterHash CRTP.
End Class.
End SHA_Base.

(** Bytes read as one big-endian integer. *)
Definition big_endian (bs : list Z) : Z :=
  fold_left (fun acc b => acc * 256 + b) bs 0.

(** The last [n] elements of a list. *)
Definition lastn {A : Type} (n : nat) (l : list A) : list A :=
  skipn (length l - n) l.

(** ** SHA_256.hpp and SHA_512.hpp: the two base engines *)

(** The headers of the base classes [SHA_256] and [SHA_512] are not part of
    the sources at hand; their members are written down from the
    specification (sections 3, 4.4 and 4.5) and FIPS 180-4, to which the
    specification refers for the constants. *)
Module SHA_2.

(** Modelled from the spec: the initial hash value of [SHA_256], which is
    missing (FIPS 180-4 section 5.3.3). *)
Definition IV_256 : list Z :=
  0x6a09e667 :: 0xbb67ae85 :: 0x3c6ef372 :: 0xa54ff53a ::
  0x510e527f :: 0x9b05688c :: 0x1f83d9ab :: 0x5be0cd19 ::
  nil.

(** Modelled from the spec: the initial hash value of [SHA_512], which is
    missing (FIPS 180-4 section 5.3.5). *)
Definition IV_512 : list Z :=
  0x6a09e667f3bcc908 :: 0xbb67ae8584caa73b ::
  0x3c6ef372fe94f82b :: 0xa54ff53a5f1d36f1 ::
  0x510e527fade682d1 :: 0x9b05688c2b3e6c1f ::
  0x1f83d9abfb41bd6b :: 0x5be0cd19137e2179 ::
  nil.

(** Modelled from the spec: the round-constant table [m_K] of [SHA_256],
    which is missing (FIPS 180-4 section 4.2.2). *)
Definition K_256 : list Z :=
  0x428a2f98 :: 0x71374491 :: 0xb5c0fbcf :: 0xe9b5dba5 :: 0x3956c25b :: 0x59f111f1 ::
  0x923f82a4 :: 0xab1c5ed5 :: 0xd807aa98 :: 0x12835b01 :: 0x243185be :: 0x550c7dc3 ::
  0x72be5d74 :: 0x80deb1fe :: 0x9bdc06a7 :: 0xc19bf174 :: 0xe49b69c1 :: 0xefbe4786 ::
  0x0fc19dc6 :: 0x240ca1cc :: 0x2de92c6f :: 0x4a7484aa :: 0x5cb0a9dc :: 0x76f988da ::
  0x983e5152 :: 0xa831c66d :: 0xb00327c8 :: 0xbf597fc7 :: 0xc6e00bf3 :: 0xd5a79147 ::
  0x06ca6351 :: 0x14292967 :: 0x27b70a85 :: 0x2e1b2138 :: 0x4d2c6dfc :: 0x53380d13 ::
  0x650a7354 :: 0x766a0abb :: 0x81c2c92e :: 0x92722c85 :: 0xa2bfe8a1 :: 0xa81a664b ::
  0xc24b8b70 :: 0xc76c51a3 :: 0xd192e819 :: 0xd6990624 :: 0xf40e3585 :: 0x106aa070 ::
  0x19a4c116 :: 0x1e376c08 :: 0x2748774c :: 0x34b0bcb5 :: 0x391c0cb3 :: 0x4ed8aa4a ::
  0x5b9cca4f :: 0x682e6ff3 :: 0x748f82ee :: 0x78a5636f :: 0x84c87814 :: 0x8cc70208 ::
  0x90befffa :: 0xa4506ceb :: 0xbef9a3f7 :: 0xc67178f2 ::
  nil.

(** Modelled from the spec: the round-constant table [m_K] of [SHA_512],
    which is missing (FIPS 180-4 section 4.2.3). *)
Definition K_512 : list Z :=
  0x428a2f98d728ae22 :: 0x7137449123ef65cd :: 0xb5c0fbcfec4d3b2f ::
  0xe9b5dba58189dbbc :: 0x3956c25bf348b538 :: 0x59f111f1b605d019 ::
  0x923f82a4af194f9b :: 0xab1c5ed5da6d8118 :: 0xd807aa98a3030242 ::
  0x12835b0145706fbe :: 0x243185be4ee4b28c :: 0x550c7dc3d5ffb4e2 ::
  0x72be5d74f27b896f :: 0x80deb1fe3b1696b1 :: 0x9bdc06a725c71235 ::
  0xc19bf174cf692694 :: 0xe49b69c19ef14ad2 :: 0xefbe4786384f25e3 ::
  0x0fc19dc68b8cd5b5 :: 0x240ca1cc77ac9c65 :: 0x2de92c6f592b0275 ::
  0x4a7484aa6ea6e483 :: 0x5cb0a9dcbd41fbd4 :: 0x76f988da831153b5 ::
  0x983e5152ee66dfab :: 0xa831c66d2db43210 :: 0xb00327c898fb213f ::
  0xbf597fc7beef0ee4 :: 0xc6e00bf33da88fc2 :: 0xd5a79147930aa725 ::
  0x06ca6351e003826f :: 0x142929670a0e6e70 :: 0x27b70a8546d22ffc ::
  0x2e1b21385c26c926 :: 0x4d2c6dfc5ac42aed :: 0x53380d139d95b3df ::
  0x650a73548baf63de :: 0x766a0abb3c77b2a8 :: 0x81c2c92e47edaee6 ::
  0x92722c851482353b :: 0xa2bfe8a14cf10364 :: 0xa81a664bbc423001 ::
  0xc24b8b70d0f89791 :: 0xc76c51a30654be30 :: 0xd192e819d6ef5218 ::
  0xd69906245565a910 :: 0xf40e35855771202a :: 0x106aa07032bbd1b8 ::
  0x19a4c116b8d2d0c8 :: 0x1e376c085141ab53 :: 0x2748774cdf8eeb99 ::
  0x34b0bcb5e19b48a8 :: 0x391c0cb3c5c95a63 :: 0x4ed8aa4ae3418acb ::
  0x5b9cca4f7763e373 :: 0x682e6ff3d6b2b8a3 :: 0x748f82ee5defb2fc ::
  0x78a5636f43172f60 :: 0x84c87814a1f0ab72 :: 0x8cc702081a6439ec ::
  0x90befffa23631e28 :: 0xa4506cebde82bde9 :: 0xbef9a3f7b2c67915 ::
  0xc67178f2e372532b :: 0xca273eceea26619c :: 0xd186b8c721c0c207 ::
  0xeada7dd6cde0eb1e :: 0xf57d4f7fee6ed178 :: 0x06f067aa72176fba ::
  0x0a637dc5a2c898a6 :: 0x113f9804bef90dae :: 0x1b710b35131c471b ::
  0x28db77f523047d84 :: 0x32caab7b40c72493 :: 0x3c9ebe0a15c9bebc ::
  0x431d67c49c100d4c :: 0x4cc5d4becb3e42b6 :: 0x597f299cfc657e2a ::
  0x5fcb6fab3ad6faec :: 0x6c44198c4a475817 ::
  nil.

Section Base.
(** [uint32_t] for [SHA_256], [uint64_t] for [SHA_512] *)
Variable T : WordType.
Variable USE_ASSERT : bool.

(** Modelled from the spec: the block size of each missing base class
    (section 4.5: 512 against 1024 bits). *)
Definition BLK : SHA_BlockSize :=
  match T with
  | uint32_t => BLOCK_512
  | uint64_t => BLOCK_1024
  end.

(** Modelled from the spec: the round count of each missing base class
    (section 4.5: 64 against 80). *)
Definition rounds : nat :=
  match T with
  | uint32_t => 64
  | uint64_t => 80
  end.

(** Modelled from the spec: the table each missing base class holds. *)
Definition m_K : list Z :=
  match T with
  | uint32_t => K_256
  | uint64_t => K_512
  end.

(** Modelled from the spec: the initial value each missing base class sets. *)
Definition IV : list Z :=
  match T with
  | uint32_t => IV_256
  | uint64_t => IV_512
  end.

(** Modelled from the spec: which of the functions of [SHA_Functions] the
    missing round and schedule code calls for its word size. *)
Definition SIGMA_0 (x : Z) : outcome Z :=
  match T with
  | uint32_t => SHA_Functions.SIGMA_256_0 T USE_ASSERT x
  | uint64_t => SHA_Functions.SIGMA_512_0 T USE_ASSERT x
  end.

(** Modelled from the spec: see [SIGMA_0]. *)
Definition SIGMA_1 (x : Z) : outcome Z :=
  match T with
  | uint32_t => SHA_Functions.SIGMA_256_1 T USE_ASSERT x
  | uint64_t => SHA_Functions.SIGMA_512_1 T USE_ASSERT x
  end.

(** Modelled from the spec: see [SIGMA_0]. *)
Definition sigma_0 (x : Z) : outcome Z :=
  match T with
  | uint32_t => SHA_Functions.sigma_256_0 T USE_ASSERT x
  | uint64_t => SHA_Functions.sigma_512_0 T USE_ASSERT x
  end.

(** Modelled from the spec: see [SIGMA_0]. *)
Definition sigma_1 (x : Z) : outcome Z :=
  match T with
  | uint32_t => SHA_Functions.sigma_256_1 T USE_ASSERT x
  | uint64_t => SHA_Functions.sigma_512_1 T USE_ASSERT x
  end.

(** Modelled from the spec: the first half of the missing
    [prepMsgSchedule]; the 16 words of the block are read through
    [SHA_Base::msgWord], which advances the message index. *)
Fixpoint read_block (n : nat) (index : nat) : M (list Z * nat) :=
  match n with
  | O => ret ([], index)
  | S n' =>
      p <~ SHA_Base.msgWord index ;;
      q <~ read_block n' (snd p) ;;
      ret (fst p :: fst q, snd q)
  end.

(** Modelled from the spec: the second half of the missing
    [prepMsgSchedule], the recurrence
    [W[i] = sigma_1(W[i-2]) + W[i-7] + sigma_0(W[i-15]) + W[i-16]]
    of FIPS 180-4 sections 6.2.2 and 6.4.2, [n] more entries. *)
Fixpoint expand_schedule (n : nat) (W : list Z) : outcome (list Z) :=
  match n with
  | O => Value W
  | S n' =>
      let i := length W in
      s1 <- sigma_1 (nth (i - 2) W 0) ;;
      s0 <- sigma_0 (nth (i - 15) W 0) ;;
      expand_schedule n'
        (W ++ [BitwiseINT.ADDMOD T
                 (BitwiseINT.ADDMOD T
                    (BitwiseINT.ADDMOD T s1 (nth (i - 7) W 0))
                    s0)
                 (nth (i - 16) W 0)])
  end.

(** Modelled from the spec: the missing [prepMsgSchedule] (section 3,
    MessageSchedule: entries 0..15 are the block words, later entries
    derive by the recurrence). *)
Definition prepMsgSchedule (msgIndex : nat) : M nat :=
  p <~ read_block 16 msgIndex ;;
  W <~ lift (expand_schedule (rounds - 16) (fst p)) ;;
  _ <~ modify (set_W W) ;;
  ret (snd p).

(** Modelled from the spec: the missing [initWorkingVars] (section 3: the
    working variables are re-initialized from HashState). *)
Definition initWorkingVars : M unit :=
  modify (fun e => set_work (firstn 8 (m_H e)) e).

(** Modelled from the spec: one round of the missing [workingLoop]
    (section 4.4: two temporaries from SIGMA_1/Ch and SIGMA_0/Maj, the
    eight working variables rotated, round constant and schedule word
    added), on the variables a..h with the round's constant and word. *)
Definition round (vars : list Z) (KW : Z * Z) : outcome (list Z) :=
  let ADD := BitwiseINT.ADDMOD T in
  let a := nth 0 vars 0 in let b := nth 1 vars 0 in
  let c := nth 2 vars 0 in let d := nth 3 vars 0 in
  let e := nth 4 vars 0 in let f := nth 5 vars 0 in
  let g := nth 6 vars 0 in let h := nth 7 vars 0 in
  S1 <- SIGMA_1 e ;;
  S0 <- SIGMA_0 a ;;
  let T1 := ADD (ADD (ADD (ADD h S1) (SHA_Functions.Ch T e f g)) (fst KW)) (snd KW) in
  let T2 := ADD S0 (SHA_Functions.Maj a b c) in
  Value [ADD T1 T2; a; b; c; ADD d T1; e; f; g].

(** Modelled from the spec: the rounds of the missing [workingLoop]. *)
Fixpoint round_loop (KW : list (Z * Z)) (vars : list Z) : outcome (list Z) :=
  match KW with
  | [] => Value vars
  | kw :: KW' => vars' <- round vars kw ;; round_loop KW' vars'
  end.

(** Modelled from the spec: the missing [workingLoop]. *)
Definition workingLoop : M unit :=
  fun e =>
    (vars <~ lift (round_loop (combine m_K (m_W e)) (m_work e)) ;;
     modify (set_work vars)) e.

(** Modelled from the spec: the missing [updateHash] (section 3: the
    working variables are folded into HashState by modular addition). *)
Definition updateHash : M unit :=
  modify (fun e =>
    set_H (map (fun p => BitwiseINT.ADDMOD T (fst p) (snd p))
               (combine (m_H e) (m_work e))) e).

(** Modelled from the spec: the missing [initHashValue] of the base class. *)
Definition initHashValue : M unit :=
  modify (fun e =>
    set_H (array_fill 8 (BitwiseINT.constant T) IV (m_H e)) e).

(** Modelled from the spec: the missing [afterHash] of the base class
    (section 4.4: the finalization hook is used by truncating variants). *)
Definition afterHash : M unit := ret tt.

(** Modelled from the spec: the missing [digest] of the base class
    (section 3, DigestView: 8 words for the variants that do not
    truncate). *)
Definition digest : M (list Z) := fun e => (Value (m_H e), e).

(** Modelled from the spec: the base class as [SHA_Base]'s [CRTP]. *)
Definition derived : Derived :=
  mkDerived initHashValue prepMsgSchedule initWorkingVars workingLoop
            updateHash afterHash.

(** Modelled from the spec: [computeHash] of [SHA_Base] on a base engine. *)
Definition computeHash (fuel : nat) : M unit :=
  SHA_Base.computeHash derived BLK fuel USE_ASSERT.
End Base.
End SHA_2.

(** ** SHA_224.hpp *)

Module SHA_224.

(* overrides base class SHA-256 *)
Definition digest : M (list Z) :=
  fun e =>
    let e' :=
      if m_setDigest e then
        set_setDigest false
          (set_Hleft (array_fill 7 (fun x => x) (m_H e) (m_Hleft e)) e)
      else e in
    (Value (m_Hleft e'), e').

(* set initial hash value (NIST FIPS 180-4 section 5.3.2) *)
Definition a : list Z :=
  [ 0xc1059ed8; 0x367cd507; 0x3070dd17; 0xf70e5939;
    0xffc00b31; 0x68581511; 0x64f98fa7; 0xbefa4fa4 ].

(* overrides base class SHA-256 *)
Definition initHashValue : M unit :=
  modify (fun e =>
    set_H (array_fill 8 (BitwiseINT.constant uint32_t) a (m_H e)) e).

Definition afterHash : M unit := modify (set_setDigest true).

(** [SHA_Base]'s [CRTP] is [SHA_256]; the two virtual members resolve to
    the overrides above, the others are inherited. *)
Definition derived (USE_ASSERT : bool) : Derived :=
  mkDerived initHashValue
            (SHA_2.prepMsgSchedule uint32_t USE_ASSERT)
            SHA_2.initWorkingVars
            (SHA_2.workingLoop uint32_t USE_ASSERT)
            (SHA_2.updateHash uint32_t)
            afterHash.

Definition computeHash (USE_ASSERT : bool) (fuel : nat) : M unit :=
  SHA_Base.computeHash (derived USE_ASSERT) BLOCK_512 fuel USE_ASSERT.
End SHA_224.

(** ** SHA_384.hpp *)

Module SHA_384.

(* overrides base class SHA-512 *)
Definition digest : M (list Z) :=
  fun e =>
    let e' :=
      if m_setDigest e then
        set_setDigest false
          (set_Hleft (array_fill 6 (fun x => x) (m_H e) (m_Hleft e)) e)
      else e in
    (Value (m_Hleft e'), e').

(* set initial hash value (NIST FIPS 180-4 section 5.3.4) *)
Definition a : list Z :=
  [ 0xcbbb9d5dc1059ed8; 0x629a292a367cd507;
    0x9159015a3070dd17; 0x152fecd8f70e5939;

    0x67332667ffc00b31; 0x8eb44a8768581511;
    0xdb0c2e0d64f98fa7; 0x47b5481dbefa4fa4 ].

(* overrides base class SHA-512 *)
Definition initHashValue : M unit :=
  modify (fun e =>
    set_H (array_fill 8 (BitwiseINT.constant uint64_t) a (m_H e)) e).

Definition afterHash : M unit := modify (set_setDigest true).

(** [SHA_Base]'s [CRTP] is [SHA_512]; the two virtual members resolve to
    the overrides above, the others are inherited. *)
Definition derived (USE_ASSERT : bool) : Derived :=
  mkDerived initHashValue
            (SHA_2.prepMsgSchedule uint64_t USE_ASSERT)
            SHA_2.initWorkingVars
            (SHA_2.workingLoop uint64_t USE_ASSERT)
            (SHA_2.updateHash uint64_t)
            afterHash.

Definition computeHash (USE_ASSERT : bool) (fuel : nat) : M unit :=
  SHA_Base.computeHash (derived USE_ASSERT) BLOCK_1024 fuel USE_ASSERT.
End SHA_384.

(** ** Calls on a truncating engine *)







(** ** Test data *)

(** An engine as its constructor leaves it: [m_setDigest] is [false], the
    vector is empty, and the arrays, which the constructor does not
    initialize, hold [junk]. *)
Definition constructed (left : nat) (junk : Z) : Engine :=
  mkEngine [] (repeat junk 8) [] (repeat junk 8) (repeat junk left) false.

(** The message "abc", padded to one block of sixteen 32-bit words. *)
Definition abc_512 : list Z :=
  0x61626380 :: repeat 0 14 ++ [0x18].

(** The message "abc", padded to one block of sixteen 64-bit words. *)
Definition abc_1024 : list Z :=
  0x6162638000000000 :: repeat 0 14 ++ [0x18].

(** That engine with the words [msg] in its buffer. *)
Definition loaded (left : nat) (msg : list Z) : Engine :=
  set_message msg (constructed left 0).

(** The truncating engines after [computeHash] on that block. *)
Definition hashed_224 : Engine :=
  Eval vm_compute in snd (SHA_224.computeHash true 1 (loaded 7 abc_512)).


(** ** What the specification calls a rotation *)

(** The [w]-bit number whose bit [i] is [b i]. *)
Fixpoint Z_of_bits (w : nat) (b : Z -> bool) : Z :=
  match w with
  | O => 0
  | S w' =>
      if b (Z.of_nat w') then Z.setbit (Z_of_bits w' b) (Z.of_nat w')
      else Z_of_bits w' b
  end.

(** [x] rotated left by [n] in a word of [w] bits: every bit moves [n]
    places up, and the bits pushed out at the top come back at the bottom. *)
Definition rotate_left (w x n : Z) : Z :=
  Z_of_bits (Z.to_nat w) (fun i => Z.testbit x ((i - n) mod w)).

(** [x] rotated right by [n] in a word of [w] bits. *)
Definition rotate_right (w x n : Z) : Z :=
  Z_of_bits (Z.to_nat w) (fun i => Z.testbit x ((i + n) mod w)).

(** ** What the specification calls the padding suffix *)

(** Section 3, PaddingSuffix: the byte 0x80, then zero bytes, then the
    big-endian bit-length field, of 64 bits for the 512-bit block and of 128
    bits (the upper 64 of them zero) for the 1024-bit block. *)
Definition zero_bytes (BLK : SHA_BlockSize) (L : Z) : nat :=
  Z.to_nat
    (((SHA_Base.blockSizeBits BLK - 2 * SHA_Base.wordSizeBits BLK - (L + 8))
        mod SHA_Base.blockSizeBits BLK) / 8).

Definition length_field (BLK : SHA_BlockSize) (L : Z) : list Z :=
  match BLK with
  | BLOCK_512 => []
  | BLOCK_1024 => repeat 0 8
  end ++ map (fun i => (L / 2 ^ (8 * i)) mod 256) [7; 6; 5; 4; 3; 2; 1; 0].

Definition padding_suffix (BLK : SHA_BlockSize) (L : Z) : list Z :=
  0x80 :: repeat 0 (zero_bytes BLK L) ++ length_field BLK L.

(** ** Frames *)

(** What one turn of the block loop leaves of the engine: the message, the
    truncated digest and its flag are as before, and the hash state is an
    array of eight words again. *)
Definition same_frame (e e' : Engine) : Prop :=
  m_message e' = m_message e /\
  m_Hleft e' = m_Hleft e /\
  m_setDigest e' = m_setDigest e /\
  length (m_H e') = 8%nat.

(** A class that takes the block loop of the base engine for [T] and has
    [init] and [after] for the two virtual members. *)
Definition inheriting (T : WordType) (USE_ASSERT : bool) (init after : M unit) : Derived :=
  mkDerived init (SHA_2.prepMsgSchedule T USE_ASSERT) SHA_2.initWorkingVars
            (SHA_2.workingLoop T USE_ASSERT) (SHA_2.updateHash T) after.

(** ** Multiplication in GF(2)[X] modulo a polynomial *)

(** [a] times X, reduced: the word [a] shifted by one place, with the
    polynomial [modpoly] added when the bit pushed out is set. *)
Definition times_X (T : WordType) (a modpoly : Z) : Z :=
  Z.lxor (wrap T (Z.shiftl a 1)) (if Z.testbit a (width T - 1) then modpoly else 0).

(** The sum over the set bits [i < k] of [y] of [x] times X^i. *)
Fixpoint gf_mul (T : WordType) (k : nat) (x y modpoly : Z) : Z :=
  match k with
  | O => 0
  | S k' =>
      Z.lxor (if Z.testbit y 0 then x else 0)
             (gf_mul T k' (times_X T x modpoly) (Z.shiftr y 1) modpoly)
  end.

(** ** Arrays of an engine *)

(** The [std::array] members have their sizes: eight words of hash state
    and [n] words of truncated digest. *)
Definition well_formed (n : nat) (e : Engine) : Prop :=
  length (m_H e) = 8%nat /\ length (m_Hleft e) = n.

(** A member function that leaves the message buffer as it finds it,
    whatever its outcome. *)
Definition keeps_message {A : Type} (m : M A) : Prop :=
  forall e, m_message (snd (m e)) = m_message e.

(** * Properties *)

(** ** Bits of words *)

Lemma width_pos (T : WordType) : 0 < width T.
Proof. destruct T; reflexivity. Qed.

Lemma width_small (T : WordType) : width T <= 64.
Proof. destruct T; discriminate. Qed.

Lemma word_testbit_high (w x i : Z) :
  0 <= x < 2 ^ w -> 0 <= w <= i -> Z.testbit x i = false.
Proof.
  intros Hx Hi.
  rewrite <- (Z.mod_small x (2 ^ w)) by exact Hx.
  apply Z.mod_pow2_bits_high. lia.
Qed.

Lemma Z_of_bits_nonneg (w : nat) (b : Z -> bool) : 0 <= Z_of_bits w b.
Proof.
  induction w as [|w IH]; simpl; [lia|].
  destruct (b (Z.of_nat w)); [|exact IH].
  apply Z.bits_iff_nonneg_ex. apply Z.bits_iff_nonneg_ex in IH.
  destruct IH as [k Hk].
  exists (Z.max k (Z.of_nat w)). intros m Hm.
  rewrite Z.setbit_eqb by lia.
  rewrite Hk by lia.
  replace (Z.of_nat w =? m) with false by (symmetry; apply Z.eqb_neq; lia).
  reflexivity.
Qed.

Lemma Z_of_bits_spec (w : nat) (b : Z -> bool) (i : Z) :
  0 <= i ->
  Z.testbit (Z_of_bits w b) i = if i <? Z.of_nat w then b i else false.
Proof.
  intros Hi. induction w as [|w IH].
  - simpl. rewrite Z.bits_0. destruct (Z.ltb_spec i 0); [lia|reflexivity].
  - cbn [Z_of_bits].
    assert (Hset : Z.testbit (if b (Z.of_nat w)
                              then Z.setbit (Z_of_bits w b) (Z.of_nat w)
                              else Z_of_bits w b) i
                   = ((Z.of_nat w =? i) && b (Z.of_nat w))
                     || Z.testbit (Z_of_bits w b) i).
    { destruct (b (Z.of_nat w)).
      - rewrite Z.setbit_eqb by lia. now rewrite andb_true_r.
      - now rewrite andb_false_r. }
    rewrite Hset, IH.
    destruct (Z.eqb_spec (Z.of_nat w) i) as [Heq|Hne].
    + subst i. rewrite Z.ltb_irrefl.
      replace (Z.of_nat w <? Z.of_nat (S w)) with true
        by (symmetry; apply Z.ltb_lt; lia).
      now rewrite orb_false_r.
    + cbn [andb orb].
      destruct (Z.ltb_spec i (Z.of_nat w)), (Z.ltb_spec i (Z.of_nat (S w)));
        try reflexivity; lia.
Qed.

Lemma Z_of_bits_range (w : nat) (b : Z -> bool) :
  0 <= Z_of_bits w b < 2 ^ Z.of_nat w.
Proof.
  split; [apply Z_of_bits_nonneg|].
  destruct (Z.eq_dec (Z_of_bits w b) 0) as [->|Hnz].
  { apply Z.pow_pos_nonneg; lia. }
  assert (Hpos : 0 < Z_of_bits w b) by (pose proof (Z_of_bits_nonneg w b); lia).
  apply Z.log2_lt_pow2; [exact Hpos|].
  pose proof (Z.bit_log2 _ Hpos) as Hbit.
  rewrite Z_of_bits_spec in Hbit by apply Z.log2_nonneg.
  destruct (Z.ltb_spec (Z.log2 (Z_of_bits w b)) (Z.of_nat w)); [assumption|discriminate].
Qed.

(** The two rotations of the specification are words again and move the
    bits as said. *)
Lemma rotate_left_spec (w x n i : Z) :
  0 <= i < w -> Z.testbit (rotate_left w x n) i = Z.testbit x ((i - n) mod w).
Proof.
  intros Hi. unfold rotate_left.
  rewrite Z_of_bits_spec by lia.
  rewrite Z2Nat.id by lia.
  now replace (i <? w) with true by (symmetry; apply Z.ltb_lt; lia).
Qed.

Lemma rotate_right_spec (w x n i : Z) :
  0 <= i < w -> Z.testbit (rotate_right w x n) i = Z.testbit x ((i + n) mod w).
Proof.
  intros Hi. unfold rotate_right.
  rewrite Z_of_bits_spec by lia.
  rewrite Z2Nat.id by lia.
  now replace (i <? w) with true by (symmetry; apply Z.ltb_lt; lia).
Qed.

Lemma rotate_left_word (w x n : Z) : 0 <= w -> 0 <= rotate_left w x n < 2 ^ w.
Proof.
  intros Hw. unfold rotate_left.
  rewrite <- (Z2Nat.id w) at 3 by exact Hw. apply Z_of_bits_range.
Qed.

Lemma rotate_right_word (w x n : Z) : 0 <= w -> 0 <= rotate_right w x n < 2 ^ w.
Proof.
  intros Hw. unfold rotate_right.
  rewrite <- (Z2Nat.id w) at 3 by exact Hw. apply Z_of_bits_range.
Qed.

Lemma mod_below (a w : Z) : - w <= a < 0 -> a mod w = a + w.
Proof. intros H. symmetry. apply Z.mod_unique with (q := -1); lia. Qed.

Lemma mod_above (a w : Z) : w <= a < 2 * w -> a mod w = a - w.
Proof. intros H. symmetry. apply Z.mod_unique with (q := 1); lia. Qed.

Lemma rotl_formula (w x n : Z) :
  0 <= x < 2 ^ w -> 0 < n < w ->
  Z.lor (Z.shiftl x n mod 2 ^ w) (Z.shiftr x (w - n)) = rotate_left w x n.
Proof.
  intros Hx Hn. apply Z.bits_inj'. intros i Hi.
  rewrite Z.lor_spec, Z.shiftr_spec by exact Hi.
  destruct (Z.lt_ge_cases i w) as [Hlt|Hge].
  - rewrite Z.mod_pow2_bits_low, Z.shiftl_spec, rotate_left_spec by lia.
    destruct (Z.lt_ge_cases i n) as [Hin|Hin].
    + rewrite (Z.testbit_neg_r x (i - n)) by lia.
      rewrite mod_below by lia. cbn [orb]. f_equal. lia.
    + rewrite (word_testbit_high w x (i + (w - n))) by lia.
      rewrite Z.mod_small by lia. apply orb_false_r.
  - rewrite Z.mod_pow2_bits_high by lia.
    rewrite (word_testbit_high w x (i + (w - n))) by lia.
    symmetry. apply (word_testbit_high w); [apply rotate_left_word|]; lia.
Qed.

Lemma rotr_formula (w x n : Z) :
  0 <= x < 2 ^ w -> 0 < n < w ->
  Z.lor (Z.shiftr x n) (Z.shiftl x (w - n) mod 2 ^ w) = rotate_right w x n.
Proof.
  intros Hx Hn. apply Z.bits_inj'. intros i Hi.
  rewrite Z.lor_spec, Z.shiftr_spec by exact Hi.
  destruct (Z.lt_ge_cases i w) as [Hlt|Hge].
  - rewrite Z.mod_pow2_bits_low, Z.shiftl_spec, rotate_right_spec by lia.
    destruct (Z.lt_ge_cases (i + n) w) as [Hin|Hin].
    + rewrite (Z.testbit_neg_r x (i - (w - n))) by lia.
      rewrite Z.mod_small by lia. apply orb_false_r.
    + rewrite (word_testbit_high w x (i + n)) by lia.
      rewrite mod_above by lia. cbn [orb]. f_equal. lia.
  - rewrite Z.mod_pow2_bits_high by lia.
    rewrite (word_testbit_high w x (i + n)) by lia.
    symmetry. apply (word_testbit_high w); [apply rotate_right_word|]; lia.
Qed.

(** ** BitwiseINT: shifts and rotations *)

Lemma complement_count_small (T : WordType) (n : Z) :
  0 <= n <= width T -> BitwiseINT.complement_count T n = width T - n.
Proof.
  intros Hn. pose proof (width_small T) as Hw.
  unfold BitwiseINT.complement_count, to_unsigned_int, to_size_t.
  rewrite (Z.mod_small (width T - n)) by lia.
  apply Z.mod_small. lia.
Qed.

Lemma rotate_assert_passes (T : WordType) (ua : bool) (n : Z) :
  n <= width T -> BitwiseINT.rotate_assert T ua n = Value tt.
Proof.
  intros Hn. unfold BitwiseINT.rotate_assert.
  replace (n <=? width T) with true by (symmetry; apply Z.leb_le; exact Hn).
  now rewrite andb_false_r.
Qed.

Lemma SHL_defined (T : WordType) (x n : Z) :
  n < width T -> BitwiseINT.SHL T x n = Value (wrap T (Z.shiftl x n)).
Proof.
  intros Hn. unfold BitwiseINT.SHL.
  now replace (n <? width T) with true by (symmetry; apply Z.ltb_lt; exact Hn).
Qed.

Lemma SHR_defined (T : WordType) (x n : Z) :
  n < width T -> BitwiseINT.SHR T x n = Value (Z.shiftr x n).
Proof.
  intros Hn. unfold BitwiseINT.SHR.
  now replace (n <? width T) with true by (symmetry; apply Z.ltb_lt; exact Hn).
Qed.

Lemma ROTL_rotates (T : WordType) (ua : bool) (x n : Z) :
  is_word T x -> 0 < n < width T ->
  BitwiseINT.ROTL T ua x n = Value (rotate_left (width T) x n).
Proof.
  intros Hx Hn. unfold BitwiseINT.ROTL.
  rewrite rotate_assert_passes, SHL_defined, complement_count_small by lia.
  rewrite SHR_defined by lia. cbn [bind].
  unfold BitwiseINT.OR, wrap. now rewrite rotl_formula.
Qed.

Lemma ROTR_rotates (T : WordType) (ua : bool) (x n : Z) :
  is_word T x -> 0 < n < width T ->
  BitwiseINT.ROTR T ua x n = Value (rotate_right (width T) x n).
Proof.
  intros Hx Hn. unfold BitwiseINT.ROTR.
  rewrite rotate_assert_passes, SHR_defined, complement_count_small by lia.
  rewrite SHL_defined by lia. cbn [bind].
  unfold BitwiseINT.OR, wrap. now rewrite rotr_formula.
Qed.

Lemma ROTL_assertion (T : WordType) (x n : Z) :
  BitwiseINT.ROTL T true x n = AssertionFailure <-> width T < n.
Proof.
  unfold BitwiseINT.ROTL, BitwiseINT.rotate_assert. cbn [andb].
  destruct (Z.leb_spec n (width T)) as [Hle|Hgt]; cbn [negb bind].
  - split; [|lia]. unfold BitwiseINT.SHL, BitwiseINT.SHR.
    destruct (n <? width T); cbn [bind]; try discriminate.
    destruct (_ <? width T); cbn [bind]; discriminate.
  - split; [intros _; exact Hgt|reflexivity].
Qed.

Lemma ROTR_assertion (T : WordType) (x n : Z) :
  BitwiseINT.ROTR T true x n = AssertionFailure <-> width T < n.
Proof.
  unfold BitwiseINT.ROTR, BitwiseINT.rotate_assert. cbn [andb].
  destruct (Z.leb_spec n (width T)) as [Hle|Hgt]; cbn [negb bind].
  - split; [|lia]. unfold BitwiseINT.SHL, BitwiseINT.SHR.
    destruct (n <? width T); cbn [bind]; try discriminate.
    destruct (_ <? width T); cbn [bind]; discriminate.
  - split; [intros _; exact Hgt|reflexivity].
Qed.

(** The same two formulas hold at both ends of the range of amounts, where
    one of the two shifts moves nothing and the other moves everything
    out. *)
Lemma rotl_formula_closed (w x n : Z) :
  0 <= x < 2 ^ w -> 0 <= n <= w ->
  Z.lor (Z.shiftl x n mod 2 ^ w) (Z.shiftr x (w - n)) = rotate_left w x n.
Proof.
  intros Hx Hn. apply Z.bits_inj'. intros i Hi.
  rewrite Z.lor_spec, Z.shiftr_spec by exact Hi.
  destruct (Z.lt_ge_cases i w) as [Hlt|Hge].
  - rewrite Z.mod_pow2_bits_low, Z.shiftl_spec, rotate_left_spec by lia.
    destruct (Z.lt_ge_cases i n) as [Hin|Hin].
    + rewrite (Z.testbit_neg_r x (i - n)) by lia.
      rewrite mod_below by lia. cbn [orb]. f_equal. lia.
    + rewrite (word_testbit_high w x (i + (w - n))) by lia.
      rewrite Z.mod_small by lia. apply orb_false_r.
  - rewrite Z.mod_pow2_bits_high by lia.
    rewrite (word_testbit_high w x (i + (w - n))) by lia.
    symmetry. apply (word_testbit_high w); [apply rotate_left_word|]; lia.
Qed.

Lemma rotr_formula_closed (w x n : Z) :
  0 <= x < 2 ^ w -> 0 <= n <= w ->
  Z.lor (Z.shiftr x n) (Z.shiftl x (w - n) mod 2 ^ w) = rotate_right w x n.
Proof.
  intros Hx Hn. apply Z.bits_inj'. intros i Hi.
  rewrite Z.lor_spec, Z.shiftr_spec by exact Hi.
  destruct (Z.lt_ge_cases i w) as [Hlt|Hge].
  - rewrite Z.mod_pow2_bits_low, Z.shiftl_spec, rotate_right_spec by lia.
    destruct (Z.lt_ge_cases (i + n) w) as [Hin|Hin].
    + rewrite (Z.testbit_neg_r x (i - (w - n))) by lia.
      rewrite Z.mod_small by lia. apply orb_false_r.
    + rewrite (word_testbit_high w x (i + n)) by lia.
      rewrite mod_above by lia. cbn [orb]. f_equal. lia.
  - rewrite Z.mod_pow2_bits_high by lia.
    rewrite (word_testbit_high w x (i + n)) by lia.
    symmetry. apply (word_testbit_high w); [apply rotate_right_word|]; lia.
Qed.

(** ** BitwiseINT with [uint8_t]: shifts and rotations *)

(** A byte shifted left by at most its width is a value of [int]. *)
Lemma uint8_SHL_defined (x n : Z) :
  0 <= x < 2 ^ BitwiseINT_uint8.width -> 0 <= n <= BitwiseINT_uint8.width ->
  BitwiseINT_uint8.SHL x n = Value (Z.shiftl x n mod 2 ^ 8).
Proof.
  change BitwiseINT_uint8.width with 8. intros Hx Hn.
  unfold BitwiseINT_uint8.SHL, BitwiseINT_uint8.to_uint8.
  change BitwiseINT_uint8.int_width with 32. change BitwiseINT_uint8.width with 8.
  replace (n <? 32) with true by (symmetry; apply Z.ltb_lt; lia).
  replace (Z.shiftl x n <? 2 ^ (32 - 1)) with true; [reflexivity|].
  symmetry. apply Z.ltb_lt. rewrite Z.shiftl_mul_pow2 by lia.
  assert (H : 2 ^ n <= 2 ^ 8) by (apply Z.pow_le_mono_r; lia).
  assert (H0 : 0 < 2 ^ n) by (apply Z.pow_pos_nonneg; lia).
  change (2 ^ 8) with 256 in *. change (2 ^ (32 - 1)) with 2147483648. nia.
Qed.

Lemma uint8_SHR_defined (x n : Z) :
  0 <= x < 2 ^ BitwiseINT_uint8.width -> 0 <= n <= BitwiseINT_uint8.width ->
  BitwiseINT_uint8.SHR x n = Value (Z.shiftr x n).
Proof.
  change BitwiseINT_uint8.width with 8. intros Hx Hn.
  unfold BitwiseINT_uint8.SHR, BitwiseINT_uint8.to_uint8.
  change BitwiseINT_uint8.int_width with 32. change BitwiseINT_uint8.width with 8.
  replace (n <? 32) with true by (symmetry; apply Z.ltb_lt; lia).
  f_equal. apply Z.mod_small.
  rewrite Z.shiftr_div_pow2 by lia.
  assert (H0 : 0 < 2 ^ n) by (apply Z.pow_pos_nonneg; lia).
  split; [apply Z.div_pos; lia|].
  apply Z.le_lt_trans with x; [|lia].
  apply Z.div_le_upper_bound; [lia|]. nia.
Qed.

Lemma uint8_complement_count (n : Z) :
  0 <= n <= BitwiseINT_uint8.width ->
  BitwiseINT_uint8.complement_count n = 8 - n.
Proof.
  change BitwiseINT_uint8.width with 8. intros Hn.
  unfold BitwiseINT_uint8.complement_count, to_unsigned_int, to_size_t.
  change BitwiseINT_uint8.width with 8.
  rewrite (Z.mod_small (8 - n)) by lia.
  apply Z.mod_small. lia.
Qed.

Lemma uint8_rotate_assert_passes (ua : bool) (n : Z) :
  n <= BitwiseINT_uint8.width -> BitwiseINT_uint8.rotate_assert ua n = Value tt.
Proof.
  intros Hn. unfold BitwiseINT_uint8.rotate_assert.
  replace (n <=? BitwiseINT_uint8.width) with true
    by (symmetry; apply Z.leb_le; exact Hn).
  now rewrite andb_false_r.
Qed.

Lemma uint8_ROTL_rotates (ua : bool) (x n : Z) :
  0 <= x < 2 ^ BitwiseINT_uint8.width -> 0 <= n <= BitwiseINT_uint8.width ->
  BitwiseINT_uint8.ROTL ua x n = Value (rotate_left BitwiseINT_uint8.width x n).
Proof.
  intros Hx Hn. unfold BitwiseINT_uint8.ROTL.
  rewrite uint8_rotate_assert_passes by lia.
  rewrite uint8_SHL_defined by assumption.
  rewrite uint8_complement_count by assumption.
  change BitwiseINT_uint8.width with 8 in *.
  rewrite uint8_SHR_defined by (change BitwiseINT_uint8.width with 8; lia).
  cbn [bind]. unfold BitwiseINT_uint8.OR, BitwiseINT_uint8.to_uint8.
  change BitwiseINT_uint8.width with 8.
  rewrite rotl_formula_closed by assumption.
  f_equal. apply Z.mod_small. apply rotate_left_word. lia.
Qed.

Lemma uint8_ROTR_rotates (ua : bool) (x n : Z) :
  0 <= x < 2 ^ BitwiseINT_uint8.width -> 0 <= n <= BitwiseINT_uint8.width ->
  BitwiseINT_uint8.ROTR ua x n = Value (rotate_right BitwiseINT_uint8.width x n).
Proof.
  intros Hx Hn. unfold BitwiseINT_uint8.ROTR.
  rewrite uint8_rotate_assert_passes by lia.
  rewrite uint8_SHR_defined by assumption.
  rewrite uint8_complement_count by assumption.
  change BitwiseINT_uint8.width with 8 in *.
  rewrite uint8_SHL_defined by (change BitwiseINT_uint8.width with 8; lia).
  cbn [bind]. unfold BitwiseINT_uint8.OR, BitwiseINT_uint8.to_uint8.
  change BitwiseINT_uint8.width with 8.
  rewrite rotr_formula_closed by assumption.
  f_equal. apply Z.mod_small. apply rotate_right_word. lia.
Qed.

Lemma uint8_ROTL_assertion (x n : Z) :
  BitwiseINT_uint8.ROTL true x n = AssertionFailure <-> BitwiseINT_uint8.width < n.
Proof.
  unfold BitwiseINT_uint8.ROTL, BitwiseINT_uint8.rotate_assert. cbn [andb].
  destruct (Z.leb_spec n BitwiseINT_uint8.width) as [Hle|Hgt]; cbn [negb bind].
  - split; [|lia]. unfold BitwiseINT_uint8.SHL, BitwiseINT_uint8.SHR.
    destruct (n <? _); cbn [bind]; try discriminate.
    destruct (_ <? 2 ^ _); cbn [bind]; try discriminate.
    destruct (_ <? _); cbn [bind]; discriminate.
  - split; [intros _; exact Hgt|reflexivity].
Qed.

Lemma uint8_ROTR_assertion (x n : Z) :
  BitwiseINT_uint8.ROTR true x n = AssertionFailure <-> BitwiseINT_uint8.width < n.
Proof.
  unfold BitwiseINT_uint8.ROTR, BitwiseINT_uint8.rotate_assert. cbn [andb].
  destruct (Z.leb_spec n BitwiseINT_uint8.width) as [Hle|Hgt]; cbn [negb bind].
  - split; [|lia]. unfold BitwiseINT_uint8.SHL, BitwiseINT_uint8.SHR.
    destruct (n <? _); cbn [bind]; try discriminate.
    destruct (_ <? BitwiseINT_uint8.int_width); cbn [bind]; try discriminate.
    destruct (_ <? _); cbn [bind]; discriminate.
  - split; [intros _; exact Hgt|reflexivity].
Qed.

(** C4, as amended.  [ROTL] and [ROTR] return the word [x] rotated left and
    right by [n] bits, with or without [USE_ASSERT]: on the 32- and 64-bit
    backends for every amount [n] with [0 < n < width], and on the 8-bit
    backend, whose shifts work on the promoted [int], for every amount
    [n] with [0 <= n <= width], all of [[0, width)] among them.  With
    [USE_ASSERT] the assertion of either function fails, on each of the
    three backends, exactly for the amounts above the width: the amount
    equal to the width passes it. *)
Theorem rotate_contract (T : WordType) (ua : bool) (x n : Z) :
  (is_word T x -> 0 < n < width T ->
     BitwiseINT.ROTL T ua x n = Value (rotate_left (width T) x n) /\
     BitwiseINT.ROTR T ua x n = Value (rotate_right (width T) x n)) /\
  (0 <= x < 2 ^ BitwiseINT_uint8.width -> 0 <= n <= BitwiseINT_uint8.width ->
     BitwiseINT_uint8.ROTL ua x n = Value (rotate_left BitwiseINT_uint8.width x n) /\
     BitwiseINT_uint8.ROTR ua x n = Value (rotate_right BitwiseINT_uint8.width x n)) /\
  (BitwiseINT.ROTL T true x n = AssertionFailure <-> width T < n) /\
  (BitwiseINT.ROTR T true x n = AssertionFailure <-> width T < n) /\
  (BitwiseINT_uint8.ROTL true x n = AssertionFailure <-> BitwiseINT_uint8.width < n) /\
  (BitwiseINT_uint8.ROTR true x n = AssertionFailure <-> BitwiseINT_uint8.width < n).
Proof.
  split; [|split; [|split; [|split; [|split]]]].
  - intros Hx Hn. split; [apply ROTL_rotates|apply ROTR_rotates]; assumption.
  - intros Hx Hn. split; [apply uint8_ROTL_rotates|apply uint8_ROTR_rotates]; assumption.
  - apply ROTL_assertion.
  - apply ROTR_assertion.
  - apply uint8_ROTL_assertion.
  - apply uint8_ROTR_assertion.
Qed.

Lemma rotate_contract_witness :
  (is_word uint32_t 0x80000001 /\
   0 < 4 < width uint32_t /\
   BitwiseINT.ROTL uint32_t true 0x80000001 4 = Value 0x00000018 /\
   BitwiseINT.ROTR uint32_t true 0x80000001 4 = Value 0x18000000) /\
  (0 <= 0x81 < 2 ^ BitwiseINT_uint8.width /\
   0 <= 0 <= BitwiseINT_uint8.width /\
   BitwiseINT_uint8.ROTL false 0x81 0 = Value 0x81 /\
   BitwiseINT_uint8.ROTR false 0x81 0 = Value 0x81) /\
  (0 <= 0x81 < 2 ^ BitwiseINT_uint8.width /\
   0 <= 3 <= BitwiseINT_uint8.width /\
   BitwiseINT_uint8.ROTL true 0x81 3 = Value 0x0c /\
   BitwiseINT_uint8.ROTR true 0x81 3 = Value 0x30).
Proof.
  assert (Hx : is_word uint32_t 0x80000001) by (vm_compute; split; [discriminate|reflexivity]).
  assert (Hn : 0 < 4 < width uint32_t) by (vm_compute; split; reflexivity).
  assert (Hb : 0 <= 0x81 < 2 ^ BitwiseINT_uint8.width)
    by (vm_compute; split; [discriminate|reflexivity]).
  assert (H0 : 0 <= 0 <= BitwiseINT_uint8.width) by (vm_compute; split; discriminate).
  assert (H3 : 0 <= 3 <= BitwiseINT_uint8.width) by (vm_compute; split; discriminate).
  split; [|split].
  - split; [exact Hx|]. split; [exact Hn|].
    exact (proj1 (rotate_contract uint32_t true 0x80000001 4) Hx Hn).
  - split; [exact Hb|]. split; [exact H0|].
    exact (proj1 (proj2 (rotate_contract uint32_t false 0x81 0)) Hb H0).
  - split; [exact Hb|]. split; [exact H3|].
    exact (proj1 (proj2 (rotate_contract uint32_t true 0x81 3)) Hb H3).
Defined.

(** C4, as stated, fails twice.  On the 32-bit backend the amount 0 lies in
    [[0, width)], yet [ROTL] then shifts right by the full width, which C++
    leaves undefined, so that no rotated word is returned; and the amount
    equal to the width lies outside [[0, width)], yet the assertion lets it
    pass, on the 32-bit backend as on the 8-bit one. *)
Lemma rotate_contract_counterexample :
  (0 <= 0 < width uint32_t /\
   BitwiseINT.ROTL uint32_t false 1 0 = Undefined /\
   BitwiseINT.ROTL uint32_t false 1 0 <> Value (rotate_left (width uint32_t) 1 0)) /\
  (~ 0 <= 32 < width uint32_t /\
   BitwiseINT.ROTL uint32_t true 1 32 <> AssertionFailure /\
   BitwiseINT.ROTR uint32_t true 1 32 <> AssertionFailure) /\
  (~ 0 <= 8 < BitwiseINT_uint8.width /\
   BitwiseINT_uint8.ROTL true 1 8 = Value 1 /\
   BitwiseINT_uint8.ROTR true 1 8 = Value 1).
Proof.
  split; [split; [|split]|split; [split; [|split]|split; [|split]]].
  - vm_compute. split; [discriminate|reflexivity].
  - reflexivity.
  - vm_compute. discriminate.
  - vm_compute. intros [_ H]. discriminate H.
  - vm_compute. discriminate.
  - vm_compute. discriminate.
  - vm_compute. intros [_ H]. discriminate H.
  - reflexivity.
  - reflexivity.
Qed.

(** ** SHA_Functions *)

Ltac amount_in_range :=
  match goal with
  | |- is_word _ _ => assumption
  | |- _ < _ < width _ => vm_compute; split; reflexivity
  | |- _ < width _ => reflexivity
  end.

Lemma SIGMA_value (T : WordType) (ua : bool) (x a b c : Z) :
  is_word T x -> 0 < a < width T -> 0 < b < width T -> 0 < c < width T ->
  SHA_Functions.SIGMA T ua x a b c
  = Value (Z.lxor (Z.lxor (rotate_right (width T) x a) (rotate_right (width T) x b))
                  (rotate_right (width T) x c)).
Proof.
  intros Hx Ha Hb Hc. unfold SHA_Functions.SIGMA, BitwiseINT._ROTR.
  now rewrite !ROTR_rotates by assumption.
Qed.

Lemma sigma_value (T : WordType) (ua : bool) (x a b c : Z) :
  is_word T x -> 0 < a < width T -> 0 < b < width T -> c < width T ->
  SHA_Functions.sigma T ua x a b c
  = Value (Z.lxor (Z.lxor (rotate_right (width T) x a) (rotate_right (width T) x b))
                  (Z.shiftr x c)).
Proof.
  intros Hx Ha Hb Hc. unfold SHA_Functions.sigma, BitwiseINT._ROTR, BitwiseINT._SHR.
  now rewrite !ROTR_rotates, SHR_defined by assumption.
Qed.

(** C7.  On a 32-bit word the four functions of the 256 family are the
    exclusive or of the right rotations by (2,13,22) and (6,11,25), and of
    the right rotations by (7,18) and (17,19) with the right shifts by 3 and
    10; on a 64-bit word those of the 512 family use (28,34,39), (14,18,41),
    (1,8) with a shift by 7 and (19,61) with a shift by 6. *)
Theorem SIGMA_amounts (ua : bool) (x y : Z) :
  is_word uint32_t x -> is_word uint64_t y ->
  let R := rotate_right 32 x in
  let Q := rotate_right 64 y in
  SHA_Functions.SIGMA_256_0 uint32_t ua x = Value (Z.lxor (Z.lxor (R 2) (R 13)) (R 22)) /\
  SHA_Functions.SIGMA_256_1 uint32_t ua x = Value (Z.lxor (Z.lxor (R 6) (R 11)) (R 25)) /\
  SHA_Functions.sigma_256_0 uint32_t ua x = Value (Z.lxor (Z.lxor (R 7) (R 18)) (Z.shiftr x 3)) /\
  SHA_Functions.sigma_256_1 uint32_t ua x = Value (Z.lxor (Z.lxor (R 17) (R 19)) (Z.shiftr x 10)) /\
  SHA_Functions.SIGMA_512_0 uint64_t ua y = Value (Z.lxor (Z.lxor (Q 28) (Q 34)) (Q 39)) /\
  SHA_Functions.SIGMA_512_1 uint64_t ua y = Value (Z.lxor (Z.lxor (Q 14) (Q 18)) (Q 41)) /\
  SHA_Functions.sigma_512_0 uint64_t ua y = Value (Z.lxor (Z.lxor (Q 1) (Q 8)) (Z.shiftr y 7)) /\
  SHA_Functions.sigma_512_1 uint64_t ua y = Value (Z.lxor (Z.lxor (Q 19) (Q 61)) (Z.shiftr y 6)).
Proof.
  intros Hx Hy R Q. subst R Q.
  repeat split;
    (apply (SIGMA_value uint32_t) || apply (sigma_value uint32_t)
     || apply (SIGMA_value uint64_t) || apply (sigma_value uint64_t));
    amount_in_range.
Qed.

Lemma SIGMA_amounts_witness :
  is_word uint32_t 0x6a09e667 /\ is_word uint64_t 0x6a09e667f3bcc908 /\
  SHA_Functions.SIGMA_256_0 uint32_t true 0x6a09e667 = Value 0xce20b47e /\
  SHA_Functions.sigma_512_1 uint64_t true 0x6a09e667f3bcc908
  = Value (Z.lxor (Z.lxor (rotate_right 64 0x6a09e667f3bcc908 19)
                          (rotate_right 64 0x6a09e667f3bcc908 61))
                  (Z.shiftr 0x6a09e667f3bcc908 6)).
Proof.
  assert (Hx : is_word uint32_t 0x6a09e667) by (vm_compute; split; [discriminate|reflexivity]).
  assert (Hy : is_word uint64_t 0x6a09e667f3bcc908) by (vm_compute; split; [discriminate|reflexivity]).
  split; [exact Hx|]. split; [exact Hy|].
  pose proof (SIGMA_amounts true _ _ Hx Hy) as H. cbv zeta in H.
  split; [exact (proj1 H)|].
  exact (proj2 (proj2 (proj2 (proj2 (proj2 (proj2 (proj2 H))))))).
Defined.

Lemma Maj_diag (x z : Z) : SHA_Functions.Maj x x z = x.
Proof.
  unfold SHA_Functions.Maj, BitwiseINT._XOR, BitwiseINT.XOR,
    BitwiseINT._AND, BitwiseINT.AND.
  rewrite Z.land_diag, Z.lxor_assoc, Z.lxor_nilpotent. apply Z.lxor_0_r.
Qed.

Lemma Ch_diag (T : WordType) (x y : Z) :
  is_word T y -> SHA_Functions.Ch T x y y = y.
Proof.
  intros Hy. pose proof (width_pos T) as Hw.
  unfold SHA_Functions.Ch, BitwiseINT.XOR, BitwiseINT._AND, BitwiseINT.AND,
    BitwiseINT._CMPLMNT, BitwiseINT.CMPLMNT, wrap.
  apply Z.bits_inj'. intros i Hi.
  rewrite Z.lxor_spec, !Z.land_spec.
  destruct (Z.lt_ge_cases i (width T)) as [Hlt|Hge].
  - rewrite Z.mod_pow2_bits_low, Z.lnot_spec by lia.
    destruct (Z.testbit x i), (Z.testbit y i); reflexivity.
  - rewrite (word_testbit_high (width T) y i) by (assumption || lia).
    now rewrite !andb_false_r.
Qed.

(** C8.  On the integer backend [Maj(x, x, z)] is [x] for all [x] and [z],
    and [Ch(x, y, y)] is [y] for every [x] and every word [y]. *)
Theorem Maj_Ch_identities (T : WordType) (x y z : Z) :
  is_word T y ->
  SHA_Functions.Maj x x z = x /\ SHA_Functions.Ch T x y y = y.
Proof.
  intros Hy. split; [apply Maj_diag|apply Ch_diag; exact Hy].
Qed.

Lemma Maj_Ch_identities_witness :
  is_word uint32_t 0xdeadbeef /\
  SHA_Functions.Maj 0x12345678 0x12345678 0xffff0000 = 0x12345678 /\
  SHA_Functions.Ch uint32_t 0x12345678 0xdeadbeef 0xdeadbeef = 0xdeadbeef.
Proof.
  assert (Hy : is_word uint32_t 0xdeadbeef) by (vm_compute; split; [discriminate|reflexivity]).
  split; [exact Hy|].
  exact (Maj_Ch_identities uint32_t 0x12345678 0xdeadbeef 0xffff0000 Hy).
Defined.

(** C6.  For a round index below 80 the round selector of SHA-1 is [Ch] in
    rounds 0 to 19, [Parity] in rounds 20 to 39, [Maj] in rounds 40 to 59 and
    [Parity] in rounds 60 to 79. *)
Theorem f_round_selector (T : WordType) (x y z round : Z) :
  0 <= round < 80 ->
  (0 <= round <= 19 -> SHA_Functions.f T x y z round = SHA_Functions.Ch T x y z) /\
  (20 <= round <= 39 -> SHA_Functions.f T x y z round = SHA_Functions.Parity x y z) /\
  (40 <= round <= 59 -> SHA_Functions.f T x y z round = SHA_Functions.Maj x y z) /\
  (60 <= round <= 79 -> SHA_Functions.f T x y z round = SHA_Functions.Parity x y z).
Proof.
  intros Hr. unfold SHA_Functions.f.
  destruct (Z.ltb_spec round 20), (Z.ltb_spec round 40), (Z.ltb_spec round 60);
    repeat split; intros; solve [reflexivity | lia].
Qed.

Lemma f_round_selector_witness :
  (0 <= 19 < 80 /\
   SHA_Functions.f uint32_t 0xf0f0 0xff00 0x00ff 19 = SHA_Functions.Ch uint32_t 0xf0f0 0xff00 0x00ff) /\
  (0 <= 20 < 80 /\
   SHA_Functions.f uint32_t 0xf0f0 0xff00 0x00ff 20 = SHA_Functions.Parity 0xf0f0 0xff00 0x00ff) /\
  (0 <= 40 < 80 /\
   SHA_Functions.f uint32_t 0xf0f0 0xff00 0x00ff 40 = SHA_Functions.Maj 0xf0f0 0xff00 0x00ff) /\
  (0 <= 79 < 80 /\
   SHA_Functions.f uint32_t 0xf0f0 0xff00 0x00ff 79 = SHA_Functions.Parity 0xf0f0 0xff00 0x00ff).
Proof.
  assert (H19 : 0 <= 19 < 80) by lia.
  assert (H20 : 0 <= 20 < 80) by lia.
  assert (H40 : 0 <= 40 < 80) by lia.
  assert (H79 : 0 <= 79 < 80) by lia.
  pose proof (f_round_selector uint32_t 0xf0f0 0xff00 0x00ff 19 H19) as S19.
  pose proof (f_round_selector uint32_t 0xf0f0 0xff00 0x00ff 20 H20) as S20.
  pose proof (f_round_selector uint32_t 0xf0f0 0xff00 0x00ff 40 H40) as S40.
  pose proof (f_round_selector uint32_t 0xf0f0 0xff00 0x00ff 79 H79) as S79.
  split; [split; [exact H19|]|split; [split; [exact H20|]|split; [split; [exact H40|]|split; [exact H79|]]]].
  - apply (proj1 S19). lia.
  - apply (proj1 (proj2 S20)). lia.
  - apply (proj1 (proj2 (proj2 S40))). lia.
  - apply (proj2 (proj2 (proj2 S79))). lia.
Defined.

(** ** Padding *)

Lemma two_64 : 2 ^ 64 = 18446744073709551616.
Proof. reflexivity. Qed.

Lemma stopPadBits_value (BLK : SHA_BlockSize) :
  to_size_t (SHA_Base.blockSizeBits BLK - 2 * SHA_Base.wordSizeBits BLK)
  = SHA_Base.blockSizeBits BLK - 2 * SHA_Base.wordSizeBits BLK.
Proof. destruct BLK; reflexivity. Qed.

Lemma append_zero (st : list Z * Z) :
  SHA_Base.append st 0x00 = (fst st ++ [0], to_size_t (snd st + 8)).
Proof. reflexivity. Qed.

(** The zero-padding loop on a byte-aligned counter: it ends after as many
    steps as there are eights between the counter and the stop residue. *)
Lemma zero_pad_loop_aligned (BLK : SHA_BlockSize) (k : nat) :
  forall (fuel : nat) (os : list Z) (len : Z),
    (k <= fuel)%nat ->
    0 <= len < 2 ^ 64 ->
    (SHA_Base.blockSizeBits BLK - 2 * SHA_Base.wordSizeBits BLK - len)
      mod SHA_Base.blockSizeBits BLK = 8 * Z.of_nat k ->
    SHA_Base.zero_pad_loop BLK fuel
      (SHA_Base.blockSizeBits BLK - 2 * SHA_Base.wordSizeBits BLK) (os, len)
    = Value (os ++ repeat 0 k, to_size_t (len + 8 * Z.of_nat k)).
Proof.
  induction k as [|k IH]; intros fuel os len Hfuel Hlen Hres.
  - assert (Hstop : SHA_Base.blockSizeBits BLK - 2 * SHA_Base.wordSizeBits BLK
                    = len mod SHA_Base.blockSizeBits BLK).
    { destruct BLK; cbn [SHA_Base.blockSizeBits SHA_Base.wordSizeBits] in *;
        rewrite two_64 in Hlen; apply Z.mod_divide in Hres; try lia;
        destruct Hres as [q Hq]; Z.div_mod_to_equations; lia. }
    destruct fuel; cbn [SHA_Base.zero_pad_loop snd];
      rewrite <- Hstop, Z.eqb_refl; cbn [negb];
      rewrite app_nil_r; unfold to_size_t;
      (rewrite Z.mod_small by lia); do 2 f_equal; lia.
  - destruct fuel as [|fuel]; [lia|].
    assert (Hne : SHA_Base.blockSizeBits BLK - 2 * SHA_Base.wordSizeBits BLK
                  <> len mod SHA_Base.blockSizeBits BLK).
    { destruct BLK; cbn [SHA_Base.blockSizeBits SHA_Base.wordSizeBits] in *;
        rewrite two_64 in Hlen; Z.div_mod_to_equations; lia. }
    cbn [SHA_Base.zero_pad_loop snd].
    apply Z.eqb_neq in Hne. rewrite Hne. cbn [negb].
    rewrite append_zero. cbn [fst snd].
    rewrite IH.
    + rewrite <- app_assoc. cbn [app repeat]. unfold to_size_t.
      rewrite Z.add_mod_idemp_l by (rewrite two_64; lia).
      do 2 f_equal. f_equal. lia.
    + lia.
    + unfold to_size_t. apply Z.mod_pos_bound. rewrite two_64. lia.
    + unfold to_size_t. rewrite two_64 in *.
      destruct BLK; cbn [SHA_Base.blockSizeBits SHA_Base.wordSizeBits] in *;
        Z.div_mod_to_equations; lia.
Qed.

(** On a counter that is not a multiple of eight the loop condition holds
    at every step. *)
Lemma zero_pad_loop_unaligned (BLK : SHA_BlockSize) (fuel : nat) :
  forall (os : list Z) (len : Z),
    len mod 8 <> 0 ->
    SHA_Base.zero_pad_loop BLK fuel
      (SHA_Base.blockSizeBits BLK - 2 * SHA_Base.wordSizeBits BLK) (os, len)
    = Unfinished.
Proof.
  induction fuel as [|fuel IH]; intros os len Hlen;
    assert (Hne : SHA_Base.blockSizeBits BLK - 2 * SHA_Base.wordSizeBits BLK
                  <> len mod SHA_Base.blockSizeBits BLK)
      by (destruct BLK; cbn [SHA_Base.blockSizeBits SHA_Base.wordSizeBits];
          Z.div_mod_to_equations; lia);
    apply Z.eqb_neq in Hne; cbn [SHA_Base.zero_pad_loop snd]; rewrite Hne;
    cbn [negb]; [reflexivity|].
  rewrite append_zero. cbn [fst snd]. apply IH.
  unfold to_size_t. rewrite two_64. Z.div_mod_to_equations. lia.
Qed.

Lemma to_size_t_add (a b : Z) : to_size_t (to_size_t a + b) = to_size_t (a + b).
Proof. unfold to_size_t. apply Z.add_mod_idemp_l. rewrite two_64. lia. Qed.

Ltac size_t_norm :=
  repeat (rewrite <- ?Z.add_assoc; rewrite to_size_t_add);
  rewrite <- ?Z.add_assoc.

Lemma high_length_field_eq (st : list Z * Z) :
  SHA_Base.high_length_field st = (fst st ++ repeat 0 8, to_size_t (snd st + 64)).
Proof.
  destruct st as [os len]. unfold SHA_Base.high_length_field.
  cbn [seq fold_left]. rewrite !append_zero. cbn [fst snd].
  rewrite <- !app_assoc. cbn [app repeat]. size_t_norm.
  do 2 f_equal.
Qed.

Lemma length_byte (L i : Z) :
  0 <= L < 2 ^ 64 -> 0 <= i ->
  to_byte (Z.land (Z.shiftr (to_uint64 L) (i * CHAR_BIT)) 0xff)
  = (L / 2 ^ (8 * i)) mod 256.
Proof.
  intros HL Hi. unfold to_byte, to_uint64, CHAR_BIT.
  rewrite (Z.mod_small L) by exact HL.
  rewrite Z.shiftr_div_pow2 by lia.
  change 0xff with (Z.ones 8). rewrite Z.land_ones by lia.
  change (2 ^ 8) with 256. rewrite Z.mod_mod by lia.
  do 3 f_equal. lia.
Qed.

Lemma low_length_field_eq (L : Z) (st : list Z * Z) :
  0 <= L < 2 ^ 64 ->
  SHA_Base.low_length_field (to_uint64 L) st
  = (fst st ++ map (fun i => (L / 2 ^ (8 * i)) mod 256) [7; 6; 5; 4; 3; 2; 1; 0],
     to_size_t (snd st + 64)).
Proof.
  intros HL. destruct st as [os len]. unfold SHA_Base.low_length_field.
  cbn [fold_left]. unfold SHA_Base.append. cbn [fst snd map].
  rewrite !length_byte by (assumption || lia).
  rewrite <- !app_assoc. cbn [app]. unfold CHAR_BIT. size_t_norm.
  do 2 f_equal.
Qed.

Lemma zero_bytes_bound (BLK : SHA_BlockSize) (L : Z) : (zero_bytes BLK L < 128)%nat.
Proof.
  unfold zero_bytes.
  destruct BLK; cbn [SHA_Base.blockSizeBits SHA_Base.wordSizeBits];
    apply Nat2Z.inj_lt; rewrite Z2Nat.id by (Z.div_mod_to_equations; lia);
    Z.div_mod_to_equations; lia.
Qed.

Lemma length_padding_suffix (BLK : SHA_BlockSize) (L : Z) :
  Z.of_nat (length (padding_suffix BLK L))
  = 1 + Z.of_nat (zero_bytes BLK L) + SHA_Base.wordSizeBits BLK / 4.
Proof.
  unfold padding_suffix, length_field. cbn [length].
  rewrite !length_app, repeat_length.
  destruct BLK; cbn [length repeat map app SHA_Base.wordSizeBits];
    change (32 / 4) with 8; change (64 / 4) with 16; lia.
Qed.

(** What [padMessage] writes and counts for a byte-aligned length. *)
Lemma padMessage_aligned (BLK : SHA_BlockSize) (fuel : nat) (os : list Z) (L : Z) :
  0 <= L < 2 ^ 64 -> L mod 8 = 0 -> (128 <= fuel)%nat ->
  SHA_Base.padMessage BLK fuel os L
  = Value (os ++ padding_suffix BLK L,
           to_size_t (L + 8 * Z.of_nat (length (padding_suffix BLK L)))).
Proof.
  intros HL Hal Hfuel. pose proof (zero_bytes_bound BLK L) as Hk.
  unfold SHA_Base.padMessage. cbv zeta. rewrite stopPadBits_value.
  change (SHA_Base.append (os, L) 0x80) with (os ++ [0x80], to_size_t (L + 8)).
  rewrite (zero_pad_loop_aligned BLK (zero_bytes BLK L)).
  - cbn [bind]. rewrite length_padding_suffix.
    unfold padding_suffix, length_field.
    destruct BLK; cbn [SHA_Base.wordSizeBits].
    + rewrite low_length_field_eq by exact HL. cbn [fst snd].
      rewrite <- !app_assoc. cbn [app]. size_t_norm.
      do 3 f_equal. change (32 / 4) with 8. lia.
    + rewrite low_length_field_eq by exact HL.
      rewrite high_length_field_eq. cbn [fst snd].
      rewrite <- !app_assoc. cbn [app]. size_t_norm.
      do 3 f_equal. change (64 / 4) with 16. lia.
  - lia.
  - unfold to_size_t. apply Z.mod_pos_bound. rewrite two_64. lia.
  - unfold zero_bytes, to_size_t. rewrite two_64 in *.
    destruct BLK; cbn [SHA_Base.blockSizeBits SHA_Base.wordSizeBits];
      rewrite Z2Nat.id by (Z.div_mod_to_equations; lia);
      Z.div_mod_to_equations; lia.
Qed.

(** For a length that is not a multiple of eight [padMessage] is still in
    its zero-padding loop after any number of steps. *)
Lemma padMessage_unaligned (BLK : SHA_BlockSize) (fuel : nat) (os : list Z) (L : Z) :
  L mod 8 <> 0 -> SHA_Base.padMessage BLK fuel os L = Unfinished.
Proof.
  intros Hal. unfold SHA_Base.padMessage. cbv zeta. rewrite stopPadBits_value.
  change (SHA_Base.append (os, L) 0x80) with (os ++ [0x80], to_size_t (L + 8)).
  rewrite zero_pad_loop_unaligned; [reflexivity|].
  unfold to_size_t. rewrite two_64. Z.div_mod_to_equations. lia.
Qed.

Lemma lastn_app {A : Type} (n : nat) (l1 l2 : list A) :
  length l2 = n -> lastn n (l1 ++ l2) = l2.
Proof.
  intros Hn. unfold lastn. rewrite length_app, Hn.
  replace (length l1 + n - n)%nat with (length l1) by lia.
  rewrite skipn_app, skipn_all, Nat.sub_diag. reflexivity.
Qed.

Ltac eval_pow2 :=
  repeat match goal with
         | |- context [2 ^ ?n] =>
             let v := eval vm_compute in (2 ^ n) in change (2 ^ n) with v
         end.

(** The eight bytes of the length field spell the length. *)
Lemma big_endian_length_bytes (L : Z) :
  0 <= L < 2 ^ 64 ->
  big_endian (map (fun i => (L / 2 ^ (8 * i)) mod 256) [7; 6; 5; 4; 3; 2; 1; 0]) = L.
Proof.
  intros HL. rewrite two_64 in HL. unfold big_endian. cbn [map fold_left].
  eval_pow2. Z.div_mod_to_equations. lia.
Qed.

Lemma big_endian_zeros (n : nat) (bs : list Z) :
  big_endian (repeat 0 n ++ bs) = big_endian bs.
Proof.
  unfold big_endian. rewrite fold_left_app.
  replace (fold_left (fun acc b : Z => acc * 256 + b) (repeat 0 n) 0) with 0;
    [reflexivity|].
  induction n as [|n IH]; [reflexivity|]. cbn [repeat fold_left]. exact IH.
Qed.

Lemma padding_suffix_aligns (BLK : SHA_BlockSize) (L : Z) :
  L mod 8 = 0 ->
  (L + 8 * Z.of_nat (length (padding_suffix BLK L))) mod SHA_Base.blockSizeBits BLK = 0.
Proof.
  intros Hal. rewrite length_padding_suffix. unfold zero_bytes.
  destruct BLK; cbn [SHA_Base.blockSizeBits SHA_Base.wordSizeBits];
    rewrite Z2Nat.id by (Z.div_mod_to_equations; lia);
    Z.div_mod_to_equations; lia.
Qed.

Lemma padding_suffix_length_field (BLK : SHA_BlockSize) (L : Z) :
  0 <= L < 2 ^ 64 ->
  big_endian (lastn 8 (padding_suffix BLK L)) = L /\
  big_endian (lastn (Z.to_nat (2 * SHA_Base.wordSizeBits BLK / 8)) (padding_suffix BLK L)) = L.
Proof.
  intros HL. unfold padding_suffix, length_field.
  change (0x80 :: repeat 0 (zero_bytes BLK L) ++ ?t)
    with ((0x80 :: repeat 0 (zero_bytes BLK L)) ++ t).
  set (pre := 0x80 :: repeat 0 (zero_bytes BLK L)).
  destruct BLK; cbn [SHA_Base.wordSizeBits].
  - rewrite app_nil_l. change (Z.to_nat (2 * 32 / 8)) with 8%nat.
    rewrite lastn_app by reflexivity.
    split; apply big_endian_length_bytes; exact HL.
  - change (Z.to_nat (2 * 64 / 8)) with 16%nat. split.
    + rewrite app_assoc, lastn_app by reflexivity.
      apply big_endian_length_bytes; exact HL.
    + rewrite lastn_app by reflexivity.
      rewrite big_endian_zeros. apply big_endian_length_bytes; exact HL.
Qed.

(** C2, as amended.  For every message bit length [L] that is a multiple of
    eight (and fits [std::size_t]), [padMessage] ends, the suffix it writes
    is [padding_suffix], [L] plus the bits of the suffix is a multiple of
    the block size, and the trailing 64 bits of the suffix, as well as its
    whole length field, read as a big-endian integer, are [L]. *)
Theorem padMessage_suffix (BLK : SHA_BlockSize) (os : list Z) (L : Z) :
  0 <= L < 2 ^ 64 ->
  L mod CHAR_BIT = 0 ->
  let suffix := padding_suffix BLK L in
  (forall fuel, (128 <= fuel)%nat ->
     SHA_Base.padMessage BLK fuel os L
     = Value (os ++ suffix, to_size_t (L + CHAR_BIT * Z.of_nat (length suffix)))) /\
  (L + CHAR_BIT * Z.of_nat (length suffix)) mod SHA_Base.blockSizeBits BLK = 0 /\
  big_endian (lastn 8 suffix) = L /\
  big_endian (lastn (Z.to_nat (2 * SHA_Base.wordSizeBits BLK / 8)) suffix) = L.
Proof.
  intros HL Hal suffix. subst suffix. unfold CHAR_BIT in *.
  split; [|split].
  - intros fuel Hfuel. apply padMessage_aligned; assumption.
  - apply padding_suffix_aligns; assumption.
  - apply padding_suffix_length_field; assumption.
Qed.

Lemma padMessage_suffix_witness :
  0 <= 24 < 2 ^ 64 /\ 24 mod CHAR_BIT = 0 /\
  SHA_Base.padMessage BLOCK_512 128 [0x61; 0x62; 0x63] 24
  = Value ([0x61; 0x62; 0x63] ++ 0x80 :: repeat 0 52 ++ [0; 0; 0; 0; 0; 0; 0; 0x18], 512) /\
  big_endian (lastn 8 (padding_suffix BLOCK_512 24)) = 24.
Proof.
  assert (HL : 0 <= 24 < 2 ^ 64) by (split; [discriminate|reflexivity]).
  assert (Hal : 24 mod CHAR_BIT = 0) by reflexivity.
  pose proof (padMessage_suffix BLOCK_512 [0x61; 0x62; 0x63] 24 HL Hal) as H.
  cbv zeta in H. destruct H as (Hrun & _ & Hbe & _).
  split; [exact HL|]. split; [exact Hal|].
  split; [exact (Hrun 128%nat (le_n 128))|exact Hbe].
Defined.

(** C2, as stated, fails for a length that is not a multiple of eight: for
    the length 1 no number of steps brings [padMessage] to a result. *)
Lemma padMessage_suffix_counterexample :
  ~ exists fuel r, SHA_Base.padMessage BLOCK_512 fuel [] 1 = Value r.
Proof.
  intros (fuel & r & H).
  rewrite padMessage_unaligned in H by (vm_compute; discriminate).
  discriminate H.
Qed.

(** C3.  [padMessage] ends exactly for the bit lengths that are multiples of
    [CHAR_BIT].  For such a length the zero-padding loop stops, within 128
    steps, on a counter whose residue modulo the block size is
    [blockSize - 2 * wordSize]; for any other length the loop is still
    running after every number of steps, and so is [padMessage]. *)
Theorem padMessage_terminates_iff_aligned (BLK : SHA_BlockSize) (os : list Z) (L : Z) :
  0 <= L < 2 ^ 64 ->
  let stopPadBits := SHA_Base.blockSizeBits BLK - 2 * SHA_Base.wordSizeBits BLK in
  (L mod CHAR_BIT = 0 ->
     (exists st,
        SHA_Base.zero_pad_loop BLK 128 stopPadBits (SHA_Base.append (os, L) 0x80) = Value st /\
        snd st mod SHA_Base.blockSizeBits BLK = stopPadBits) /\
     (exists r, forall fuel, (128 <= fuel)%nat ->
        SHA_Base.padMessage BLK fuel os L = Value r)) /\
  (L mod CHAR_BIT <> 0 ->
     forall fuel,
       SHA_Base.zero_pad_loop BLK fuel stopPadBits (SHA_Base.append (os, L) 0x80) = Unfinished /\
       SHA_Base.padMessage BLK fuel os L = Unfinished) /\
  ((exists fuel r, SHA_Base.padMessage BLK fuel os L = Value r) <-> L mod CHAR_BIT = 0).
Proof.
  intros HL stopPadBits. subst stopPadBits. unfold CHAR_BIT.
  change (SHA_Base.append (os, L) 0x80) with (os ++ [0x80], to_size_t (L + 8)).
  assert (Hyes : L mod 8 = 0 ->
            exists r, forall fuel, (128 <= fuel)%nat ->
              SHA_Base.padMessage BLK fuel os L = Value r).
  { intros Hal. eexists. intros fuel Hfuel. apply padMessage_aligned; assumption. }
  split; [|split].
  - intros Hal. split; [|exact (Hyes Hal)].
    pose proof (zero_bytes_bound BLK L) as Hk.
    eexists. split.
    + apply (zero_pad_loop_aligned BLK (zero_bytes BLK L)).
      * lia.
      * unfold to_size_t. apply Z.mod_pos_bound. rewrite two_64. lia.
      * unfold zero_bytes, to_size_t. rewrite two_64 in *.
        destruct BLK; cbn [SHA_Base.blockSizeBits SHA_Base.wordSizeBits];
          rewrite Z2Nat.id by (Z.div_mod_to_equations; lia);
          Z.div_mod_to_equations; lia.
    + cbn [snd]. unfold zero_bytes, to_size_t. rewrite two_64 in *.
      destruct BLK; cbn [SHA_Base.blockSizeBits SHA_Base.wordSizeBits];
        rewrite Z2Nat.id by (Z.div_mod_to_equations; lia);
        Z.div_mod_to_equations; lia.
  - intros Hal fuel. split; [|apply padMessage_unaligned; exact Hal].
    apply zero_pad_loop_unaligned.
    unfold to_size_t. rewrite two_64. Z.div_mod_to_equations. lia.
  - split.
    + intros (fuel & r & H).
      destruct (Z.eq_dec (L mod 8) 0) as [Hal|Hal]; [exact Hal|].
      rewrite padMessage_unaligned in H by exact Hal. discriminate H.
    + intros Hal. destruct (Hyes Hal) as [r Hr].
      exists 128%nat, r. apply Hr. apply le_n.
Qed.

Lemma padMessage_terminates_iff_aligned_witness :
  0 <= 24 < 2 ^ 64 /\ 0 <= 1 < 2 ^ 64 /\
  (exists r, forall fuel, (128 <= fuel)%nat ->
     SHA_Base.padMessage BLOCK_1024 fuel [] 24 = Value r) /\
  (forall fuel, SHA_Base.padMessage BLOCK_1024 fuel [] 1 = Unfinished).
Proof.
  assert (H24 : 0 <= 24 < 2 ^ 64) by (split; [discriminate|reflexivity]).
  assert (H1 : 0 <= 1 < 2 ^ 64) by (split; [discriminate|reflexivity]).
  assert (Hal : 24 mod CHAR_BIT = 0) by reflexivity.
  assert (Hun : 1 mod CHAR_BIT <> 0) by discriminate.
  split; [exact H24|]. split; [exact H1|]. split.
  - exact (proj2 (proj1 (padMessage_terminates_iff_aligned BLOCK_1024 [] 24 H24) Hal)).
  - intros fuel.
    exact (proj2 (proj1 (proj2 (padMessage_terminates_iff_aligned BLOCK_1024 [] 1 H1)) Hun fuel)).
Defined.

(** ** SHA_Base: the precondition of [computeHash] *)

Lemma inputOK_spec (BLK : SHA_BlockSize) (e : Engine) :
  SHA_Base.inputOK BLK e = true <->
  m_message e <> [] /\
  (Z.of_nat (length (m_message e)) * SHA_Base.wordSizeBits BLK)
    mod SHA_Base.blockSizeBits BLK = 0.
Proof.
  unfold SHA_Base.inputOK. cbv zeta.
  rewrite andb_true_iff, negb_true_iff, Nat.eqb_neq, Z.eqb_eq.
  assert (Hwrap : to_size_t (Z.of_nat (length (m_message e)) * SHA_Base.wordSizeBits BLK)
                    mod SHA_Base.blockSizeBits BLK
                  = (Z.of_nat (length (m_message e)) * SHA_Base.wordSizeBits BLK)
                      mod SHA_Base.blockSizeBits BLK).
  { unfold to_size_t. rewrite two_64.
    destruct BLK; cbn [SHA_Base.blockSizeBits SHA_Base.wordSizeBits];
      Z.div_mod_to_equations; lia. }
  rewrite Hwrap.
  assert (Hne : length (m_message e) <> 0%nat <-> m_message e <> []).
  { destruct (m_message e); cbn [length]; split; intros H; congruence || lia. }
  rewrite Hne. intuition congruence.
Qed.

Lemma computeHash_rejects (CRTP : Derived) (BLK : SHA_BlockSize) (fuel : nat) (e : Engine) :
  SHA_Base.inputOK BLK e = false ->
  SHA_Base.computeHash CRTP BLK fuel true e = (AssertionFailure, e).
Proof.
  intros H. unfold SHA_Base.computeHash, bindM, SHA_Base.assert_inputOK.
  rewrite H. reflexivity.
Qed.

Lemma computeHash_accepts (CRTP : Derived) (BLK : SHA_BlockSize) (fuel : nat)
      (ua : bool) (e : Engine) :
  SHA_Base.inputOK BLK e = true ->
  SHA_Base.computeHash CRTP BLK fuel ua e
  = (_ <~ initHashValue CRTP ;;
     _ <~ SHA_Base.block_loop CRTP fuel 0 ;;
     afterHash CRTP) e.
Proof.
  intros H. unfold SHA_Base.computeHash, SHA_Base.assert_inputOK.
  unfold bindM at 1. rewrite H, andb_false_r. reflexivity.
Qed.

(** C5.  [inputOK] holds exactly when the message buffer is not empty and
    its size in bits is a multiple of the block size.  With [USE_ASSERT],
    [computeHash] on a buffer that is empty or not block-aligned stops in
    the assertion with the engine as it was, whatever the derived class; on
    any other buffer the assertion changes nothing. *)
Theorem computeHash_precondition (CRTP : Derived) (BLK : SHA_BlockSize)
        (fuel : nat) (e : Engine) :
  (SHA_Base.inputOK BLK e = true <->
     m_message e <> [] /\
     (Z.of_nat (length (m_message e)) * SHA_Base.wordSizeBits BLK)
       mod SHA_Base.blockSizeBits BLK = 0) /\
  (SHA_Base.inputOK BLK e = false ->
     SHA_Base.computeHash CRTP BLK fuel true e = (AssertionFailure, e)) /\
  (SHA_Base.inputOK BLK e = true ->
     SHA_Base.computeHash CRTP BLK fuel true e
     = SHA_Base.computeHash CRTP BLK fuel false e).
Proof.
  split; [apply inputOK_spec|]. split.
  - apply computeHash_rejects.
  - intros H. now rewrite !computeHash_accepts by exact H.
Qed.

Lemma computeHash_precondition_witness :
  (SHA_Base.inputOK BLOCK_512 (loaded 7 []) = false /\
   SHA_224.computeHash true 1 (loaded 7 []) = (AssertionFailure, loaded 7 [])) /\
  (SHA_Base.inputOK BLOCK_512 (loaded 7 [1; 2; 3]) = false /\
   SHA_224.computeHash true 1 (loaded 7 [1; 2; 3]) = (AssertionFailure, loaded 7 [1; 2; 3])) /\
  (SHA_Base.inputOK BLOCK_1024 (loaded 6 abc_1024) = true /\
   SHA_384.computeHash true 1 (loaded 6 abc_1024)
   = SHA_Base.computeHash (SHA_384.derived true) BLOCK_1024 1 false (loaded 6 abc_1024)).
Proof.
  assert (H0 : SHA_Base.inputOK BLOCK_512 (loaded 7 []) = false) by reflexivity.
  assert (H3 : SHA_Base.inputOK BLOCK_512 (loaded 7 [1; 2; 3]) = false) by reflexivity.
  assert (H16 : SHA_Base.inputOK BLOCK_1024 (loaded 6 abc_1024) = true) by reflexivity.
  split; [split; [exact H0|]|split; [split; [exact H3|]|split; [exact H16|]]].
  - exact (proj1 (proj2 (computeHash_precondition
                           (SHA_224.derived true) BLOCK_512 1 (loaded 7 []))) H0).
  - exact (proj1 (proj2 (computeHash_precondition
                           (SHA_224.derived true) BLOCK_512 1 (loaded 7 [1; 2; 3]))) H3).
  - exact (proj2 (proj2 (computeHash_precondition
                           (SHA_384.derived true) BLOCK_1024 1 (loaded 6 abc_1024))) H16).
Defined.

(** ** [clearMessage] *)

(** C10.  [clearMessage] empties the message buffer of any engine, a second
    call leaves the engine as the first one left it, and neither the hash
    state nor the digest a truncating or a base engine hands out is
    touched. *)
Theorem clearMessage_frame (e : Engine) :
  let e1 := snd (SHA_Base.clearMessage e) in
  fst (SHA_Base.clearMessage e) = Value tt /\
  m_message e1 = [] /\
  SHA_Base.clearMessage e1 = (Value tt, e1) /\
  m_H e1 = m_H e /\
  m_Hleft e1 = m_Hleft e /\
  m_setDigest e1 = m_setDigest e /\
  fst (SHA_224.digest e1) = fst (SHA_224.digest e) /\
  fst (SHA_384.digest e1) = fst (SHA_384.digest e) /\
  fst (SHA_2.digest e1) = fst (SHA_2.digest e).
Proof.
  cbv zeta. unfold SHA_Base.clearMessage, modify. cbn [fst snd].
  repeat split.
  - unfold SHA_224.digest. cbn [fst]. cbn [set_message m_setDigest m_H m_Hleft].
    destruct (m_setDigest e); reflexivity.
  - unfold SHA_384.digest. cbn [fst]. cbn [set_message m_setDigest m_H m_Hleft].
    destruct (m_setDigest e); reflexivity.
Qed.

(** ** Arrays and the engine monad *)

Lemma array_fill_seq (g : Z -> Z) (src : list Z) (k : nat) :
  forall (i : nat) (P Q : list Z),
    length P = i -> (k <= length Q)%nat ->
    fold_left (fun d j => array_set d j (g (nth j src 0))) (seq i k) (P ++ Q)
    = P ++ map (fun j => g (nth j src 0)) (seq i k) ++ skipn k Q.
Proof.
  induction k as [|k IH]; intros i P Q HP HQ.
  - reflexivity.
  - destruct Q as [|q Q]; [cbn [length] in HQ; lia|].
    cbn [seq fold_left map skipn]. unfold array_set at 2.
    replace (i <? length (P ++ q :: Q))%nat with true
      by (symmetry; apply Nat.ltb_lt; rewrite length_app; cbn [length]; lia).
    rewrite firstn_app, skipn_app, <- HP, firstn_all, skipn_all2 by lia.
    replace (length P - length P)%nat with 0%nat by lia.
    replace (S (length P) - length P)%nat with 1%nat by lia.
    cbn [firstn skipn app]. rewrite app_nil_r.
    change (P ++ g (nth (length P) src 0) :: Q)
      with (P ++ [g (nth (length P) src 0)] ++ Q).
    rewrite app_assoc, IH.
    + rewrite <- app_assoc. reflexivity.
    + rewrite length_app. cbn [length]. lia.
    + cbn [length] in HQ. lia.
Qed.

Lemma map_nth_seq (src : list Z) :
  forall n, (n <= length src)%nat ->
    map (fun j => nth j src 0) (seq 0 n) = firstn n src.
Proof.
  induction src as [|x src IH]; intros n Hn.
  - cbn [length] in Hn. replace n with 0%nat by lia. reflexivity.
  - destruct n as [|n]; [reflexivity|].
    cbn [seq map firstn nth]. rewrite <- seq_shift, map_map. cbn [nth].
    rewrite IH by (cbn [length] in Hn; lia). reflexivity.
Qed.

Lemma array_fill_length (n : nat) (g : Z -> Z) (src dst : list Z) :
  length dst = n -> length (array_fill n g src dst) = n.
Proof.
  intros Hd. unfold array_fill.
  pose proof (array_fill_seq g src n 0 [] dst eq_refl) as E.
  cbn [app] in E. rewrite E by lia.
  rewrite length_app, length_map, length_seq, length_skipn. lia.
Qed.

Lemma array_fill_copy (n : nat) (src dst : list Z) :
  length dst = n -> (n <= length src)%nat ->
  array_fill n (fun x => x) src dst = firstn n src.
Proof.
  intros Hd Hs. unfold array_fill.
  pose proof (array_fill_seq (fun x => x) src n 0 [] dst eq_refl) as E.
  cbn [app] in E. rewrite E by lia.
  rewrite skipn_all2, app_nil_r by lia.
  apply map_nth_seq. exact Hs.
Qed.

Lemma bindM_value {A B : Type} (m : M A) (k : A -> M B) (e e2 : Engine) (b : B) :
  bindM m k e = (Value b, e2) ->
  exists a e1, m e = (Value a, e1) /\ k a e1 = (Value b, e2).
Proof.
  unfold bindM. destruct (m e) as [[a| | |] e1]; intros H; try discriminate H.
  exists a, e1. split; [reflexivity|exact H].
Qed.

Lemma bindM_step {A B : Type} (m : M A) (k : A -> M B) (e e1 : Engine) (a : A) :
  m e = (Value a, e1) -> bindM m k e = k a e1.
Proof. intros H. unfold bindM. now rewrite H. Qed.

(** ** [digest] of the truncating engines *)



Lemma SHA_224_digest_fresh (e : Engine) :
  m_setDigest e = true -> length (m_H e) = 8%nat -> length (m_Hleft e) = 7%nat ->
  SHA_224.digest e
  = (Value (firstn 7 (m_H e)),
     set_setDigest false (set_Hleft (firstn 7 (m_H e)) e)).
Proof.
  intros Hs HH HL. unfold SHA_224.digest. rewrite Hs.
  rewrite array_fill_copy by lia. reflexivity.
Qed.

Lemma SHA_384_digest_fresh (e : Engine) :
  m_setDigest e = true -> length (m_H e) = 8%nat -> length (m_Hleft e) = 6%nat ->
  SHA_384.digest e
  = (Value (firstn 6 (m_H e)),
     set_setDigest false (set_Hleft (firstn 6 (m_H e)) e)).
Proof.
  intros Hs HH HL. unfold SHA_384.digest. rewrite Hs.
  rewrite array_fill_copy by lia. reflexivity.
Qed.

(** Once [digest] has run, running it again changes nothing. *)
Lemma SHA_224_digest_twice (e : Engine) :
  SHA_224.digest (snd (SHA_224.digest e)) = SHA_224.digest e.
Proof.
  unfold SHA_224.digest. destruct (m_setDigest e) eqn:Hs; cbn [snd].
  - reflexivity.
  - now rewrite Hs.
Qed.

Lemma SHA_384_digest_twice (e : Engine) :
  SHA_384.digest (snd (SHA_384.digest e)) = SHA_384.digest e.
Proof.
  unfold SHA_384.digest. destruct (m_setDigest e) eqn:Hs; cbn [snd].
  - reflexivity.
  - now rewrite Hs.
Qed.

Lemma digest_iter (digest : M (list Z)) (e : Engine) (n : nat) :
  (forall s, digest (snd (digest s)) = digest s) ->
  digest (Nat.iter n (fun s => snd (digest s)) e) = digest e.
Proof.
  intros Htwice. induction n as [|n IH]; [reflexivity|].
  rewrite Nat.iter_succ. now rewrite Htwice, IH.
Qed.











(** ** The block loop of the base engines *)

Lemma ROTR_defined (T : WordType) (ua : bool) (x n : Z) :
  0 < n < width T ->
  BitwiseINT.ROTR T ua x n
  = Value (Z.lor (Z.shiftr x n) (wrap T (Z.shiftl x (width T - n)))).
Proof.
  intros Hn. unfold BitwiseINT.ROTR.
  rewrite rotate_assert_passes, SHR_defined, complement_count_small by lia.
  rewrite SHL_defined by lia. reflexivity.
Qed.

Ltac rotations_defined :=
  unfold SHA_Functions.SIGMA, SHA_Functions.sigma, BitwiseINT._ROTR, BitwiseINT._SHR;
  rewrite ?ROTR_defined by (vm_compute; split; reflexivity);
  rewrite ?SHR_defined by reflexivity;
  eexists; reflexivity.

Lemma SIGMA_0_defined (T : WordType) (ua : bool) (x : Z) :
  exists v, SHA_2.SIGMA_0 T ua x = Value v.
Proof.
  destruct T; unfold SHA_2.SIGMA_0, SHA_Functions.SIGMA_256_0, SHA_Functions.SIGMA_512_0;
    rotations_defined.
Qed.

Lemma SIGMA_1_defined (T : WordType) (ua : bool) (x : Z) :
  exists v, SHA_2.SIGMA_1 T ua x = Value v.
Proof.
  destruct T; unfold SHA_2.SIGMA_1, SHA_Functions.SIGMA_256_1, SHA_Functions.SIGMA_512_1;
    rotations_defined.
Qed.

Lemma sigma_0_defined (T : WordType) (ua : bool) (x : Z) :
  exists v, SHA_2.sigma_0 T ua x = Value v.
Proof.
  destruct T; unfold SHA_2.sigma_0, SHA_Functions.sigma_256_0, SHA_Functions.sigma_512_0;
    rotations_defined.
Qed.

Lemma sigma_1_defined (T : WordType) (ua : bool) (x : Z) :
  exists v, SHA_2.sigma_1 T ua x = Value v.
Proof.
  destruct T; unfold SHA_2.sigma_1, SHA_Functions.sigma_256_1, SHA_Functions.sigma_512_1;
    rotations_defined.
Qed.

Lemma expand_schedule_defined (T : WordType) (ua : bool) (n : nat) :
  forall W, exists W', SHA_2.expand_schedule T ua n W = Value W'.
Proof.
  induction n as [|n IH]; intros W; cbn [SHA_2.expand_schedule].
  - eexists; reflexivity.
  - cbv zeta.
    destruct (sigma_1_defined T ua (nth (length W - 2) W 0)) as [s1 ->].
    destruct (sigma_0_defined T ua (nth (length W - 15) W 0)) as [s0 ->].
    cbn [bind]. apply IH.
Qed.

Lemma read_block_defined (n : nat) :
  forall (index : nat) (e : Engine),
    (index + n <= length (m_message e))%nat ->
    exists ws, SHA_2.read_block n index e = (Value (ws, (index + n)%nat), e).
Proof.
  induction n as [|n IH]; intros index e Hlen; cbn [SHA_2.read_block].
  - exists []. unfold ret. now rewrite Nat.add_0_r.
  - assert (Hw : exists w, nth_error (m_message e) index = Some w).
    { destruct (nth_error (m_message e) index) eqn:E; [eexists; reflexivity|].
      apply nth_error_None in E. lia. }
    destruct Hw as [w Hw].
    erewrite bindM_step by (unfold SHA_Base.msgWord; rewrite Hw; reflexivity).
    cbn [fst snd].
    destruct (IH (S index) e) as [ws Hws]; [lia|].
    erewrite bindM_step by exact Hws.
    exists (w :: ws). unfold ret. cbn [fst snd]. do 3 f_equal. lia.
Qed.

Lemma prepMsgSchedule_defined (T : WordType) (ua : bool) (index : nat) (e : Engine) :
  (index + 16 <= length (m_message e))%nat ->
  exists W, SHA_2.prepMsgSchedule T ua index e = (Value (index + 16)%nat, set_W W e).
Proof.
  intros Hlen. unfold SHA_2.prepMsgSchedule.
  destruct (read_block_defined 16 index e Hlen) as [ws Hws].
  erewrite bindM_step by exact Hws. cbn [fst snd].
  destruct (expand_schedule_defined T ua (SHA_2.rounds T - 16) ws) as [W HW].
  erewrite bindM_step by (unfold lift; rewrite HW; reflexivity).
  exists W. reflexivity.
Qed.

Lemma round_defined (T : WordType) (ua : bool) (vars : list Z) (KW : Z * Z) :
  exists vars', SHA_2.round T ua vars KW = Value vars' /\ length vars' = 8%nat.
Proof.
  unfold SHA_2.round. cbv zeta.
  destruct (SIGMA_1_defined T ua (nth 4 vars 0)) as [S1 ->].
  destruct (SIGMA_0_defined T ua (nth 0 vars 0)) as [S0 ->].
  cbn [bind]. eexists. split; reflexivity.
Qed.

Lemma round_loop_defined (T : WordType) (ua : bool) (KW : list (Z * Z)) :
  forall vars, length vars = 8%nat ->
    exists vars', SHA_2.round_loop T ua KW vars = Value vars' /\ length vars' = 8%nat.
Proof.
  induction KW as [|kw KW IH]; intros vars Hlen; cbn [SHA_2.round_loop].
  - exists vars. split; [reflexivity|exact Hlen].
  - destruct (round_defined T ua vars kw) as (v & -> & Hv). cbn [bind].
    apply IH. exact Hv.
Qed.

Lemma same_frame_trans (e1 e2 e3 : Engine) :
  same_frame e1 e2 -> same_frame e2 e3 -> same_frame e1 e3.
Proof.
  unfold same_frame. intros (A1 & A2 & A3 & A4) (B1 & B2 & B3 & B4).
  repeat split; congruence.
Qed.

Lemma block_body_defined (T : WordType) (ua : bool) (index : nat) (e : Engine) :
  (index + 16 <= length (m_message e))%nat ->
  length (m_H e) = 8%nat ->
  exists e',
    (i <~ SHA_2.prepMsgSchedule T ua index ;;
     _ <~ SHA_2.initWorkingVars ;;
     _ <~ SHA_2.workingLoop T ua ;;
     _ <~ SHA_2.updateHash T ;;
     ret i) e = (Value (index + 16)%nat, e') /\
    same_frame e e'.
Proof.
  intros Hlen HH.
  destruct (prepMsgSchedule_defined T ua index e Hlen) as [W HW].
  erewrite bindM_step by exact HW.
  erewrite bindM_step by reflexivity.
  set (e1 := set_work (firstn 8 (m_H (set_W W e))) (set_W W e)).
  destruct (round_loop_defined T ua (combine (SHA_2.m_K T) (m_W e1)) (m_work e1))
    as (v & Hv & Hlv).
  { subst e1. cbn [m_work set_work m_H set_W]. rewrite length_firstn. lia. }
  erewrite bindM_step
    by (unfold SHA_2.workingLoop, lift; erewrite bindM_step by (rewrite Hv; reflexivity);
        reflexivity).
  erewrite bindM_step by reflexivity.
  eexists. split; [reflexivity|].
  unfold same_frame.
  cbn [m_message m_Hleft m_setDigest m_H m_work set_H set_work set_W
       SHA_2.updateHash modify].
  subst e1. cbn [m_message m_Hleft m_setDigest m_H m_work set_work set_W].
  rewrite length_map, length_combine, HH, Hlv. auto.
Qed.

(** On a message of whole blocks the block loop of a class that inherits it
    from a base engine comes to its end without leaving defined behaviour,
    given one unit of fuel per block. *)
Lemma block_loop_defined (T : WordType) (ua : bool) (init after : M unit) (k : nat) :
  forall (fuel index : nat) (e : Engine),
    (k <= fuel)%nat ->
    (index + 16 * k = length (m_message e))%nat ->
    length (m_H e) = 8%nat ->
    exists e',
      SHA_Base.block_loop (inheriting T ua init after) fuel index e = (Value tt, e') /\
      same_frame e e'.
Proof.
  induction k as [|k IH]; intros fuel index e Hfuel Hlen HH.
  - exists e. split.
    + destruct fuel; cbn [SHA_Base.block_loop];
        replace (index <? length (m_message e))%nat with false
          by (symmetry; apply Nat.ltb_ge; lia); reflexivity.
    + unfold same_frame. auto.
  - destruct fuel as [|fuel]; [lia|]. cbn [SHA_Base.block_loop].
    replace (index <? length (m_message e))%nat with true
      by (symmetry; apply Nat.ltb_lt; lia).
    destruct (block_body_defined T ua index e) as (e1 & Hbody & Hframe); [lia|exact HH|].
    destruct Hframe as (F1 & F2 & F3 & F4).
    destruct (IH fuel (index + 16)%nat e1) as (e2 & Hloop & Hframe2);
      [lia|rewrite F1; lia|exact F4|].
    exists e2. split.
    + unfold inheriting at 1 2 3 4.
      cbn [prepMsgSchedule initWorkingVars workingLoop updateHash].
      revert Hbody. unfold bindM, ret.
      destruct (SHA_2.prepMsgSchedule T ua index e) as [[i| | |] s0]; try discriminate.
      destruct (SHA_2.initWorkingVars s0) as [[[]| | |] s1]; try discriminate.
      destruct (SHA_2.workingLoop T ua s1) as [[[]| | |] s2]; try discriminate.
      destruct (SHA_2.updateHash T s2) as [[[]| | |] s3]; try discriminate.
      intros Hbody. inversion Hbody; subst. exact Hloop.
    + apply (same_frame_trans e e1 e2); [|exact Hframe2].
      unfold same_frame. auto.
Qed.

Lemma block_loop_inherited (T : WordType) (ua : bool) (init after init' after' : M unit)
      (fuel index : nat) (e : Engine) :
  SHA_Base.block_loop (inheriting T ua init after) fuel index e
  = SHA_Base.block_loop (inheriting T ua init' after') fuel index e.
Proof. reflexivity. Qed.

Lemma aligned_blocks (T : WordType) (e : Engine) :
  SHA_Base.inputOK (SHA_2.BLK T) e = true ->
  exists k, (0 + 16 * k)%nat = length (m_message e).
Proof.
  intros H. apply inputOK_spec in H. destruct H as [_ H].
  exists (length (m_message e) / 16)%nat.
  assert (Hm : Z.of_nat (length (m_message e)) mod 16 = 0).
  { destruct T; cbn [SHA_2.BLK SHA_Base.blockSizeBits SHA_Base.wordSizeBits] in H;
      Z.div_mod_to_equations; lia. }
  assert (Hn : (length (m_message e) mod 16 = 0)%nat).
  { apply Nat2Z.inj. rewrite Nat2Z.inj_mod. exact Hm. }
  pose proof (Nat.div_mod_eq (length (m_message e)) 16). lia.
Qed.

Lemma initHashValue_frame (T : WordType) (a : list Z) (e : Engine) :
  length (m_H e) = 8%nat ->
  same_frame e (set_H (array_fill 8 (BitwiseINT.constant T) a (m_H e)) e).
Proof.
  intros HH. unfold same_frame. cbn [m_message m_Hleft m_setDigest m_H set_H].
  repeat split. apply array_fill_length. exact HH.
Qed.

(** [computeHash] of an engine that inherits the block loop of a base
    engine, sets its own initial value [a] and has the truncating
    [afterHash]: on a block-aligned message it succeeds, and its hash state
    is the one the base engine's block loop leaves when started from [a]. *)
Lemma truncating_computeHash (T : WordType) (ua : bool) (a : list Z)
      (fuel : nat) (e : Engine) :
  let init := modify (fun s => set_H (array_fill 8 (BitwiseINT.constant T) a (m_H s)) s) in
  SHA_Base.inputOK (SHA_2.BLK T) e = true ->
  (length (m_message e) <= 16 * fuel)%nat ->
  length (m_H e) = 8%nat ->
  exists eH,
    (_ <~ init ;; SHA_Base.block_loop (SHA_2.derived T ua) fuel 0) e = (Value tt, eH) /\
    same_frame e eH /\
    SHA_Base.computeHash (inheriting T ua init (modify (set_setDigest true)))
                         (SHA_2.BLK T) fuel ua e
    = (Value tt, set_setDigest true eH).
Proof.
  intros init HOK Hfuel HH.
  destruct (aligned_blocks T e HOK) as [k Hk].
  set (e0 := set_H (array_fill 8 (BitwiseINT.constant T) a (m_H e)) e).
  pose proof (initHashValue_frame T a e HH) as F0. fold e0 in F0.
  destruct (block_loop_defined T ua (SHA_2.initHashValue T) SHA_2.afterHash
                               k fuel 0%nat e0) as (eH & Hloop & FH).
  { lia. }
  { destruct F0 as (-> & _). exact Hk. }
  { apply F0. }
  exists eH. split; [|split].
  - erewrite bindM_step by reflexivity. exact Hloop.
  - exact (same_frame_trans e e0 eH F0 FH).
  - rewrite computeHash_accepts by exact HOK.
    cbn [initHashValue afterHash].
    erewrite bindM_step by reflexivity. fold e0.
    erewrite bindM_step; [reflexivity|].
    rewrite <- Hloop.
    apply (block_loop_inherited T ua init (modify (set_setDigest true))
                                (SHA_2.initHashValue T) SHA_2.afterHash).
Qed.

(** [computeHash] of a base engine on a block-aligned message. *)
Lemma base_computeHash (T : WordType) (ua : bool) (fuel : nat) (e : Engine) :
  SHA_Base.inputOK (SHA_2.BLK T) e = true ->
  (length (m_message e) <= 16 * fuel)%nat ->
  length (m_H e) = 8%nat ->
  exists eH,
    (_ <~ SHA_2.initHashValue T ;; SHA_Base.block_loop (SHA_2.derived T ua) fuel 0) e
    = (Value tt, eH) /\
    SHA_2.computeHash T ua fuel e = (Value tt, eH).
Proof.
  intros HOK Hfuel HH.
  destruct (truncating_computeHash T ua (SHA_2.IV T) fuel e HOK Hfuel HH)
    as (eH & Hrun & _ & _).
  exists eH. split; [exact Hrun|].
  unfold SHA_2.computeHash. rewrite computeHash_accepts by exact HOK.
  apply bindM_value in Hrun. destruct Hrun as ([] & e0 & Hinit & Hloop).
  erewrite bindM_step by exact Hinit.
  erewrite bindM_step by exact Hloop.
  reflexivity.
Qed.

(** C1, as amended.  On a block-aligned, non-empty message [computeHash] of
    SHA-224 succeeds and [digest()] then returns the first 7 of the 8 words
    of the hash state that the block loop of SHA-256 leaves when it starts
    from the initial value of SHA-224 (FIPS 180-4 section 5.3.2); the
    digest of the SHA-256 engine is the whole state the same loop leaves
    when it starts from SHA-256's own initial value.  Likewise SHA-384
    returns the first 6 words of the state the block loop of SHA-512 leaves
    from the initial value of SHA-384 (section 5.3.4). *)
Theorem truncated_digest_prefix (ua : bool) (fuel : nat) (e : Engine) :
  length (m_H e) = 8%nat ->
  (length (m_message e) <= 16 * fuel)%nat ->
  (SHA_Base.inputOK BLOCK_512 e = true ->
   length (m_Hleft e) = 7%nat ->
   (exists eH,
      (_ <~ SHA_224.initHashValue ;;
       SHA_Base.block_loop (SHA_2.derived uint32_t ua) fuel 0) e = (Value tt, eH) /\
      length (m_H eH) = 8%nat /\
      fst ((_ <~ SHA_224.computeHash ua fuel ;; SHA_224.digest) e)
      = Value (firstn 7 (m_H eH))) /\
   (exists eH,
      (_ <~ SHA_2.initHashValue uint32_t ;;
       SHA_Base.block_loop (SHA_2.derived uint32_t ua) fuel 0) e = (Value tt, eH) /\
      fst ((_ <~ SHA_2.computeHash uint32_t ua fuel ;; SHA_2.digest) e)
      = Value (m_H eH))) /\
  (SHA_Base.inputOK BLOCK_1024 e = true ->
   length (m_Hleft e) = 6%nat ->
   (exists eH,
      (_ <~ SHA_384.initHashValue ;;
       SHA_Base.block_loop (SHA_2.derived uint64_t ua) fuel 0) e = (Value tt, eH) /\
      length (m_H eH) = 8%nat /\
      fst ((_ <~ SHA_384.computeHash ua fuel ;; SHA_384.digest) e)
      = Value (firstn 6 (m_H eH))) /\
   (exists eH,
      (_ <~ SHA_2.initHashValue uint64_t ;;
       SHA_Base.block_loop (SHA_2.derived uint64_t ua) fuel 0) e = (Value tt, eH) /\
      fst ((_ <~ SHA_2.computeHash uint64_t ua fuel ;; SHA_2.digest) e)
      = Value (m_H eH))).
Proof.
  intros HH Hfuel. split; intros HOK HL; split.
  - destruct (truncating_computeHash uint32_t ua SHA_224.a fuel e HOK Hfuel HH)
      as (eH & Hrun & (F1 & F2 & F3 & F4) & Hhash).
    exists eH. split; [exact Hrun|]. split; [exact F4|].
    erewrite bindM_step by exact Hhash.
    rewrite SHA_224_digest_fresh; [reflexivity|reflexivity|exact F4|].
    cbn [m_Hleft set_setDigest]. congruence.
  - destruct (base_computeHash uint32_t ua fuel e HOK Hfuel HH) as (eH & Hrun & Hhash).
    exists eH. split; [exact Hrun|].
    erewrite bindM_step by exact Hhash. reflexivity.
  - destruct (truncating_computeHash uint64_t ua SHA_384.a fuel e HOK Hfuel HH)
      as (eH & Hrun & (F1 & F2 & F3 & F4) & Hhash).
    exists eH. split; [exact Hrun|]. split; [exact F4|].
    erewrite bindM_step by exact Hhash.
    rewrite SHA_384_digest_fresh; [reflexivity|reflexivity|exact F4|].
    cbn [m_Hleft set_setDigest]. congruence.
  - destruct (base_computeHash uint64_t ua fuel e HOK Hfuel HH) as (eH & Hrun & Hhash).
    exists eH. split; [exact Hrun|].
    erewrite bindM_step by exact Hhash. reflexivity.
Qed.

Lemma truncated_digest_prefix_witness :
  (exists eH,
     (_ <~ SHA_224.initHashValue ;;
      SHA_Base.block_loop (SHA_2.derived uint32_t true) 1 0) (loaded 7 abc_512)
     = (Value tt, eH) /\
     length (m_H eH) = 8%nat /\
     fst ((_ <~ SHA_224.computeHash true 1 ;; SHA_224.digest) (loaded 7 abc_512))
     = Value (firstn 7 (m_H eH))) /\
  (exists eH,
     (_ <~ SHA_384.initHashValue ;;
      SHA_Base.block_loop (SHA_2.derived uint64_t true) 1 0) (loaded 6 abc_1024)
     = (Value tt, eH) /\
     length (m_H eH) = 8%nat /\
     fst ((_ <~ SHA_384.computeHash true 1 ;; SHA_384.digest) (loaded 6 abc_1024))
     = Value (firstn 6 (m_H eH))).
Proof.
  assert (H8 : length (m_H (loaded 7 abc_512)) = 8%nat) by reflexivity.
  assert (H8' : length (m_H (loaded 6 abc_1024)) = 8%nat) by reflexivity.
  assert (Hf : (length (m_message (loaded 7 abc_512)) <= 16 * 1)%nat)
    by (vm_compute; apply le_n).
  assert (Hf' : (length (m_message (loaded 6 abc_1024)) <= 16 * 1)%nat)
    by (vm_compute; apply le_n).
  assert (HOK : SHA_Base.inputOK BLOCK_512 (loaded 7 abc_512) = true) by reflexivity.
  assert (HOK' : SHA_Base.inputOK BLOCK_1024 (loaded 6 abc_1024) = true) by reflexivity.
  assert (HL : length (m_Hleft (loaded 7 abc_512)) = 7%nat) by reflexivity.
  assert (HL' : length (m_Hleft (loaded 6 abc_1024)) = 6%nat) by reflexivity.
  split.
  - exact (proj1 (proj1 (truncated_digest_prefix true 1 (loaded 7 abc_512) H8 Hf) HOK HL)).
  - exact (proj1 (proj2 (truncated_digest_prefix true 1 (loaded 6 abc_1024) H8' Hf') HOK' HL')).
Defined.

(** C1, as stated, fails: the digest of SHA-224 is not a prefix of the
    digest the SHA-256 engine computes for the same padded message, and
    neither is that of SHA-384 a prefix of the digest of SHA-512.  The
    message is "abc", padded to one block. *)
Lemma truncated_digest_counterexample :
  (SHA_Base.inputOK BLOCK_512 (loaded 7 abc_512) = true /\
   SHA_Base.inputOK BLOCK_512 (loaded 0 abc_512) = true /\
   m_message (loaded 7 abc_512) = m_message (loaded 0 abc_512) /\
   exists d224 d256,
     fst ((_ <~ SHA_224.computeHash true 1 ;; SHA_224.digest) (loaded 7 abc_512))
     = Value d224 /\
     fst ((_ <~ SHA_2.computeHash uint32_t true 1 ;; SHA_2.digest) (loaded 0 abc_512))
     = Value d256 /\
     d224 = 0x23097d22 :: 0x3405d822 :: 0x8642a477 :: 0xbda255b3 ::
            0x2aadbce4 :: 0xbda0b3f7 :: 0xe36c9da7 :: nil /\
     firstn 7 d256 = 0xba7816bf :: 0x8f01cfea :: 0x414140de :: 0x5dae2223 ::
                     0xb00361a3 :: 0x96177a9c :: 0xb410ff61 :: nil /\
     d224 <> firstn 7 d256) /\
  (SHA_Base.inputOK BLOCK_1024 (loaded 6 abc_1024) = true /\
   SHA_Base.inputOK BLOCK_1024 (loaded 0 abc_1024) = true /\
   m_message (loaded 6 abc_1024) = m_message (loaded 0 abc_1024) /\
   exists d384 d512,
     fst ((_ <~ SHA_384.computeHash true 1 ;; SHA_384.digest) (loaded 6 abc_1024))
     = Value d384 /\
     fst ((_ <~ SHA_2.computeHash uint64_t true 1 ;; SHA_2.digest) (loaded 0 abc_1024))
     = Value d512 /\
     d384 = 0xcb00753f45a35e8b :: 0xb5a03d699ac65007 :: 0x272c32ab0eded163 ::
            0x1a8b605a43ff5bed :: 0x8086072ba1e7cc23 :: 0x58baeca134c825a7 :: nil /\
     firstn 6 d512 = 0xddaf35a193617aba :: 0xcc417349ae204131 :: 0x12e6fa4e89a97ea2 ::
                     0x0a9eeee64b55d39a :: 0x2192992a274fc1a8 :: 0x36ba3c23a3feebbd :: nil /\
     d384 <> firstn 6 d512).
Proof.
  split.
  - split; [reflexivity|]. split; [reflexivity|]. split; [reflexivity|].
    eexists. eexists.
    split; [vm_compute; reflexivity|]. split; [vm_compute; reflexivity|].
    split; [reflexivity|]. split; [reflexivity|].
    vm_compute. discriminate.
  - split; [reflexivity|]. split; [reflexivity|]. split; [reflexivity|].
    eexists. eexists.
    split; [vm_compute; reflexivity|]. split; [vm_compute; reflexivity|].
    split; [reflexivity|]. split; [reflexivity|].
    vm_compute. discriminate.
Qed.

(** ** The example of the specification *)

(** Section 8: the message "abc" under SHA-256 hashes to
    ba7816bf 8f01cfea 414140de 5dae2223 b00361a3 96177a9c b410ff61 f20015ad. *)
Example SHA_256_abc :
  (_ <~ SHA_2.computeHash uint32_t true 1 ;; SHA_2.digest) (loaded 0 abc_512)
  = (Value (0xba7816bf :: 0x8f01cfea :: 0x414140de :: 0x5dae2223 ::
            0xb00361a3 :: 0x96177a9c :: 0xb410ff61 :: 0xf20015ad :: nil),
     snd (SHA_2.computeHash uint32_t true 1 (loaded 0 abc_512))).
Proof. vm_compute. reflexivity. Qed.

(** The same message under SHA-512 (FIPS 180-4 test vector). *)
Example SHA_512_abc :
  fst ((_ <~ SHA_2.computeHash uint64_t false 1 ;; SHA_2.digest) (loaded 0 abc_1024))
  = Value (0xddaf35a193617aba :: 0xcc417349ae204131 :: 0x12e6fa4e89a97ea2 ::
           0x0a9eeee64b55d39a :: 0x2192992a274fc1a8 :: 0x36ba3c23a3feebbd ::
           0x454d4423643ce80e :: 0x2a9ac94fa54ca49f :: nil).
Proof. vm_compute. reflexivity. Qed.

(** [padMessage] on the 24 bits of "abc" writes the rest of the block
    [abc_512] is made of. *)
Example padMessage_abc :
  SHA_Base.padMessage BLOCK_512 128 [0x61; 0x62; 0x63] 24
  = Value ([0x61; 0x62; 0x63; 0x80] ++ repeat 0 52 ++ [0; 0; 0; 0; 0; 0; 0; 0x18], 512).
Proof. vm_compute. reflexivity. Qed.

(** * Further properties of the code *)

(** ** BitwiseINT: single bits *)

Lemma land_pow2 (x n : Z) :
  0 <= n -> Z.land x (2 ^ n) = if Z.testbit x n then 2 ^ n else 0.
Proof.
  intros Hn. apply Z.bits_inj'. intros i Hi.
  rewrite Z.land_spec, Z.pow2_bits_eqb by exact Hn.
  destruct (Z.eqb_spec n i) as [->|Hne].
  - destruct (Z.testbit x i); cbn [andb].
    + rewrite Z.pow2_bits_eqb by exact Hi. now rewrite Z.eqb_refl.
    + now rewrite Z.bits_0.
  - rewrite andb_false_r. destruct (Z.testbit x n).
    + rewrite Z.pow2_bits_eqb by exact Hn. symmetry. now apply Z.eqb_neq.
    + now rewrite Z.bits_0.
Qed.

Lemma word_of_bits (w r : Z) :
  0 <= w -> 0 <= r -> (forall i, w <= i -> Z.testbit r i = false) -> r < 2 ^ w.
Proof.
  intros Hw Hr Hhigh.
  destruct (Z.eq_dec r 0) as [->|Hnz]; [apply Z.pow_pos_nonneg; lia|].
  assert (Hpos : 0 < r) by lia.
  apply Z.log2_lt_pow2; [exact Hpos|].
  pose proof (Z.bit_log2 r Hpos) as Hbit.
  destruct (Z.lt_ge_cases (Z.log2 r) w) as [Hlt|Hge]; [exact Hlt|].
  rewrite Hhigh in Hbit by exact Hge. discriminate Hbit.
Qed.

Lemma lxor_word (T : WordType) (x y : Z) :
  is_word T x -> is_word T y -> is_word T (Z.lxor x y).
Proof.
  intros Hx Hy. pose proof (width_pos T) as Hw. split.
  - apply Z.lxor_nonneg. unfold is_word in *. lia.
  - apply word_of_bits; [lia|apply Z.lxor_nonneg; unfold is_word in *; lia|].
    intros i Hi. rewrite Z.lxor_spec.
    rewrite (word_testbit_high (width T) x i), (word_testbit_high (width T) y i)
      by (assumption || lia).
    reflexivity.
Qed.

Lemma land_word (T : WordType) (x y : Z) :
  is_word T x -> 0 <= y -> is_word T (Z.land x y).
Proof.
  intros Hx Hy. pose proof (width_pos T) as Hw.
  assert (Hnn : 0 <= Z.land x y) by (apply Z.land_nonneg; left; apply Hx).
  split; [exact Hnn|].
  apply word_of_bits; [lia|exact Hnn|].
  intros i Hi. rewrite Z.land_spec.
  now rewrite (word_testbit_high (width T) x i) by (assumption || lia).
Qed.

Lemma wrap_word (T : WordType) (z : Z) : is_word T (wrap T z).
Proof.
  unfold is_word, wrap. apply Z.mod_pos_bound.
  apply Z.pow_pos_nonneg; [lia|]. pose proof (width_pos T). lia.
Qed.

Lemma testbit_assert_passes (T : WordType) (ua : bool) (n : Z) :
  n < width T -> BitwiseINT.testbit_assert T ua n = Value tt.
Proof.
  intros Hn. unfold BitwiseINT.testbit_assert.
  replace (n <? width T) with true by (symmetry; apply Z.ltb_lt; exact Hn).
  now rewrite andb_false_r.
Qed.

Lemma testbit_value (T : WordType) (ua : bool) (x n : Z) :
  0 <= n < width T -> BitwiseINT.testbit T ua x n = Value (Z.testbit x n).
Proof.
  intros Hn. unfold BitwiseINT.testbit.
  rewrite testbit_assert_passes, SHL_defined by lia. cbn [bind].
  unfold BitwiseINT.AND, wrap.
  rewrite Z.shiftl_1_l, Z.mod_small
    by (split; [apply Z.pow_nonneg; lia|apply Z.pow_lt_mono_r; lia]).
  rewrite land_pow2 by lia. f_equal.
  destruct (Z.testbit x n); [|reflexivity].
  assert (0 < 2 ^ n) by (apply Z.pow_pos_nonneg; lia).
  cbn [negb]. destruct (Z.eqb_spec (2 ^ n) 0); [lia|reflexivity].
Qed.

Lemma uint8_testbit_value (ua : bool) (x n : Z) :
  0 <= n < BitwiseINT_uint8.width ->
  BitwiseINT_uint8.testbit ua x n = Value (Z.testbit x n).
Proof.
  change BitwiseINT_uint8.width with 8. intros Hn.
  unfold BitwiseINT_uint8.testbit, BitwiseINT_uint8.testbit_assert.
  change BitwiseINT_uint8.width with 8.
  replace (n <? 8) with true by (symmetry; apply Z.ltb_lt; lia).
  rewrite andb_false_r. cbn [bind].
  assert (H1 : 0 <= 1 < 2 ^ BitwiseINT_uint8.width)
    by (split; [discriminate|reflexivity]).
  rewrite uint8_SHL_defined
    by (exact H1 || (change BitwiseINT_uint8.width with 8; lia)).
  cbn [bind]. unfold BitwiseINT_uint8.AND, BitwiseINT_uint8.to_uint8.
  change BitwiseINT_uint8.width with 8.
  assert (H0 : 0 < 2 ^ n) by (apply Z.pow_pos_nonneg; lia).
  assert (H8 : 2 ^ n < 2 ^ 8) by (apply Z.pow_lt_mono_r; lia).
  rewrite Z.shiftl_1_l, (Z.mod_small (2 ^ n)) by lia.
  rewrite land_pow2 by lia. f_equal.
  destruct (Z.testbit x n).
  - rewrite Z.mod_small by lia.
    destruct (Z.eqb_spec (2 ^ n) 0); [lia|reflexivity].
  - reflexivity.
Qed.

Lemma uint8_testbit_promoted (x n : Z) :
  BitwiseINT_uint8.width <= n <= 30 ->
  BitwiseINT_uint8.testbit false x n = Value false.
Proof.
  change BitwiseINT_uint8.width with 8. intros Hn.
  unfold BitwiseINT_uint8.testbit, BitwiseINT_uint8.testbit_assert, BitwiseINT_uint8.SHL.
  cbn [andb bind]. change BitwiseINT_uint8.int_width with 32.
  replace (n <? 32) with true by (symmetry; apply Z.ltb_lt; lia).
  rewrite Z.shiftl_1_l.
  replace (2 ^ n <? 2 ^ (32 - 1)) with true
    by (symmetry; apply Z.ltb_lt; apply Z.pow_lt_mono_r; lia).
  cbn [bind]. unfold BitwiseINT_uint8.AND, BitwiseINT_uint8.to_uint8.
  change BitwiseINT_uint8.width with 8.
  replace (2 ^ n mod 2 ^ 8) with 0.
  - now rewrite Z.land_0_r.
  - symmetry. replace n with ((n - 8) + 8) by lia.
    rewrite Z.pow_add_r by lia. apply Z.mod_mul. discriminate.
Qed.

(** X1.  [testbit(x, n)] is bit [n] of [x] for every index below the width,
    on each of the three backends, and with [USE_ASSERT] an index at or
    above the width stops in the assertion.  Without [USE_ASSERT] such an
    index is undefined on the 32- and 64-bit backends, where it never
    yields a value; on the 8-bit backend the mask [SHL(1, n)] is computed
    in the promoted [int] and cut down to a byte, so that the indices from
    8 to 30 yield [false], and the shift is undefined from 32 on. *)
Theorem testbit_contract (T : WordType) (x n : Z) :
  (0 <= n < width T ->
     forall ua, BitwiseINT.testbit T ua x n = Value (Z.testbit x n)) /\
  (width T <= n ->
     BitwiseINT.testbit T true x n = AssertionFailure /\
     BitwiseINT.testbit T false x n = Undefined) /\
  (0 <= n < BitwiseINT_uint8.width ->
     forall ua, BitwiseINT_uint8.testbit ua x n = Value (Z.testbit x n)) /\
  (BitwiseINT_uint8.width <= n ->
     BitwiseINT_uint8.testbit true x n = AssertionFailure) /\
  (BitwiseINT_uint8.width <= n <= 30 ->
     BitwiseINT_uint8.testbit false x n = Value false) /\
  (BitwiseINT_uint8.int_width <= n ->
     BitwiseINT_uint8.testbit false x n = Undefined).
Proof.
  split; [|split; [|split; [|split; [|split]]]].
  - intros Hn ua. apply testbit_value. exact Hn.
  - intros Hn. unfold BitwiseINT.testbit, BitwiseINT.testbit_assert, BitwiseINT.SHL.
    replace (n <? width T) with false by (symmetry; apply Z.ltb_ge; exact Hn).
    split; reflexivity.
  - intros Hn ua. apply uint8_testbit_value. exact Hn.
  - intros Hn. unfold BitwiseINT_uint8.testbit, BitwiseINT_uint8.testbit_assert.
    replace (n <? BitwiseINT_uint8.width) with false
      by (symmetry; apply Z.ltb_ge; exact Hn).
    reflexivity.
  - apply uint8_testbit_promoted.
  - intros Hn. unfold BitwiseINT_uint8.testbit, BitwiseINT_uint8.testbit_assert,
      BitwiseINT_uint8.SHL.
    replace (n <? BitwiseINT_uint8.int_width) with false
      by (symmetry; apply Z.ltb_ge; exact Hn).
    reflexivity.
Qed.

Lemma testbit_contract_witness :
  (0 <= 31 < width uint32_t /\ width uint32_t <= 32 /\
   BitwiseINT.testbit uint32_t true 0x80000000 31 = Value true /\
   BitwiseINT.testbit uint32_t true 0x80000000 32 = AssertionFailure /\
   BitwiseINT.testbit uint32_t false 0x80000000 32 = Undefined) /\
  (0 <= 7 < BitwiseINT_uint8.width /\ BitwiseINT_uint8.width <= 8 <= 30 /\
   BitwiseINT_uint8.int_width <= 32 /\
   BitwiseINT_uint8.testbit false 0xff 7 = Value true /\
   BitwiseINT_uint8.testbit true 0xff 8 = AssertionFailure /\
   BitwiseINT_uint8.testbit false 0xff 8 = Value false /\
   BitwiseINT_uint8.testbit false 0xff 32 = Undefined).
Proof.
  assert (H31 : 0 <= 31 < width uint32_t) by (vm_compute; split; [discriminate|reflexivity]).
  assert (H32 : width uint32_t <= 32) by (vm_compute; discriminate).
  assert (B7 : 0 <= 7 < BitwiseINT_uint8.width)
    by (vm_compute; split; [discriminate|reflexivity]).
  assert (B8 : BitwiseINT_uint8.width <= 8 <= 30) by (vm_compute; split; discriminate).
  assert (B32 : BitwiseINT_uint8.int_width <= 32) by (vm_compute; discriminate).
  split.
  - split; [exact H31|]. split; [exact H32|]. split.
    + exact (proj1 (testbit_contract uint32_t 0x80000000 31) H31 true).
    + exact (proj1 (proj2 (testbit_contract uint32_t 0x80000000 32)) H32).
  - split; [exact B7|]. split; [exact B8|]. split; [exact B32|].
    split; [|split; [|split]].
    + exact (proj1 (proj2 (proj2 (testbit_contract uint32_t 0xff 7))) B7 false).
    + exact (proj1 (proj2 (proj2 (proj2 (testbit_contract uint32_t 0xff 8)))) (proj1 B8)).
    + exact (proj1 (proj2 (proj2 (proj2 (proj2 (testbit_contract uint32_t 0xff 8))))) B8).
    + exact (proj2 (proj2 (proj2 (proj2 (proj2 (testbit_contract uint32_t 0xff 32))))) B32).
Defined.

(** ** BitwiseINT: rotations and shifts undo each other *)

Lemma rotate_right_left (w x n : Z) :
  0 <= x < 2 ^ w -> 0 < n < w -> rotate_right w (rotate_left w x n) n = x.
Proof.
  intros Hx Hn. apply Z.bits_inj'. intros i Hi.
  destruct (Z.lt_ge_cases i w) as [Hlt|Hge].
  - rewrite rotate_right_spec by lia.
    rewrite rotate_left_spec by (apply Z.mod_pos_bound; lia).
    f_equal.
    destruct (Z.lt_ge_cases (i + n) w) as [Hin|Hin].
    + rewrite (Z.mod_small (i + n)) by lia.
      replace (i + n - n) with i by lia. apply Z.mod_small. lia.
    + rewrite (mod_above (i + n)) by lia.
      rewrite mod_below by lia. lia.
  - rewrite (word_testbit_high w x i) by lia.
    apply (word_testbit_high w); [apply rotate_right_word|]; lia.
Qed.

Lemma rotate_left_right (w x n : Z) :
  0 <= x < 2 ^ w -> 0 < n < w -> rotate_left w (rotate_right w x n) n = x.
Proof.
  intros Hx Hn. apply Z.bits_inj'. intros i Hi.
  destruct (Z.lt_ge_cases i w) as [Hlt|Hge].
  - rewrite rotate_left_spec by lia.
    rewrite rotate_right_spec by (apply Z.mod_pos_bound; lia).
    f_equal.
    destruct (Z.lt_ge_cases i n) as [Hin|Hin].
    + rewrite (mod_below (i - n)) by lia.
      rewrite mod_above by lia. lia.
    + rewrite (Z.mod_small (i - n)) by lia.
      replace (i - n + n) with i by lia. apply Z.mod_small. lia.
  - rewrite (word_testbit_high w x i) by lia.
    apply (word_testbit_high w); [apply rotate_left_word|]; lia.
Qed.

Lemma rotate_left_as_right (w x n : Z) :
  0 < n < w -> rotate_left w x n = rotate_right w x (w - n).
Proof.
  intros Hn. apply Z.bits_inj'. intros i Hi.
  destruct (Z.lt_ge_cases i w) as [Hlt|Hge].
  - rewrite rotate_left_spec, rotate_right_spec by lia. f_equal.
    replace (i + (w - n)) with (i - n + 1 * w) by lia.
    now rewrite Z.mod_add by lia.
  - rewrite (word_testbit_high w (rotate_left w x n) i)
      by (try apply rotate_left_word; lia).
    symmetry. apply (word_testbit_high w); [apply rotate_right_word|]; lia.
Qed.

(** X2.  For an amount strictly between 0 and the width, [ROTR] undoes
    [ROTL] and [ROTL] undoes [ROTR] on every word. *)
Theorem ROTL_ROTR_inverse (T : WordType) (ua : bool) (x n : Z) :
  is_word T x -> 0 < n < width T ->
  (r <- BitwiseINT.ROTL T ua x n ;; BitwiseINT.ROTR T ua r n) = Value x /\
  (r <- BitwiseINT.ROTR T ua x n ;; BitwiseINT.ROTL T ua r n) = Value x.
Proof.
  intros Hx Hn. pose proof (width_pos T) as Hw. split.
  - rewrite ROTL_rotates by assumption. cbn [bind].
    rewrite ROTR_rotates by (try apply rotate_left_word; lia).
    now rewrite rotate_right_left.
  - rewrite ROTR_rotates by assumption. cbn [bind].
    rewrite ROTL_rotates by (try apply rotate_right_word; lia).
    now rewrite rotate_left_right.
Qed.

Lemma ROTL_ROTR_inverse_witness :
  is_word uint64_t 0x0123456789abcdef /\ 0 < 20 < width uint64_t /\
  (r <- BitwiseINT.ROTL uint64_t false 0x0123456789abcdef 20 ;;
   BitwiseINT.ROTR uint64_t false r 20) = Value 0x0123456789abcdef.
Proof.
  assert (Hx : is_word uint64_t 0x0123456789abcdef)
    by (vm_compute; split; [discriminate|reflexivity]).
  assert (Hn : 0 < 20 < width uint64_t) by (vm_compute; split; reflexivity).
  split; [exact Hx|]. split; [exact Hn|].
  exact (proj1 (ROTL_ROTR_inverse uint64_t false 0x0123456789abcdef 20 Hx Hn)).
Defined.

(** X3.  Rotating a word left by [n] is rotating it right by
    [width - n], for every amount strictly between 0 and the width. *)
Theorem ROTL_is_ROTR_complement (T : WordType) (ua : bool) (x n : Z) :
  is_word T x -> 0 < n < width T ->
  BitwiseINT.ROTL T ua x n = BitwiseINT.ROTR T ua x (width T - n).
Proof.
  intros Hx Hn.
  rewrite ROTL_rotates, ROTR_rotates by (assumption || lia).
  now rewrite rotate_left_as_right.
Qed.

Lemma ROTL_is_ROTR_complement_witness :
  is_word uint32_t 0xdeadbeef /\ 0 < 5 < width uint32_t /\
  BitwiseINT.ROTL uint32_t true 0xdeadbeef 5
  = BitwiseINT.ROTR uint32_t true 0xdeadbeef (width uint32_t - 5).
Proof.
  assert (Hx : is_word uint32_t 0xdeadbeef) by (vm_compute; split; [discriminate|reflexivity]).
  assert (Hn : 0 < 5 < width uint32_t) by (vm_compute; split; reflexivity).
  split; [exact Hx|]. split; [exact Hn|].
  exact (ROTL_is_ROTR_complement uint32_t true 0xdeadbeef 5 Hx Hn).
Defined.

Lemma pow2_split (w n : Z) : 0 <= n <= w -> 2 ^ w = 2 ^ (w - n) * 2 ^ n.
Proof.
  intros Hn. rewrite <- Z.pow_add_r by lia. f_equal. lia.
Qed.

(** X4.  A left shift followed by the right shift by the same count keeps
    the low [width - n] bits of a word and clears the others; a right shift
    followed by the left shift clears the low [n] bits.  Both are defined
    for every count below the width, and the left shift of any integer is a
    word. *)
Theorem SHL_SHR_compose (T : WordType) (x n : Z) :
  is_word T x -> 0 <= n < width T ->
  (s <- BitwiseINT.SHL T x n ;; BitwiseINT.SHR T s n) = Value (x mod 2 ^ (width T - n)) /\
  (s <- BitwiseINT.SHR T x n ;; BitwiseINT.SHL T s n) = Value (x - x mod 2 ^ n) /\
  (exists s, BitwiseINT.SHL T x n = Value s /\ is_word T s).
Proof.
  intros Hx Hn.
  assert (Hp : 0 < 2 ^ n) by (apply Z.pow_pos_nonneg; lia).
  assert (Hq : 0 < 2 ^ (width T - n)) by (apply Z.pow_pos_nonneg; lia).
  rewrite SHL_defined, SHR_defined by lia. cbn [bind].
  rewrite SHL_defined, SHR_defined by lia.
  unfold wrap. rewrite !Z.shiftl_mul_pow2, !Z.shiftr_div_pow2 by lia.
  rewrite (pow2_split (width T) n) by lia.
  split; [|split].
  - f_equal. rewrite Z.mul_mod_distr_r by lia. apply Z.div_mul. lia.
  - f_equal. rewrite Z.mul_mod_distr_r by lia.
    rewrite Z.mod_small.
    + pose proof (Z.div_mod x (2 ^ n)). lia.
    + split; [apply Z.div_pos; [apply Hx|lia]|].
      apply Z.div_lt_upper_bound; [lia|].
      destruct Hx as [_ Hx]. rewrite (pow2_split (width T) n) in Hx by lia. lia.
  - eexists. split; [reflexivity|].
    rewrite <- (pow2_split (width T) n) by lia. apply wrap_word.
Qed.

Lemma SHL_SHR_compose_witness :
  is_word uint32_t 0xdeadbeef /\ 0 <= 8 < width uint32_t /\
  (s <- BitwiseINT.SHL uint32_t 0xdeadbeef 8 ;; BitwiseINT.SHR uint32_t s 8)
  = Value 0x00adbeef /\
  (s <- BitwiseINT.SHR uint32_t 0xdeadbeef 8 ;; BitwiseINT.SHL uint32_t s 8)
  = Value 0xdeadbe00.
Proof.
  assert (Hx : is_word uint32_t 0xdeadbeef) by (vm_compute; split; [discriminate|reflexivity]).
  assert (Hn : 0 <= 8 < width uint32_t) by (vm_compute; split; [discriminate|reflexivity]).
  pose proof (SHL_SHR_compose uint32_t 0xdeadbeef 8 Hx Hn) as H.
  split; [exact Hx|]. split; [exact Hn|].
  split; [exact (proj1 H)|exact (proj1 (proj2 H))].
Defined.

(** ** BitwiseINT: complement, arithmetic and masks *)

Lemma pow2_width_pos (T : WordType) : 0 < 2 ^ width T.
Proof. apply Z.pow_pos_nonneg; [lia|]. pose proof (width_pos T). lia. Qed.

Lemma CMPLMNT_value (T : WordType) (x : Z) :
  is_word T x -> BitwiseINT.CMPLMNT T x = 2 ^ width T - 1 - x.
Proof.
  intros Hx. unfold BitwiseINT.CMPLMNT, wrap, Z.lnot, is_word in *.
  rewrite <- Z.sub_1_r. rewrite mod_below by lia. lia.
Qed.

Lemma all_ones (T : WordType) : wrap T (-1) = Z.ones (width T).
Proof.
  pose proof (pow2_width_pos T). unfold wrap.
  rewrite Z.ones_equiv, mod_below by lia. lia.
Qed.

(** X5.  On words the complement is [2^width - 1 - x]; it is its own
    inverse, a word and its complement share no bit, and together they
    fill the mask [bitmask(true)]. *)
Theorem CMPLMNT_involution (T : WordType) (x : Z) :
  is_word T x ->
  BitwiseINT.CMPLMNT T x = 2 ^ width T - 1 - x /\
  is_word T (BitwiseINT.CMPLMNT T x) /\
  BitwiseINT.CMPLMNT T (BitwiseINT.CMPLMNT T x) = x /\
  BitwiseINT.AND x (BitwiseINT.CMPLMNT T x) = 0 /\
  BitwiseINT.XOR x (BitwiseINT.CMPLMNT T x) = BitwiseINT.bitmask T true /\
  BitwiseINT.OR x (BitwiseINT.CMPLMNT T x) = BitwiseINT.bitmask T true.
Proof.
  intros Hx. pose proof (width_pos T) as Hw.
  assert (Hc : is_word T (BitwiseINT.CMPLMNT T x)) by apply wrap_word.
  split; [apply CMPLMNT_value; exact Hx|]. split; [exact Hc|]. split.
  { rewrite (CMPLMNT_value T (BitwiseINT.CMPLMNT T x)) by exact Hc.
    rewrite CMPLMNT_value by exact Hx. lia. }
  unfold BitwiseINT.AND, BitwiseINT.XOR, BitwiseINT.OR, BitwiseINT.bitmask.
  rewrite all_ones.
  unfold BitwiseINT.CMPLMNT, wrap.
  split; [|split]; apply Z.bits_inj'; intros i Hi;
    rewrite ?Z.land_spec, ?Z.lxor_spec, ?Z.lor_spec, ?Z.bits_0, ?Z.testbit_ones_nonneg
      by lia;
    (destruct (Z.lt_ge_cases i (width T)) as [Hlt|Hge];
     [ rewrite Z.mod_pow2_bits_low, Z.lnot_spec by lia;
       replace (i <? width T) with true by (symmetry; apply Z.ltb_lt; lia);
       destruct (Z.testbit x i); reflexivity
     | rewrite Z.mod_pow2_bits_high by lia;
       rewrite (word_testbit_high (width T) x i) by (assumption || lia);
       replace (i <? width T) with false by (symmetry; apply Z.ltb_ge; lia);
       reflexivity ]).
Qed.

Lemma CMPLMNT_involution_witness :
  is_word uint32_t 0x0f0f0f0f /\
  BitwiseINT.CMPLMNT uint32_t 0x0f0f0f0f = 0xf0f0f0f0 /\
  BitwiseINT.CMPLMNT uint32_t (BitwiseINT.CMPLMNT uint32_t 0x0f0f0f0f) = 0x0f0f0f0f.
Proof.
  assert (Hx : is_word uint32_t 0x0f0f0f0f) by (vm_compute; split; [discriminate|reflexivity]).
  pose proof (CMPLMNT_involution uint32_t 0x0f0f0f0f Hx) as H.
  split; [exact Hx|]. split; [exact (proj1 H)|exact (proj1 (proj2 (proj2 H)))].
Defined.

(** X6.  [ADDMOD], [MULMOD] and [negate] are the operations of the ring of
    integers modulo [2^width].  Each result is the word that differs from
    the sum, the product or the negative of the arguments by a multiple of
    [2^width]; on words, the sum is [x + y] less [2^width] when it carries,
    0 is neutral for [ADDMOD] and 1 for [MULMOD], and [negate] takes 0 to 0
    and every other word to [2^width - x].  Addition and multiplication are
    commutative and associative, multiplication distributes over addition,
    and [negate] gives the additive inverse. *)
Theorem ADDMOD_MULMOD_ring (T : WordType) (x y z : Z) :
  BitwiseINT.ADDMOD T x y = BitwiseINT.ADDMOD T y x /\
  BitwiseINT.ADDMOD T (BitwiseINT.ADDMOD T x y) z
  = BitwiseINT.ADDMOD T x (BitwiseINT.ADDMOD T y z) /\
  BitwiseINT.MULMOD T x y = BitwiseINT.MULMOD T y x /\
  BitwiseINT.MULMOD T (BitwiseINT.MULMOD T x y) z
  = BitwiseINT.MULMOD T x (BitwiseINT.MULMOD T y z) /\
  BitwiseINT.MULMOD T x (BitwiseINT.ADDMOD T y z)
  = BitwiseINT.ADDMOD T (BitwiseINT.MULMOD T x y) (BitwiseINT.MULMOD T x z) /\
  BitwiseINT.ADDMOD T x (BitwiseINT.negate T x) = 0 /\
  is_word T (BitwiseINT.ADDMOD T x y) /\
  is_word T (BitwiseINT.MULMOD T x y) /\
  is_word T (BitwiseINT.negate T x) /\
  (exists q, x + y = q * 2 ^ width T + BitwiseINT.ADDMOD T x y) /\
  (exists q, x * y = q * 2 ^ width T + BitwiseINT.MULMOD T x y) /\
  (exists q, - x = q * 2 ^ width T + BitwiseINT.negate T x) /\
  (is_word T x -> is_word T y ->
     BitwiseINT.ADDMOD T x y
     = (if x + y <? 2 ^ width T then x + y else x + y - 2 ^ width T) /\
     BitwiseINT.ADDMOD T x 0 = x /\
     BitwiseINT.ADDMOD T 0 x = x /\
     BitwiseINT.MULMOD T x 1 = x /\
     BitwiseINT.MULMOD T 1 x = x /\
     BitwiseINT.MULMOD T x 0 = 0 /\
     (x * y < 2 ^ width T -> BitwiseINT.MULMOD T x y = x * y) /\
     BitwiseINT.negate T x = (if x =? 0 then 0 else 2 ^ width T - x)).
Proof.
  pose proof (pow2_width_pos T) as Hp.
  unfold BitwiseINT.ADDMOD, BitwiseINT.MULMOD, BitwiseINT.negate.
  repeat match goal with |- _ /\ _ => split end; try apply wrap_word; unfold wrap.
  - f_equal. lia.
  - rewrite Z.add_mod_idemp_l, Z.add_mod_idemp_r by lia. f_equal. lia.
  - f_equal. lia.
  - rewrite Z.mul_mod_idemp_l, Z.mul_mod_idemp_r by lia. f_equal. lia.
  - rewrite Z.mul_mod_idemp_r by lia. rewrite <- Z.add_mod by lia. f_equal. lia.
  - rewrite Z.add_mod_idemp_r by lia. replace (x + - x) with 0 by lia.
    apply Z.mod_0_l. lia.
  - exists ((x + y) / 2 ^ width T).
    rewrite (Z.div_mod (x + y) (2 ^ width T)) at 1 by lia. lia.
  - exists ((x * y) / 2 ^ width T).
    rewrite (Z.div_mod (x * y) (2 ^ width T)) at 1 by lia. lia.
  - exists ((- x) / 2 ^ width T).
    rewrite (Z.div_mod (- x) (2 ^ width T)) at 1 by lia. lia.
  - intros Hx Hy. unfold is_word in *.
    repeat match goal with |- _ /\ _ => split end.
    + destruct (Z.ltb_spec (x + y) (2 ^ width T)).
      * apply Z.mod_small. lia.
      * apply mod_above. lia.
    + rewrite Z.add_0_r. apply Z.mod_small. exact Hx.
    + rewrite Z.add_0_l. apply Z.mod_small. exact Hx.
    + rewrite Z.mul_1_r. apply Z.mod_small. exact Hx.
    + rewrite Z.mul_1_l. apply Z.mod_small. exact Hx.
    + rewrite Z.mul_0_r. apply Z.mod_0_l. lia.
    + intros Hxy. apply Z.mod_small. split; [apply Z.mul_nonneg_nonneg; lia|exact Hxy].
    + destruct (Z.eqb_spec x 0) as [->|Hnz].
      * apply Z.mod_0_l. lia.
      * rewrite mod_below by lia. lia.
Qed.

Lemma ADDMOD_MULMOD_ring_witness :
  is_word uint32_t 0xffffffff /\ is_word uint32_t 2 /\
  BitwiseINT.ADDMOD uint32_t 0xffffffff 2 = 1 /\
  BitwiseINT.ADDMOD uint32_t 0xffffffff 0 = 0xffffffff /\
  BitwiseINT.MULMOD uint32_t 0xffffffff 1 = 0xffffffff /\
  BitwiseINT.negate uint32_t 0xffffffff = 1.
Proof.
  assert (Hx : is_word uint32_t 0xffffffff) by (vm_compute; split; [discriminate|reflexivity]).
  assert (Hy : is_word uint32_t 2) by (vm_compute; split; [discriminate|reflexivity]).
  pose proof (proj2 (proj2 (proj2 (proj2 (proj2 (proj2 (proj2 (proj2 (proj2
                (proj2 (proj2 (proj2
                  (ADDMOD_MULMOD_ring uint32_t 0xffffffff 2 0)))))))))))) Hx Hy) as H.
  split; [exact Hx|]. split; [exact Hy|].
  split; [exact (proj1 H)|].
  split; [exact (proj1 (proj2 H))|].
  split; [exact (proj1 (proj2 (proj2 (proj2 H))))|].
  exact (proj2 (proj2 (proj2 (proj2 (proj2 (proj2 (proj2 H))))))).
Defined.

(** X7.  [negate] is the two's complement: the complement plus one, for
    every integer. *)
Theorem negate_twos_complement (T : WordType) (x : Z) :
  BitwiseINT.negate T x = BitwiseINT.ADDMOD T (BitwiseINT.CMPLMNT T x) 1.
Proof.
  pose proof (pow2_width_pos T) as Hp.
  unfold BitwiseINT.negate, BitwiseINT.ADDMOD, BitwiseINT.CMPLMNT, wrap, Z.lnot.
  rewrite Z.add_mod_idemp_l by lia. f_equal. lia.
Qed.

(** X8.  [bitmask(b)] is [negate(xword(b))], and masking with it selects:
    for words, [ternary(b, x, y)] is [AND(x, bitmask(b))] combined by [OR]
    or by [XOR] with [AND(y, bitmask(!b))]. *)
Theorem bitmask_selects (T : WordType) (b : bool) (x y : Z) :
  is_word T x -> is_word T y ->
  BitwiseINT.bitmask T b = BitwiseINT.negate T (BitwiseINT.xword_bool b) /\
  BitwiseINT.ternary b x y
  = BitwiseINT.OR (BitwiseINT.AND x (BitwiseINT.bitmask T b))
                  (BitwiseINT.AND y (BitwiseINT.bitmask T (BitwiseINT.logicalNOT b))) /\
  BitwiseINT.ternary b x y
  = BitwiseINT.XOR (BitwiseINT.AND x (BitwiseINT.bitmask T b))
                   (BitwiseINT.AND y (BitwiseINT.bitmask T (BitwiseINT.logicalNOT b))).
Proof.
  intros Hx Hy. pose proof (width_pos T) as Hw. pose proof (pow2_width_pos T) as Hp.
  assert (Hmask : forall v, is_word T v -> Z.land v (wrap T (-1)) = v).
  { intros v Hv. rewrite all_ones, Z.land_ones by lia. apply Z.mod_small. exact Hv. }
  unfold BitwiseINT.bitmask, BitwiseINT.negate, BitwiseINT.xword_bool,
    BitwiseINT.ternary, BitwiseINT.OR, BitwiseINT.XOR, BitwiseINT.AND,
    BitwiseINT.logicalNOT.
  destruct b; cbn [negb].
  - rewrite Hmask, Z.land_0_r, Z.lor_0_r, Z.lxor_0_r by exact Hx. auto.
  - rewrite Hmask, Z.land_0_r, Z.lor_0_l, Z.lxor_0_l by exact Hy.
    repeat split.
Qed.

Lemma bitmask_selects_witness :
  is_word uint32_t 0xaaaa5555 /\ is_word uint32_t 0x12345678 /\
  BitwiseINT.bitmask uint32_t true = 0xffffffff /\
  BitwiseINT.ternary false 0xaaaa5555 0x12345678
  = BitwiseINT.XOR
      (BitwiseINT.AND 0xaaaa5555 (BitwiseINT.bitmask uint32_t false))
      (BitwiseINT.AND 0x12345678 (BitwiseINT.bitmask uint32_t (BitwiseINT.logicalNOT false))).
Proof.
  assert (Hx : is_word uint32_t 0xaaaa5555) by (vm_compute; split; [discriminate|reflexivity]).
  assert (Hy : is_word uint32_t 0x12345678) by (vm_compute; split; [discriminate|reflexivity]).
  split; [exact Hx|]. split; [exact Hy|]. split.
  - exact (proj1 (bitmask_selects uint32_t true 0xaaaa5555 0x12345678 Hx Hy)).
  - exact (proj2 (proj2 (bitmask_selects uint32_t false 0xaaaa5555 0x12345678 Hx Hy))).
Defined.

(** ** BitwiseINT: multiplication in GF(2^n) *)

Ltac bitwise :=
  apply Z.bits_inj'; intros ?i ?Hi;
  rewrite ?Z.lxor_spec, ?Z.land_spec, ?Z.lor_spec, ?Z.bits_0;
  repeat match goal with
         | |- context [Z.testbit ?a ?j] => destruct (Z.testbit a j)
         end;
  reflexivity.

Lemma top_bit_index (T : WordType) :
  to_unsigned_int (to_size_t (width T - 1)) = width T - 1.
Proof. destruct T; reflexivity. Qed.

Lemma xtime_value (T : WordType) (ua : bool) (a modpoly : Z) :
  BitwiseINT.xtime T ua a modpoly = Value (times_X T a modpoly).
Proof.
  pose proof (width_pos T) as Hw.
  assert (H1 : 1 < width T) by (destruct T; reflexivity).
  unfold BitwiseINT.xtime, times_X.
  rewrite top_bit_index, testbit_value by lia. cbn [bind].
  rewrite SHL_defined by exact H1.
  destruct (Z.testbit a (width T - 1)); cbn [bind]; unfold BitwiseINT.XOR.
  - reflexivity.
  - now rewrite Z.lxor_0_r.
Qed.

Lemma times_X_word (T : WordType) (a modpoly : Z) :
  is_word T modpoly -> is_word T (times_X T a modpoly).
Proof.
  intros Hm. unfold times_X. apply lxor_word; [apply wrap_word|].
  destruct (Z.testbit a (width T - 1)); [exact Hm|].
  pose proof (pow2_width_pos T). unfold is_word. lia.
Qed.

Lemma wrap_lxor (T : WordType) (a b : Z) :
  wrap T (Z.lxor a b) = Z.lxor (wrap T a) (wrap T b).
Proof.
  pose proof (width_pos T) as Hw. unfold wrap.
  apply Z.bits_inj'. intros i Hi. rewrite Z.lxor_spec.
  destruct (Z.lt_ge_cases i (width T)) as [Hlt|Hge].
  - rewrite !Z.mod_pow2_bits_low by lia. apply Z.lxor_spec.
  - now rewrite !Z.mod_pow2_bits_high by lia.
Qed.

Lemma times_X_lxor (T : WordType) (a b modpoly : Z) :
  times_X T (Z.lxor a b) modpoly
  = Z.lxor (times_X T a modpoly) (times_X T b modpoly).
Proof.
  unfold times_X.
  rewrite Z.shiftl_lxor, wrap_lxor, Z.lxor_spec.
  destruct (Z.testbit a (width T - 1)), (Z.testbit b (width T - 1)); cbn [xorb];
    bitwise.
Qed.

Lemma gf_mul_zero_r (T : WordType) (k : nat) :
  forall x modpoly, gf_mul T k x 0 modpoly = 0.
Proof.
  induction k as [|k IH]; intros x modpoly; [reflexivity|].
  cbn [gf_mul]. rewrite Z.bits_0, Z.shiftr_0_l, IH. reflexivity.
Qed.

Lemma multiply_loop_closed (T : WordType) (ua : bool) (modpoly : Z) (k : nat) :
  forall (fuel : nat) (xtmp ytmp xorsum : Z),
    0 <= ytmp < 2 ^ Z.of_nat k -> (k <= fuel)%nat ->
    BitwiseINT.multiply_loop T fuel ua modpoly xtmp ytmp xorsum
    = Value (Z.lxor xorsum (gf_mul T k xtmp ytmp modpoly)).
Proof.
  pose proof (width_pos T) as Hw.
  assert (H1 : 1 < width T) by (destruct T; reflexivity).
  induction k as [|k IH]; intros fuel xtmp ytmp xorsum Hy Hfuel.
  - assert (ytmp = 0) by (change (2 ^ Z.of_nat 0) with 1 in Hy; lia). subst ytmp.
    cbn [gf_mul]. rewrite Z.lxor_0_r. destruct fuel; reflexivity.
  - destruct (Z.eq_dec ytmp 0) as [->|Hnz].
    { rewrite gf_mul_zero_r, Z.lxor_0_r. destruct fuel; reflexivity. }
    destruct fuel as [|fuel]; [lia|].
    cbn [BitwiseINT.multiply_loop gf_mul].
    replace (ytmp =? 0) with false by (symmetry; apply Z.eqb_neq; exact Hnz).
    cbn [negb].
    rewrite testbit_value, SHR_defined, xtime_value by lia. cbn [bind].
    rewrite IH.
    + f_equal. unfold BitwiseINT.XOR.
      destruct (Z.testbit ytmp 0); [|now rewrite Z.lxor_0_l].
      now rewrite Z.lxor_assoc.
    + rewrite Z.shiftr_div_pow2 by lia. change (2 ^ 1) with 2.
      rewrite Nat2Z.inj_succ, Z.pow_succ_r in Hy by lia.
      split; [apply Z.div_pos; lia|apply Z.div_lt_upper_bound; lia].
    + lia.
Qed.

Lemma gf_mul_word (T : WordType) (k : nat) :
  forall x y modpoly,
    is_word T x -> is_word T modpoly -> is_word T (gf_mul T k x y modpoly).
Proof.
  induction k as [|k IH]; intros x y modpoly Hx Hm; cbn [gf_mul].
  - pose proof (pow2_width_pos T). unfold is_word. lia.
  - apply lxor_word.
    + destruct (Z.testbit y 0); [exact Hx|].
      pose proof (pow2_width_pos T). unfold is_word. lia.
    + apply IH; [apply times_X_word|]; exact Hm.
Qed.

Lemma gf_mul_lxor_l (T : WordType) (k : nat) :
  forall x1 x2 y modpoly,
    gf_mul T k (Z.lxor x1 x2) y modpoly
    = Z.lxor (gf_mul T k x1 y modpoly) (gf_mul T k x2 y modpoly).
Proof.
  induction k as [|k IH]; intros x1 x2 y modpoly; cbn [gf_mul]; [reflexivity|].
  rewrite times_X_lxor, IH.
  destruct (Z.testbit y 0); bitwise.
Qed.

Lemma gf_mul_lxor_r (T : WordType) (k : nat) :
  forall x y1 y2 modpoly,
    gf_mul T k x (Z.lxor y1 y2) modpoly
    = Z.lxor (gf_mul T k x y1 modpoly) (gf_mul T k x y2 modpoly).
Proof.
  induction k as [|k IH]; intros x y1 y2 modpoly; cbn [gf_mul]; [reflexivity|].
  rewrite Z.shiftr_lxor, IH, Z.lxor_spec.
  destruct (Z.testbit y1 0), (Z.testbit y2 0); cbn [xorb]; bitwise.
Qed.

Lemma word_as_nat_bound (T : WordType) (y : Z) :
  is_word T y -> 0 <= y < 2 ^ Z.of_nat (Z.to_nat (width T)).
Proof.
  intros Hy. pose proof (width_pos T). rewrite Z2Nat.id by lia. exact Hy.
Qed.

Lemma multiply_loop_closed_start (T : WordType) (ua : bool) (fuel : nat)
      (x y modpoly : Z) :
  is_word T y -> (Z.to_nat (width T) <= fuel)%nat ->
  BitwiseINT.multiply T fuel ua x y modpoly
  = Value (gf_mul T (Z.to_nat (width T)) x y modpoly).
Proof.
  intros Hy Hfuel. unfold BitwiseINT.multiply.
  rewrite (multiply_loop_closed T ua modpoly (Z.to_nat (width T)))
    by (try apply word_as_nat_bound; assumption).
  now rewrite Z.lxor_0_l.
Qed.

(** X9.  [multiply] ends for every word [y] within [width] turns of its
    loop, without leaving defined behaviour: its result is the sum (XOR)
    over the set bits [i] of [y] of [x] times X^i, each reduced by
    [modpoly], and is a word when [x] and [modpoly] are. *)
Theorem multiply_total (T : WordType) (ua : bool) (fuel : nat) (x y modpoly : Z) :
  is_word T y -> (Z.to_nat (width T) <= fuel)%nat ->
  BitwiseINT.multiply T fuel ua x y modpoly
  = Value (gf_mul T (Z.to_nat (width T)) x y modpoly) /\
  (is_word T x -> is_word T modpoly ->
   is_word T (gf_mul T (Z.to_nat (width T)) x y modpoly)).
Proof.
  intros Hy Hfuel. split.
  - apply multiply_loop_closed_start; assumption.
  - apply gf_mul_word.
Qed.

Lemma multiply_total_witness :
  is_word uint32_t 0x53 /\ (Z.to_nat (width uint32_t) <= 32)%nat /\
  BitwiseINT.multiply uint32_t 32 true 0x80000057 0x53 0x1b = Value 0x800013ea.
Proof.
  assert (Hy : is_word uint32_t 0x53) by (vm_compute; split; [discriminate|reflexivity]).
  assert (Hf : (Z.to_nat (width uint32_t) <= 32)%nat) by (vm_compute; apply le_n).
  split; [exact Hy|]. split; [exact Hf|].
  exact (proj1 (multiply_total uint32_t true 32 0x80000057 0x53 0x1b Hy Hf)).
Defined.

(** X10.  [multiply] is linear over [XOR] in each factor: with enough fuel
    for the width, the product with [XOR(x1, x2)] is the [XOR] of the
    products with [x1] and [x2], and the same holds for the second factor. *)
Theorem multiply_bilinear (T : WordType) (ua : bool) (fuel : nat)
        (x1 x2 y1 y2 modpoly : Z) :
  is_word T y1 -> is_word T y2 -> (Z.to_nat (width T) <= fuel)%nat ->
  BitwiseINT.multiply T fuel ua (BitwiseINT.XOR x1 x2) y1 modpoly
  = (r1 <- BitwiseINT.multiply T fuel ua x1 y1 modpoly ;;
     r2 <- BitwiseINT.multiply T fuel ua x2 y1 modpoly ;;
     Value (BitwiseINT.XOR r1 r2)) /\
  BitwiseINT.multiply T fuel ua x1 (BitwiseINT.XOR y1 y2) modpoly
  = (r1 <- BitwiseINT.multiply T fuel ua x1 y1 modpoly ;;
     r2 <- BitwiseINT.multiply T fuel ua x1 y2 modpoly ;;
     Value (BitwiseINT.XOR r1 r2)).
Proof.
  intros Hy1 Hy2 Hfuel.
  assert (Hy : is_word T (Z.lxor y1 y2)) by (apply lxor_word; assumption).
  assert (Hrun : forall x y, is_word T y ->
            BitwiseINT.multiply T fuel ua x y modpoly
            = Value (gf_mul T (Z.to_nat (width T)) x y modpoly)).
  { intros x y Hw. apply multiply_loop_closed_start; assumption. }
  unfold BitwiseINT.XOR. rewrite !Hrun by assumption. cbn [bind].
  split; f_equal; [apply gf_mul_lxor_l|apply gf_mul_lxor_r].
Qed.

Lemma multiply_bilinear_witness :
  is_word uint32_t 0x53 /\ is_word uint32_t 0xca /\
  (Z.to_nat (width uint32_t) <= 32)%nat /\
  BitwiseINT.multiply uint32_t 32 false (BitwiseINT.XOR 0x80000057 0x13) 0x53 0x1b
  = (r1 <- BitwiseINT.multiply uint32_t 32 false 0x80000057 0x53 0x1b ;;
     r2 <- BitwiseINT.multiply uint32_t 32 false 0x13 0x53 0x1b ;;
     Value (BitwiseINT.XOR r1 r2)).
Proof.
  assert (Hy1 : is_word uint32_t 0x53) by (vm_compute; split; [discriminate|reflexivity]).
  assert (Hy2 : is_word uint32_t 0xca) by (vm_compute; split; [discriminate|reflexivity]).
  assert (Hf : (Z.to_nat (width uint32_t) <= 32)%nat) by (vm_compute; apply le_n).
  split; [exact Hy1|]. split; [exact Hy2|]. split; [exact Hf|].
  exact (proj1 (multiply_bilinear uint32_t false 32 0x80000057 0x13 0x53 0xca 0x1b
                                  Hy1 Hy2 Hf)).
Defined.

(** X11.  The small factors of [multiply]: the product with 0 is 0 and needs
    no turn of the loop, the product with 1 is [x], and the product with 2
    (the polynomial X) is what [xtime] returns. *)
Theorem multiply_small_factors (T : WordType) (ua : bool) (fuel : nat) (x modpoly : Z) :
  BitwiseINT.multiply T fuel ua x 0 modpoly = Value 0 /\
  ((1 <= fuel)%nat -> BitwiseINT.multiply T fuel ua x 1 modpoly = Value x) /\
  ((2 <= fuel)%nat ->
   BitwiseINT.multiply T fuel ua x 2 modpoly = BitwiseINT.xtime T ua x modpoly).
Proof.
  unfold BitwiseINT.multiply. split; [|split].
  - destruct fuel; reflexivity.
  - intros Hfuel.
    rewrite (multiply_loop_closed T ua modpoly 1) by (cbn; lia).
    cbn [gf_mul]. change (Z.testbit 1 0) with true. cbv iota.
    now rewrite Z.lxor_0_l, Z.lxor_0_r.
  - intros Hfuel.
    rewrite (multiply_loop_closed T ua modpoly 2) by (cbn; lia).
    rewrite xtime_value. cbn [gf_mul].
    change (Z.testbit 2 0) with false. change (Z.shiftr 2 1) with 1.
    change (Z.testbit 1 0) with true. cbv iota.
    now rewrite !Z.lxor_0_l, Z.lxor_0_r.
Qed.

Lemma multiply_small_factors_witness :
  (1 <= 1)%nat /\ (2 <= 2)%nat /\
  BitwiseINT.multiply uint64_t 1 true 0x8000000000000001 1 0x1b
  = Value 0x8000000000000001 /\
  BitwiseINT.multiply uint64_t 2 true 0x8000000000000001 2 0x1b
  = BitwiseINT.xtime uint64_t true 0x8000000000000001 0x1b.
Proof.
  split; [apply le_n|]. split; [apply le_n|]. split.
  - exact (proj1 (proj2 (multiply_small_factors uint64_t true 1 0x8000000000000001 0x1b))
                 (le_n 1)).
  - exact (proj2 (proj2 (multiply_small_factors uint64_t true 2 0x8000000000000001 0x1b))
                 (le_n 2)).
Defined.

(** X12.  [_xtime] calls itself and so never returns, whatever its
    arguments, while [xtime], which every other caller uses, always
    returns a value. *)
Theorem xtime_alias_never_returns (T : WordType) (ua : bool) (a modpoly : Z) :
  (forall fuel, BitwiseINT._xtime fuel a modpoly = Unfinished) /\
  (exists v, BitwiseINT.xtime T ua a modpoly = Value v).
Proof.
  split.
  - intros fuel. induction fuel as [|fuel IH]; [reflexivity|exact IH].
  - eexists. apply xtime_value.
Qed.

(** ** SHA_Functions: what the round functions do to the bits *)

(** X13.  Bit by bit, on words: [Ch] chooses the bit of [y] where [x] has a
    one and the bit of [z] where it has a zero, [Maj] is the value two or
    more of the three bits have, and [Parity] tells whether the number of
    ones among them is odd.  The three results are words. *)
Theorem round_functions_bitwise (T : WordType) (x y z i : Z) :
  is_word T x -> is_word T y -> is_word T z -> 0 <= i ->
  Z.testbit (SHA_Functions.Ch T x y z) i
  = (if Z.testbit x i then Z.testbit y i else Z.testbit z i) /\
  Z.testbit (SHA_Functions.Maj x y z) i
  = (Z.testbit x i && Z.testbit y i) || (Z.testbit x i && Z.testbit z i)
    || (Z.testbit y i && Z.testbit z i) /\
  Z.testbit (SHA_Functions.Parity x y z) i
  = xorb (xorb (Z.testbit x i) (Z.testbit y i)) (Z.testbit z i) /\
  is_word T (SHA_Functions.Ch T x y z) /\
  is_word T (SHA_Functions.Maj x y z) /\
  is_word T (SHA_Functions.Parity x y z).
Proof.
  intros Hx Hy Hz Hi. pose proof (width_pos T) as Hw.
  unfold SHA_Functions.Ch, SHA_Functions.Maj, SHA_Functions.Parity,
    BitwiseINT.XOR, BitwiseINT._XOR, BitwiseINT.XOR, BitwiseINT._AND, BitwiseINT.AND,
    BitwiseINT._CMPLMNT, BitwiseINT.CMPLMNT.
  assert (Hnn : forall v, is_word T v -> 0 <= v) by (intros v Hv; apply Hv).
  repeat split; try (apply Hnn; repeat (apply lxor_word || apply land_word
                                        || apply wrap_word || apply Hnn || assumption));
    try (repeat (apply lxor_word || apply land_word || apply wrap_word
                 || apply Hnn || assumption); fail).
  - rewrite Z.lxor_spec, !Z.land_spec. unfold wrap.
    destruct (Z.lt_ge_cases i (width T)) as [Hlt|Hge].
    + rewrite Z.mod_pow2_bits_low, Z.lnot_spec by lia.
      destruct (Z.testbit x i), (Z.testbit y i), (Z.testbit z i); reflexivity.
    + rewrite Z.mod_pow2_bits_high by lia.
      rewrite (word_testbit_high (width T) x i) by (assumption || lia).
      rewrite (word_testbit_high (width T) z i) by (assumption || lia).
      reflexivity.
  - rewrite !Z.lxor_spec, !Z.land_spec.
    destruct (Z.testbit x i), (Z.testbit y i), (Z.testbit z i); reflexivity.
  - now rewrite !Z.lxor_spec.
Qed.

Lemma round_functions_bitwise_witness :
  is_word uint32_t 0xff00ff00 /\ is_word uint32_t 0x12345678 /\
  is_word uint32_t 0x9abcdef0 /\ 0 <= 9 /\
  Z.testbit (SHA_Functions.Ch uint32_t 0xff00ff00 0x12345678 0x9abcdef0) 9
  = Z.testbit 0x12345678 9 /\
  is_word uint32_t (SHA_Functions.Ch uint32_t 0xff00ff00 0x12345678 0x9abcdef0).
Proof.
  assert (Hx : is_word uint32_t 0xff00ff00) by (vm_compute; split; [discriminate|reflexivity]).
  assert (Hy : is_word uint32_t 0x12345678) by (vm_compute; split; [discriminate|reflexivity]).
  assert (Hz : is_word uint32_t 0x9abcdef0) by (vm_compute; split; [discriminate|reflexivity]).
  assert (Hi : 0 <= 9) by discriminate.
  pose proof (round_functions_bitwise uint32_t _ _ _ 9 Hx Hy Hz Hi) as H.
  split; [exact Hx|]. split; [exact Hy|]. split; [exact Hz|]. split; [exact Hi|].
  split; [exact (proj1 H)|exact (proj1 (proj2 (proj2 (proj2 H))))].
Defined.

Lemma rotate_right_lxor (w x y n : Z) :
  0 < w ->
  rotate_right w (Z.lxor x y) n = Z.lxor (rotate_right w x n) (rotate_right w y n).
Proof.
  intros Hw. apply Z.bits_inj'. intros i Hi. rewrite Z.lxor_spec.
  destruct (Z.lt_ge_cases i w) as [Hlt|Hge].
  - rewrite !rotate_right_spec by lia. apply Z.lxor_spec.
  - rewrite !(fun v => word_testbit_high w (rotate_right w v n) i)
      by (try apply rotate_right_word; lia).
    reflexivity.
Qed.

Lemma shiftr_word (T : WordType) (x c : Z) :
  is_word T x -> 0 <= c -> is_word T (Z.shiftr x c).
Proof.
  intros Hx Hc. unfold is_word in *. rewrite Z.shiftr_div_pow2 by exact Hc.
  assert (0 < 2 ^ c) by (apply Z.pow_pos_nonneg; lia).
  split; [apply Z.div_pos; lia|].
  apply Z.le_lt_trans with x; [|lia].
  apply Z.div_le_upper_bound; [lia|]. nia.
Qed.

Lemma rotate_right_is_word (T : WordType) (x n : Z) :
  is_word T (rotate_right (width T) x n).
Proof. apply rotate_right_word. pose proof (width_pos T). lia. Qed.

(** X14.  The mixing functions [SIGMA] and [sigma], of which the eight named
    ones are instances, are linear over [XOR] on words and return words:
    mixing [XOR(x, y)] gives the [XOR] of the two mixed words. *)
Theorem SIGMA_sigma_linear (T : WordType) (ua : bool) (x y a b c : Z) :
  is_word T x -> is_word T y ->
  0 < a < width T -> 0 < b < width T -> 0 < c < width T ->
  SHA_Functions.SIGMA T ua (BitwiseINT.XOR x y) a b c
  = (vx <- SHA_Functions.SIGMA T ua x a b c ;;
     vy <- SHA_Functions.SIGMA T ua y a b c ;;
     Value (BitwiseINT.XOR vx vy)) /\
  SHA_Functions.sigma T ua (BitwiseINT.XOR x y) a b c
  = (vx <- SHA_Functions.sigma T ua x a b c ;;
     vy <- SHA_Functions.sigma T ua y a b c ;;
     Value (BitwiseINT.XOR vx vy)) /\
  (exists v, SHA_Functions.SIGMA T ua x a b c = Value v /\ is_word T v) /\
  (exists v, SHA_Functions.sigma T ua x a b c = Value v /\ is_word T v).
Proof.
  intros Hx Hy Ha Hb Hc. pose proof (width_pos T) as Hw.
  assert (Hxy : is_word T (Z.lxor x y)) by (apply lxor_word; assumption).
  unfold BitwiseINT.XOR.
  rewrite !SIGMA_value, !sigma_value by (assumption || lia). cbn [bind].
  rewrite !rotate_right_lxor, Z.shiftr_lxor by exact Hw.
  split; [f_equal; bitwise|]. split; [f_equal; bitwise|].
  split; eexists; (split; [reflexivity|]);
    repeat apply lxor_word; try apply rotate_right_is_word.
  apply shiftr_word; [exact Hx|lia].
Qed.

Lemma SIGMA_sigma_linear_witness :
  is_word uint32_t 0x6a09e667 /\ is_word uint32_t 0xbb67ae85 /\
  0 < 7 < width uint32_t /\ 0 < 18 < width uint32_t /\ 0 < 3 < width uint32_t /\
  SHA_Functions.sigma uint32_t true (BitwiseINT.XOR 0x6a09e667 0xbb67ae85) 7 18 3
  = (vx <- SHA_Functions.sigma uint32_t true 0x6a09e667 7 18 3 ;;
     vy <- SHA_Functions.sigma uint32_t true 0xbb67ae85 7 18 3 ;;
     Value (BitwiseINT.XOR vx vy)).
Proof.
  assert (Hx : is_word uint32_t 0x6a09e667) by (vm_compute; split; [discriminate|reflexivity]).
  assert (Hy : is_word uint32_t 0xbb67ae85) by (vm_compute; split; [discriminate|reflexivity]).
  assert (Ha : 0 < 7 < width uint32_t) by (vm_compute; split; reflexivity).
  assert (Hb : 0 < 18 < width uint32_t) by (vm_compute; split; reflexivity).
  assert (Hc : 0 < 3 < width uint32_t) by (vm_compute; split; reflexivity).
  split; [exact Hx|]. split; [exact Hy|]. split; [exact Ha|].
  split; [exact Hb|]. split; [exact Hc|].
  exact (proj1 (proj2 (SIGMA_sigma_linear uint32_t true _ _ 7 18 3 Hx Hy Ha Hb Hc))).
Defined.

(** ** SHA_Base: padding and the precondition agree *)

(** X15.  As long as the buffer's bit count fits [std::size_t], [inputOK]
    accepts a buffer exactly when [padNeeded] of its bit count says that no
    padding is needed. *)
Theorem inputOK_iff_no_padNeeded (BLK : SHA_BlockSize) (e : Engine) :
  Z.of_nat (length (m_message e)) * SHA_Base.wordSizeBits BLK < 2 ^ 64 ->
  SHA_Base.inputOK BLK e
  = negb (SHA_Base.padNeeded BLK
            (Z.of_nat (length (m_message e)) * SHA_Base.wordSizeBits BLK)).
Proof.
  intros Hfit. unfold SHA_Base.inputOK, SHA_Base.padNeeded. cbv zeta.
  assert (Hw : 0 < SHA_Base.wordSizeBits BLK) by (destruct BLK; reflexivity).
  unfold to_size_t.
  rewrite (Z.mod_small (Z.of_nat (length (m_message e)) * SHA_Base.wordSizeBits BLK))
    by (split; [apply Z.mul_nonneg_nonneg; lia|exact Hfit]).
  rewrite negb_orb, negb_involutive. f_equal.
  destruct (length (m_message e)) as [|n] eqn:E.
  - reflexivity.
  - cbn [Nat.eqb negb]. symmetry. apply negb_true_iff, Z.eqb_neq. nia.
Qed.

Lemma inputOK_iff_no_padNeeded_witness :
  Z.of_nat (length (m_message (loaded 7 abc_512))) * SHA_Base.wordSizeBits BLOCK_512 < 2 ^ 64 /\
  SHA_Base.inputOK BLOCK_512 (loaded 7 abc_512)
  = negb (SHA_Base.padNeeded BLOCK_512
            (Z.of_nat (length (m_message (loaded 7 abc_512)))
             * SHA_Base.wordSizeBits BLOCK_512)).
Proof.
  assert (H : Z.of_nat (length (m_message (loaded 7 abc_512)))
              * SHA_Base.wordSizeBits BLOCK_512 < 2 ^ 64) by reflexivity.
  split; [exact H|].
  exact (inputOK_iff_no_padNeeded BLOCK_512 (loaded 7 abc_512) H).
Defined.



(** ** SHA_Base: the message buffer *)

Lemma msgInput_vector_appends (MSG : WordType) (a : list Z) :
  forall e,
    SHA_Base.msgInput_vector MSG a e
    = (Value tt, set_message (m_message e ++ map (wrap MSG) a) e).
Proof.
  induction a as [|b a IH]; intros e; cbn [SHA_Base.msgInput_vector map].
  - unfold ret. rewrite app_nil_r. destruct e; reflexivity.
  - erewrite bindM_step by reflexivity. rewrite IH.
    unfold set_message. cbn [m_message m_H m_W m_work m_Hleft m_setDigest].
    now rewrite <- app_assoc.
Qed.

Lemma map_wrap_words (MSG : WordType) (a : list Z) :
  Forall (is_word MSG) a -> map (wrap MSG) a = a.
Proof.
  induction 1 as [|x a Hx _ IH]; cbn [map]; [reflexivity|].
  rewrite IH. unfold wrap. now rewrite Z.mod_small by exact Hx.
Qed.

(** X17.  [msgInput] of a vector appends its elements in order, each
    converted to the word type [MSG] of the buffer, and changes no other
    member, so feeding [a] and then [b] is feeding [a ++ b]; the buffer
    then holds words of [MSG] where it was fed, and holds the elements
    themselves when these are words of [MSG]; what was fed is read back
    word by word by [msgWord], which is undefined from the end of the
    buffer on; and [clearMessage] afterwards gives the engine
    [clearMessage] gives without the input. *)
Theorem msgInput_buffer (MSG : WordType) (a b : list Z) (e : Engine) :
  let fed := snd (SHA_Base.msgInput_vector MSG a e) in
  SHA_Base.msgInput_vector MSG a e
  = (Value tt, set_message (m_message e ++ map (fun x => x mod 2 ^ width MSG) a) e) /\
  (_ <~ SHA_Base.msgInput_vector MSG a ;; SHA_Base.msgInput_vector MSG b) e
  = SHA_Base.msgInput_vector MSG (a ++ b) e /\
  Forall (is_word MSG) (skipn (length (m_message e)) (m_message fed)) /\
  (Forall (is_word MSG) a -> fed = set_message (m_message e ++ a) e) /\
  (forall i, (i < length a)%nat ->
     SHA_Base.msgWord (length (m_message e) + i) fed
     = (Value ((nth i a 0) mod 2 ^ width MSG, S (length (m_message e) + i)), fed)) /\
  (forall i, (length (m_message e) + length a <= i)%nat ->
     SHA_Base.msgWord i fed = (Undefined, fed)) /\
  snd (SHA_Base.clearMessage fed) = snd (SHA_Base.clearMessage e).
Proof.
  cbv zeta. rewrite msgInput_vector_appends. cbn [snd].
  change (map (fun x => x mod 2 ^ width MSG) a) with (map (wrap MSG) a).
  split; [reflexivity|]. split; [|split; [|split; [|split; [|split]]]].
  - erewrite bindM_step by apply msgInput_vector_appends.
    rewrite !msgInput_vector_appends.
    unfold set_message. cbn [m_message m_H m_W m_work m_Hleft m_setDigest].
    now rewrite map_app, <- app_assoc.
  - cbn [m_message set_message].
    rewrite skipn_app, skipn_all, Nat.sub_diag. cbn [app skipn].
    apply Forall_forall. intros x Hx. apply in_map_iff in Hx.
    destruct Hx as [y [<- _]]. unfold wrap, is_word.
    apply Z.mod_pos_bound. apply Z.pow_pos_nonneg; [lia|].
    pose proof (width_pos MSG). lia.
  - intros Ha. now rewrite map_wrap_words.
  - intros i Hi. unfold SHA_Base.msgWord. cbn [m_message set_message].
    rewrite nth_error_app2, Nat.add_comm, Nat.add_sub by lia.
    assert (Hi' : (i < length (map (wrap MSG) a))%nat) by (rewrite length_map; exact Hi).
    rewrite (nth_error_nth' (map (wrap MSG) a) 0 Hi').
    change 0 with (wrap MSG 0) at 1. rewrite map_nth.
    unfold wrap. do 3 f_equal; lia.
  - intros i Hi. unfold SHA_Base.msgWord. cbn [m_message set_message].
    replace (nth_error (m_message e ++ map (wrap MSG) a) i) with (@None Z); [reflexivity|].
    symmetry. apply nth_error_None. rewrite length_app, length_map. exact Hi.
  - reflexivity.
Qed.

Lemma msgInput_buffer_witness :
  SHA_Base.msgWord 0 (snd (SHA_Base.msgInput_vector uint32_t [-1; 2 ^ 32 + 5] (constructed 7 0)))
  = (Value (0xffffffff, 1%nat),
     snd (SHA_Base.msgInput_vector uint32_t [-1; 2 ^ 32 + 5] (constructed 7 0))) /\
  Forall (is_word uint32_t) abc_512 /\
  snd (SHA_Base.msgInput_vector uint32_t abc_512 (constructed 7 0)) = loaded 7 abc_512.
Proof.
  assert (Hw : Forall (is_word uint32_t) abc_512).
  { repeat constructor; try discriminate. }
  assert (Hi : Nat.lt 0 (length [-1; 2 ^ 32 + 5])) by (cbn [length]; lia).
  split; [|split; [exact Hw|]].
  - exact (proj1 (proj2 (proj2 (proj2 (proj2
             (msgInput_buffer uint32_t [-1; 2 ^ 32 + 5] [] (constructed 7 0))))))
             0%nat Hi).
  - exact (proj1 (proj2 (proj2 (proj2
             (msgInput_buffer uint32_t abc_512 [] (constructed 7 0))))) Hw).
Defined.

(** ** SHA_Base and the truncating engines: what [computeHash] starts from *)

Lemma array_fill_map (n : nat) (g : Z -> Z) (src dst : list Z) :
  length dst = n -> (n <= length src)%nat ->
  array_fill n g src dst = map g (firstn n src).
Proof.
  intros Hd Hs. unfold array_fill.
  pose proof (array_fill_seq g src n 0 [] dst eq_refl) as E.
  cbn [app] in E. rewrite E by lia.
  rewrite skipn_all2, app_nil_r by lia.
  rewrite <- (map_nth_seq src n Hs), map_map. reflexivity.
Qed.

Lemma array_fill_overwrites (n : nat) (g : Z -> Z) (src dst dst' : list Z) :
  length dst = n -> length dst' = n ->
  array_fill n g src dst = array_fill n g src dst'.
Proof.
  intros Hd Hd'. unfold array_fill.
  pose proof (array_fill_seq g src n 0 [] dst eq_refl) as E.
  pose proof (array_fill_seq g src n 0 [] dst' eq_refl) as E'.
  cbn [app] in E, E'. rewrite E, E' by lia.
  now rewrite !skipn_all2 by lia.
Qed.

Lemma SHA_224_initHashValue_value (e : Engine) :
  length (m_H e) = 8%nat ->
  SHA_224.initHashValue e = (Value tt, set_H SHA_224.a e).
Proof.
  intros HH. unfold SHA_224.initHashValue, modify.
  rewrite array_fill_map by (exact HH || (cbn; lia)). reflexivity.
Qed.

Lemma SHA_384_initHashValue_value (e : Engine) :
  length (m_H e) = 8%nat ->
  SHA_384.initHashValue e = (Value tt, set_H SHA_384.a e).
Proof.
  intros HH. unfold SHA_384.initHashValue, modify.
  rewrite array_fill_map by (exact HH || (cbn; lia)). reflexivity.
Qed.

Lemma block_loop_empty (CRTP : Derived) (fuel index : nat) (e : Engine) :
  m_message e = [] -> SHA_Base.block_loop CRTP fuel index e = (Value tt, e).
Proof.
  intros Hm. destruct fuel; cbn [SHA_Base.block_loop]; rewrite Hm;
    cbn [length]; rewrite Nat.ltb_irrefl || idtac;
    destruct index; reflexivity.
Qed.

(** X18.  On an empty buffer [computeHash] of a truncating engine stops in
    the assertion when [USE_ASSERT] is defined.  Without it no block is
    processed, whatever the inherited members are, and [digest()] then
    hands out the leading words of the initial hash value. *)
Theorem computeHash_empty_buffer (CRTP : Derived) (BLK : SHA_BlockSize)
        (fuel : nat) (e : Engine) :
  m_message e = [] -> length (m_H e) = 8%nat ->
  SHA_Base.computeHash CRTP BLK fuel true e = (AssertionFailure, e) /\
  (initHashValue CRTP = SHA_224.initHashValue ->
   afterHash CRTP = SHA_224.afterHash ->
   length (m_Hleft e) = 7%nat ->
   fst ((_ <~ SHA_Base.computeHash CRTP BLK fuel false ;; SHA_224.digest) e)
   = Value (firstn 7 SHA_224.a)) /\
  (initHashValue CRTP = SHA_384.initHashValue ->
   afterHash CRTP = SHA_384.afterHash ->
   length (m_Hleft e) = 6%nat ->
   fst ((_ <~ SHA_Base.computeHash CRTP BLK fuel false ;; SHA_384.digest) e)
   = Value (firstn 6 SHA_384.a)).
Proof.
  intros Hm HH. split; [|split].
  - apply computeHash_rejects. unfold SHA_Base.inputOK. now rewrite Hm.
  - intros Hinit Hafter HL.
    unfold SHA_Base.computeHash, SHA_Base.assert_inputOK.
    erewrite bindM_step by (erewrite bindM_step by reflexivity; rewrite Hinit;
      erewrite bindM_step by (apply SHA_224_initHashValue_value; exact HH);
      erewrite bindM_step by (apply block_loop_empty; exact Hm);
      rewrite Hafter; reflexivity).
    rewrite SHA_224_digest_fresh; [reflexivity|reflexivity|reflexivity|exact HL].
  - intros Hinit Hafter HL.
    unfold SHA_Base.computeHash, SHA_Base.assert_inputOK.
    erewrite bindM_step by (erewrite bindM_step by reflexivity; rewrite Hinit;
      erewrite bindM_step by (apply SHA_384_initHashValue_value; exact HH);
      erewrite bindM_step by (apply block_loop_empty; exact Hm);
      rewrite Hafter; reflexivity).
    rewrite SHA_384_digest_fresh; [reflexivity|reflexivity|reflexivity|exact HL].
Qed.

Lemma computeHash_empty_buffer_witness :
  m_message (constructed 7 0) = [] /\ length (m_H (constructed 7 0)) = 8%nat /\
  SHA_224.computeHash true 1 (constructed 7 0) = (AssertionFailure, constructed 7 0) /\
  fst ((_ <~ SHA_Base.computeHash (SHA_224.derived false) BLOCK_512 1 false ;;
        SHA_224.digest) (constructed 7 0))
  = Value (firstn 7 SHA_224.a).
Proof.
  assert (Hm : m_message (constructed 7 0) = []) by reflexivity.
  assert (HH : length (m_H (constructed 7 0)) = 8%nat) by reflexivity.
  split; [exact Hm|]. split; [exact HH|]. split.
  - exact (proj1 (computeHash_empty_buffer (SHA_224.derived true) BLOCK_512 1
                    (constructed 7 0) Hm HH)).
  - exact (proj1 (proj2 (computeHash_empty_buffer (SHA_224.derived false) BLOCK_512 1
                           (constructed 7 0) Hm HH)) eq_refl eq_refl eq_refl).
Defined.

(** X19.  [computeHash] of a truncating engine does not depend on the hash
    state an earlier run has left: started on two engines that differ in
    [m_H] only, it ends in the same outcome and the same engine, whatever
    the inherited members are.  (When the assertion fails the engine is
    handed back untouched, old hash state included.) *)
Theorem computeHash_resets_hash_state (CRTP : Derived) (BLK : SHA_BlockSize)
        (fuel : nat) (ua : bool) (e : Engine) (H' : list Z) :
  length (m_H e) = 8%nat -> length H' = 8%nat ->
  (ua = true -> SHA_Base.inputOK BLK e = true) ->
  initHashValue CRTP = SHA_224.initHashValue \/
  initHashValue CRTP = SHA_384.initHashValue ->
  SHA_Base.computeHash CRTP BLK fuel ua (set_H H' e)
  = SHA_Base.computeHash CRTP BLK fuel ua e.
Proof.
  intros HH HH' Hok Hinit.
  assert (Hpass : forall s, SHA_Base.inputOK BLK s = SHA_Base.inputOK BLK e ->
            SHA_Base.assert_inputOK BLK ua s = (Value tt, s)).
  { intros s Hs. unfold SHA_Base.assert_inputOK. rewrite Hs.
    destruct ua; [rewrite Hok by reflexivity|]; reflexivity. }
  unfold SHA_Base.computeHash.
  erewrite (bindM_step _ _ (set_H H' e)) by (apply Hpass; reflexivity).
  erewrite (bindM_step _ _ e) by (apply Hpass; reflexivity).
  assert (Hsame : initHashValue CRTP (set_H H' e) = initHashValue CRTP e).
  { destruct Hinit as [-> | ->].
    - rewrite !SHA_224_initHashValue_value by assumption. reflexivity.
    - rewrite !SHA_384_initHashValue_value by assumption. reflexivity. }
  unfold bindM at 1 3. now rewrite Hsame.
Qed.

Lemma computeHash_resets_hash_state_witness :
  length (m_H (loaded 7 abc_512)) = 8%nat /\ length (m_H hashed_224) = 8%nat /\
  SHA_Base.inputOK BLOCK_512 (loaded 7 abc_512) = true /\
  SHA_Base.computeHash (SHA_224.derived true) BLOCK_512 1 true
    (set_H (m_H hashed_224) (loaded 7 abc_512))
  = SHA_Base.computeHash (SHA_224.derived true) BLOCK_512 1 true (loaded 7 abc_512).
Proof.
  assert (HH : length (m_H (loaded 7 abc_512)) = 8%nat) by reflexivity.
  assert (HH' : length (m_H hashed_224) = 8%nat) by reflexivity.
  assert (Hok : SHA_Base.inputOK BLOCK_512 (loaded 7 abc_512) = true) by reflexivity.
  split; [exact HH|]. split; [exact HH'|]. split; [exact Hok|].
  exact (computeHash_resets_hash_state (SHA_224.derived true) BLOCK_512 1 true
           (loaded 7 abc_512) (m_H hashed_224) HH HH' (fun _ => Hok)
           (or_introl eq_refl)).
Defined.

(** X20.  The arrays keep their sizes under every member function of
    [SHA_Base], [SHA_224] and [SHA_384] at hand, and [digest()] of a
    truncating engine always hands out exactly 7 (SHA-224) or 6 (SHA-384)
    words, before or after [computeHash] and whatever [m_H] holds. *)
Theorem arrays_keep_their_sizes (MSG : WordType) (n : nat) (e : Engine) (x : Z) (a : list Z) :
  well_formed n e ->
  well_formed n (snd (SHA_Base.msgInput MSG x e)) /\
  well_formed n (snd (SHA_Base.msgInput_vector MSG a e)) /\
  well_formed n (snd (SHA_Base.clearMessage e)) /\
  well_formed n (snd (SHA_224.initHashValue e)) /\
  well_formed n (snd (SHA_384.initHashValue e)) /\
  well_formed n (snd (SHA_224.afterHash e)) /\
  well_formed n (snd (SHA_384.afterHash e)) /\
  (n = 7%nat ->
   well_formed 7 (snd (SHA_224.digest e)) /\
   exists d, fst (SHA_224.digest e) = Value d /\ length d = 7%nat) /\
  (n = 6%nat ->
   well_formed 6 (snd (SHA_384.digest e)) /\
   exists d, fst (SHA_384.digest e) = Value d /\ length d = 6%nat).
Proof.
  intros [HH HL]. rewrite msgInput_vector_appends.
  unfold well_formed, SHA_Base.msgInput, SHA_Base.clearMessage,
    SHA_224.initHashValue, SHA_384.initHashValue, SHA_224.afterHash,
    SHA_384.afterHash, modify.
  cbn [snd m_H m_Hleft set_message set_H set_setDigest].
  rewrite !array_fill_length by exact HH.
  repeat (split; [auto; fail|]).
  split; intros ->.
  - unfold SHA_224.digest. destruct (m_setDigest e);
      cbn [fst snd m_H m_Hleft set_Hleft set_setDigest];
      rewrite ?array_fill_length by exact HL;
      (split; [auto|eexists; split; [reflexivity|]]);
      rewrite ?array_fill_length by exact HL; auto.
  - unfold SHA_384.digest. destruct (m_setDigest e);
      cbn [fst snd m_H m_Hleft set_Hleft set_setDigest];
      rewrite ?array_fill_length by exact HL;
      (split; [auto|eexists; split; [reflexivity|]]);
      rewrite ?array_fill_length by exact HL; auto.
Qed.

Lemma arrays_keep_their_sizes_witness :
  well_formed 7 hashed_224 /\
  well_formed 7 (snd (SHA_224.digest hashed_224)) /\
  exists d, fst (SHA_224.digest hashed_224) = Value d /\ length d = 7%nat.
Proof.
  assert (Hwf : well_formed 7 hashed_224) by (split; reflexivity).
  split; [exact Hwf|].
  exact (proj1 (proj2 (proj2 (proj2 (proj2 (proj2 (proj2 (proj2
           (arrays_keep_their_sizes uint32_t 7 hashed_224 0 [] Hwf)))))))) eq_refl).
Defined.

(** ** SHA_Base: [computeHash] does not consume the buffer *)

Lemma keeps_message_bindM {A B : Type} (m : M A) (k : A -> M B) :
  keeps_message m -> (forall a, keeps_message (k a)) -> keeps_message (bindM m k).
Proof.
  intros Hm Hk e. unfold bindM. specialize (Hm e).
  destruct (m e) as [[a| | |] e1]; cbn [snd] in *; try exact Hm.
  rewrite Hk. exact Hm.
Qed.

Lemma keeps_message_modify (g : Engine -> Engine) :
  (forall e, m_message (g e) = m_message e) -> keeps_message (modify g).
Proof. intros Hg e. apply Hg. Qed.

Lemma keeps_message_block_loop (CRTP : Derived) (fuel : nat) :
  (forall i, keeps_message (prepMsgSchedule CRTP i)) ->
  keeps_message (initWorkingVars CRTP) ->
  keeps_message (workingLoop CRTP) ->
  keeps_message (updateHash CRTP) ->
  forall index, keeps_message (SHA_Base.block_loop CRTP fuel index).
Proof.
  intros Hp Hi Hw Hu. induction fuel as [|fuel IH]; intros index e;
    cbn [SHA_Base.block_loop]; destruct (index <? length (m_message e))%nat;
    try reflexivity.
  apply (keeps_message_bindM (prepMsgSchedule CRTP index)); [apply Hp|].
  intros index'. apply keeps_message_bindM; [exact Hi|]. intros _.
  apply keeps_message_bindM; [exact Hw|]. intros _.
  apply keeps_message_bindM; [exact Hu|]. intros _. apply IH.
Qed.

(** X21.  [computeHash] never touches the message buffer itself: when the
    six members it calls on the derived class leave [m_message] alone, the
    buffer after [computeHash] is the buffer before it, whether the run
    succeeds, stops in the assertion or gets no further. *)
Theorem computeHash_keeps_message (CRTP : Derived) (BLK : SHA_BlockSize)
        (fuel : nat) (ua : bool) :
  keeps_message (initHashValue CRTP) ->
  (forall i, keeps_message (prepMsgSchedule CRTP i)) ->
  keeps_message (initWorkingVars CRTP) ->
  keeps_message (workingLoop CRTP) ->
  keeps_message (updateHash CRTP) ->
  keeps_message (afterHash CRTP) ->
  keeps_message (SHA_Base.computeHash CRTP BLK fuel ua).
Proof.
  intros H0 Hp Hi Hw Hu Ha. unfold SHA_Base.computeHash.
  apply keeps_message_bindM.
  { intros e. unfold SHA_Base.assert_inputOK.
    destruct (ua && negb (SHA_Base.inputOK BLK e)); reflexivity. }
  intros _. apply keeps_message_bindM; [exact H0|]. intros _.
  apply keeps_message_bindM; [|intros _; exact Ha].
  apply keeps_message_block_loop; assumption.
Qed.

Lemma keeps_message_read_block (n : nat) :
  forall index, keeps_message (SHA_2.read_block n index).
Proof.
  induction n as [|n IH]; intros index; cbn [SHA_2.read_block].
  - intros e. reflexivity.
  - apply keeps_message_bindM.
    + intros e. unfold SHA_Base.msgWord.
      destruct (nth_error (m_message e) index); reflexivity.
    + intros p. apply keeps_message_bindM; [apply IH|].
      intros q e. reflexivity.
Qed.

Lemma keeps_message_prepMsgSchedule (T : WordType) (ua : bool) (index : nat) :
  keeps_message (SHA_2.prepMsgSchedule T ua index).
Proof.
  unfold SHA_2.prepMsgSchedule.
  apply keeps_message_bindM; [apply keeps_message_read_block|]. intros p.
  apply keeps_message_bindM; [intros e; reflexivity|]. intros W.
  apply keeps_message_bindM; [apply keeps_message_modify; reflexivity|].
  intros _ e. reflexivity.
Qed.

Lemma keeps_message_workingLoop (T : WordType) (ua : bool) :
  keeps_message (SHA_2.workingLoop T ua).
Proof.
  intros e. unfold SHA_2.workingLoop.
  apply (keeps_message_bindM (lift _) (fun vars => modify (set_work vars))).
  - intros s. reflexivity.
  - intros vars. apply keeps_message_modify. reflexivity.
Qed.

Lemma computeHash_keeps_message_witness :
  m_message hashed_224 = abc_512 /\
  m_message (snd (SHA_224.computeHash true 0 (loaded 7 abc_512))) = abc_512 /\
  m_message (snd (SHA_384.computeHash false 1 (loaded 6 [1; 2; 3]))) = [1; 2; 3].
Proof.
  assert (K224 : keeps_message (SHA_Base.computeHash (SHA_224.derived true) BLOCK_512 0 true)).
  { apply computeHash_keeps_message.
    - apply keeps_message_modify. reflexivity.
    - apply keeps_message_prepMsgSchedule.
    - apply keeps_message_modify. reflexivity.
    - apply keeps_message_workingLoop.
    - apply keeps_message_modify. reflexivity.
    - apply keeps_message_modify. reflexivity. }
  assert (K384 : keeps_message (SHA_Base.computeHash (SHA_384.derived false) BLOCK_1024 1 false)).
  { apply computeHash_keeps_message.
    - apply keeps_message_modify. reflexivity.
    - apply keeps_message_prepMsgSchedule.
    - apply keeps_message_modify. reflexivity.
    - apply keeps_message_workingLoop.
    - apply keeps_message_modify. reflexivity.
    - apply keeps_message_modify. reflexivity. }
  split; [reflexivity|]. split.
  - exact (K224 (loaded 7 abc_512)).
  - exact (K384 (loaded 6 [1; 2; 3])).
Defined.

(** ** BitwiseINT: reading the bits of a shifted or rotated word *)

(** X22.  What [testbit] reads from the result of a rotation or a shift of a
    word, for an amount strictly between 0 and the width: bit [i] of
    [ROTL(x, n)] is bit [(i - n) mod width] of [x], bit [i] of [ROTR(x, n)]
    is bit [(i + n) mod width], [SHL] moves the bits up and fills with
    zeros from below, [SHR] moves them down and fills with zeros from
    above. *)
Theorem testbit_of_shifted (T : WordType) (ua : bool) (x n i : Z) :
  is_word T x -> 0 < n < width T -> 0 <= i < width T ->
  (r <- BitwiseINT.ROTL T ua x n ;; BitwiseINT.testbit T ua r i)
  = BitwiseINT.testbit T ua x ((i - n) mod width T) /\
  (r <- BitwiseINT.ROTR T ua x n ;; BitwiseINT.testbit T ua r i)
  = BitwiseINT.testbit T ua x ((i + n) mod width T) /\
  (s <- BitwiseINT.SHL T x n ;; BitwiseINT.testbit T ua s i)
  = (if n <=? i then BitwiseINT.testbit T ua x (i - n) else Value false) /\
  (s <- BitwiseINT.SHR T x n ;; BitwiseINT.testbit T ua s i)
  = (if i + n <? width T then BitwiseINT.testbit T ua x (i + n) else Value false).
Proof.
  intros Hx Hn Hi.
  rewrite ROTL_rotates, ROTR_rotates, SHL_defined, SHR_defined by (assumption || lia).
  cbn [bind].
  rewrite !(testbit_value T ua _ i) by exact Hi.
  rewrite !(testbit_value T ua x (_ mod _)) by (apply Z.mod_pos_bound; lia).
  rewrite rotate_left_spec, rotate_right_spec by exact Hi.
  unfold wrap. rewrite Z.mod_pow2_bits_low, Z.shiftl_spec, Z.shiftr_spec by lia.
  repeat split.
  - destruct (Z.leb_spec n i).
    + now rewrite testbit_value by lia.
    + now rewrite Z.testbit_neg_r by lia.
  - destruct (Z.ltb_spec (i + n) (width T)).
    + now rewrite testbit_value by lia.
    + now rewrite (word_testbit_high (width T) x) by (assumption || lia).
Qed.

Lemma testbit_of_shifted_witness :
  is_word uint32_t 0x80000001 /\ 0 < 4 < width uint32_t /\ 0 <= 3 < width uint32_t /\
  (r <- BitwiseINT.ROTL uint32_t true 0x80000001 4 ;; BitwiseINT.testbit uint32_t true r 3)
  = BitwiseINT.testbit uint32_t true 0x80000001 ((3 - 4) mod width uint32_t) /\
  (s <- BitwiseINT.SHL uint32_t 0x80000001 4 ;; BitwiseINT.testbit uint32_t true s 3)
  = Value false.
Proof.
  assert (Hx : is_word uint32_t 0x80000001) by (vm_compute; split; [discriminate|reflexivity]).
  assert (Hn : 0 < 4 < width uint32_t) by (vm_compute; split; reflexivity).
  assert (Hi : 0 <= 3 < width uint32_t) by (vm_compute; split; [discriminate|reflexivity]).
  pose proof (testbit_of_shifted uint32_t true 0x80000001 4 3 Hx Hn Hi) as H.
  split; [exact Hx|]. split; [exact Hn|]. split; [exact Hi|].
  split; [exact (proj1 H)|exact (proj1 (proj2 (proj2 H)))].
Defined.

(** ** SHA_Base: a block is sixteen words *)

(** X23.  For both block sizes [inputOK] accepts exactly the buffers that
    hold a positive multiple of 16 words, however many words that is. *)
Theorem inputOK_sixteen_words (BLK : SHA_BlockSize) (e : Engine) :
  SHA_Base.inputOK BLK e = true <->
  (0 < length (m_message e))%nat /\ (length (m_message e) mod 16 = 0)%nat.
Proof.
  rewrite inputOK_spec.
  assert (Hne : m_message e <> [] <-> (0 < length (m_message e))%nat).
  { destruct (m_message e); cbn [length]; split; intros H; (congruence || lia). }
  assert (Hmod : (Z.of_nat (length (m_message e)) * SHA_Base.wordSizeBits BLK)
                   mod SHA_Base.blockSizeBits BLK = 0
                 <-> (length (m_message e) mod 16 = 0)%nat).
  { rewrite <- Nat2Z.inj_iff, Nat2Z.inj_mod. change (Z.of_nat 16) with 16.
    change (Z.of_nat 0) with 0.
    destruct BLK; cbn [SHA_Base.blockSizeBits SHA_Base.wordSizeBits];
      split; intros H; Z.div_mod_to_equations; lia. }
  rewrite Hne, Hmod. reflexivity.
Qed.
